(** * Simplistic: the reactive core and the context stack

    A shallow embedding of [lib/src/state.ts] (value cells, computed cells,
    conditional and list bindings), of the context stack and [div] of
    [lib/src/simplest.ts], of [SimplestEngine.div] of
    [lib/src/simplest-v2.js], and of the element factories of
    [lib/src/simplest.js].

    Conventions of the embedding.
    - JavaScript objects live in arenas (lists); an object reference is the
      index of the object in its arena, [new] appends at the end.  Objects are
      never freed.
    - A JavaScript [Set] is the list of its elements in insertion order
      without repetition; [forEach] visits them in that order.
    - Numbers are integers; [NaN], the one value that is not [===] to itself,
      is outside the model.
    - The cell layer records every call it makes to a subscribed function in
      a trace, with the argument and with what the cells hold at that moment.
      An application callback is identified by name and observed through the
      trace only; the closures that the bindings subscribe act on the document
      and on their binding, and take the recorded calls from the trace.
    - [notify] calls these functions in a bare [forEach].
      [State_notify_under] is the pass with functions that may throw: what a
      call does (it returns and leaves the cells alone, it throws, or it
      writes to the cells) is given from outside.  [State_notify],
      [State_set_value] and [State_push] are the pass, the assignment and
      the push in which every function called returns and leaves the cells
      alone ([State_notify_under_passive]); the bindings are studied on
      these.
    - A render callback is an element factory: a call creates a new node.
    - The document is a list of nodes with parent pointers and ordered
      children; [document.body] is node 0.  [appendChild] of a node that the
      caller was given throws when the node is the parent or holds it
      ([Node_appendChild]); no library function catches an exception.
    - Application code given to [div] is a sequence of statements, among
      them [throw] and [try { ... } catch (e) { }]. *)

From Stdlib Require Import ZArith Lia.
From stdpp Require Import base decidable option list numbers strings.

Set Default Proof Using "Type".

(* ================================================================== *)
(** * Part I: definitions *)
(* ================================================================== *)

(** ** JavaScript values *)

Inductive Value :=
| VUndefined
| VNull
| VBool (b : bool)
| VNum (z : Z)
| VStr (s : string)
| VArr (a : nat).   (* reference to a mutable array in the heap *)

#[global] Instance Value_eq_dec : EqDecision Value.
Proof. solve_decision. Defined.

(** [a === b] and [a !== b]: primitives compare by value, arrays by
    reference. *)
Definition strict_eq (a b : Value) : bool := bool_decide (a = b).
Definition strict_neq (a b : Value) : bool := negb (strict_eq a b).

(** ** [Set]: insertion-ordered, no repetition *)

Section JsSet.
Context {A : Type} `{EqDecision A}.

Definition Set_add (x : A) (s : list A) : list A :=
  if decide (x ∈ s) then s else s ++ [x].

Definition Set_delete (x : A) (s : list A) : list A :=
  filter (λ y, y ≠ x) s.

End JsSet.

(** ** Results of calls that may throw.  The state reached when the
    exception leaves the call is kept: nothing is rolled back. *)

Inductive Outcome (S A : Type) :=
| Returned (a : A) (s : S)
| Thrown (msg : string) (s : S).
Arguments Returned {S A} a s.
Arguments Thrown {S A} msg s.

Definition final {S A} (o : Outcome S A) : S :=
  match o with Returned _ s => s | Thrown _ s => s end.

Definition returns {S A} (o : Outcome S A) : bool :=
  match o with Returned _ _ => true | Thrown _ _ => false end.

(** ** The document: nodes with parent pointers and ordered children *)

Inductive NodeKind :=
| ElementNode (tag : string)
| TextNode
| CommentNode.

Record Node := {
  nd_kind : NodeKind;
  nd_text : string;
  nd_parent : option nat;
  nd_children : list nat
}.

(** What a factory call builds: the kind and text of a new node. *)
Record Markup := { mk_kind : NodeKind; mk_text : string }.

(** [document.body] is node 0 of every document. *)
Definition body : nat := 0.

Definition empty_document : list Node :=
  [ {| nd_kind := ElementNode "body"; nd_text := ""; nd_parent := None; nd_children := [] |} ].

Definition parentNode (n : nat) (d : list Node) : option nat :=
  d !! n ≫= nd_parent.

Definition childNodes (n : nat) (d : list Node) : list nat :=
  default [] (nd_children <$> d !! n).

Definition set_parent (n : nat) (p : option nat) (d : list Node) : list Node :=
  alter (λ x, {| nd_kind := nd_kind x; nd_text := nd_text x;
                 nd_parent := p; nd_children := nd_children x |}) n d.

Definition set_children (n : nat) (cs : list nat) (d : list Node) : list Node :=
  alter (λ x, {| nd_kind := nd_kind x; nd_text := nd_text x;
                 nd_parent := nd_parent x; nd_children := cs |}) n d.

(** [document.createElement], [createTextNode], [createComment]: a new
    detached node. *)
Definition createNode (m : Markup) (d : list Node) : nat * list Node :=
  (length d,
   d ++ [ {| nd_kind := mk_kind m; nd_text := mk_text m;
             nd_parent := None; nd_children := [] |} ]).

(** [n.remove()] *)
Definition Node_remove (n : nat) (d : list Node) : list Node :=
  match parentNode n d with
  | None => d
  | Some p => set_parent n None (set_children p (filter (λ x, x ≠ n) (childNodes p d)) d)
  end.

(** [p.appendChild(c)]: [c] leaves its old parent first. *)
Definition appendChild (p c : nat) (d : list Node) : list Node :=
  let d := Node_remove c d in
  set_parent c (Some p) (set_children p (childNodes p d ++ [c]) d).

(** [node] is [root], or is reached from [root] through children in at most
    [fuel] steps. *)
Fixpoint descends (fuel : nat) (root node : nat) (d : list Node) : bool :=
  bool_decide (node = root) ||
  match fuel with
  | 0 => false
  | S fuel => existsb (λ child, descends fuel child node d) (childNodes root d)
  end.

(** [a.contains(b)]: [b] is [a] or a descendant of [a].  A chain of children
    in a tree is not longer than the document. *)
Definition Node_contains (a b : nat) (d : list Node) : bool :=
  descends (length d) a b d.

(** [b] is [a] or below [a]: some chain of children leads from [a] to [b]. *)
Definition holds (a b : nat) (d : list Node) : Prop :=
  ∃ fuel, descends fuel a b d = true.

Definition HierarchyRequestError : string :=
  "HierarchyRequestError: The new child element contains the parent.".

Definition not_a_node : string :=
  "TypeError: parameter 1 is not of type 'Node'.".

(** [p.appendChild(c)] for a [c] that the caller has been given: the browser
    raises TypeError when [c] is not a node and HierarchyRequestError when [c]
    is [p] or holds [p], and the tree is as it was then.  [appendChild] above
    is the same call for a [c] that cannot hold [p], such as a node that has
    just been created. *)
Definition Node_appendChild (p c : nat) (d : list Node) : Outcome (list Node) unit :=
  if decide (c < length d) then
    if Node_contains c p d then Thrown HierarchyRequestError d
    else Returned () (appendChild p c d)
  else Thrown not_a_node d.

(** [n instanceof HTMLElement] *)
Definition is_element (n : nat) (d : list Node) : bool :=
  match nd_kind <$> d !! n with
  | Some (ElementNode _) => true
  | _ => false
  end.

Fixpoint insert_before (c ref : nat) (l : list nat) : list nat :=
  match l with
  | [] => []
  | x :: l' => if decide (x = ref) then c :: x :: l' else x :: insert_before c ref l'
  end.

(** [p.insertBefore(c, ref)].  The only caller reads [p] off [ref] itself
    ([ref.parentNode]); for a [ref] that is not a child of [p] the browser
    raises NotFoundError, and here the tree is left as it is. *)
Definition insertBefore (p c ref : nat) (d : list Node) : list Node :=
  if decide (ref ∈ childNodes p d) then
    let d := Node_remove c d in
    set_parent c (Some p) (set_children p (insert_before c ref (childNodes p d)) d)
  else d.

(** ** The context stack of [simplest.ts] *)

Record Page := {
  contextStack : list nat;      (* top of the stack is the last element *)
  document : list Node
}.

(** [let contextStack: HTMLElement[] = [document.body]] *)
Definition initial_page : Page :=
  {| contextStack := [body]; document := empty_document |}.

(** [contextStack[contextStack.length - 1]]; [None] is [undefined]. *)
Definition getCurrentContext (pg : Page) : option nat :=
  contextStack pg !! (length (contextStack pg) - 1).

Definition pushContext (element : nat) (pg : Page) : Page :=
  {| contextStack := contextStack pg ++ [element]; document := document pg |}.

(** [Array.prototype.pop]: drops the last element, if any. *)
Definition Array_pop {A} (l : list A) : list A := take (length l - 1) l.

Definition popContext (pg : Page) : Page :=
  if decide (1 < length (contextStack pg))
  then {| contextStack := Array_pop (contextStack pg); document := document pg |}
  else pg.

Inductive StackOp :=
| OpPush (element : nat)
| OpPop.

Definition stack_step (pg : Page) (op : StackOp) : Page :=
  match op with
  | OpPush element => pushContext element pg
  | OpPop => popContext pg
  end.

Definition run_stack (ops : list StackOp) (pg : Page) : Page :=
  foldl stack_step pg ops.

(** ** Cells ([state.ts], classes [State] and [ComputedState]) *)

(** The function objects that get subscribed.  [UserFn] is an application
    callback; [UpdateFn ph k] is the closure [() => this.update()] that the
    conditional binding with placeholder [ph] creates for its [k]-th
    dependency; [RenderFn c] is the closure [() => this.render()] of the list
    binding with container [c].  Two listeners are the same function object
    exactly when they are equal here. *)
Inductive Listener :=
| UserFn (name : nat)
| UpdateFn (placeholder : nat) (k : nat)
| RenderFn (container : nat).

#[global] Instance Listener_eq_dec : EqDecision Listener.
Proof. solve_decision. Defined.

(** What a closure can read when it runs: the arrays in the heap and the
    current value of every cell. *)
Record Snapshot := {
  snap_arrays : list (list Value);
  snap_states : list Value;
  snap_computeds : list Value
}.

Record State := {
  st_value : Value;                 (* _value *)
  st_listeners : list Listener;     (* listeners: Set *)
  st_computedStates : list nat      (* computedStates: Set *)
}.

Record ComputedState := {
  cs_value : Value;                 (* _value *)
  cs_computeFn : Snapshot → Value;  (* computeFn *)
  cs_dependencies : list nat;       (* dependencies: State[] *)
  cs_listeners : list Listener      (* listeners: Set *)
}.

(** Who made a call. *)
Inductive Source :=
| OfState (s : nat)
| OfComputed (c : nat).

#[global] Instance Source_eq_dec : EqDecision Source.
Proof. solve_decision. Defined.

(** The trace: [EvCall src l arg seen] is the call [l(arg)] made by [src]
    when the cells held [seen]; [EvRecompute c] is the entry into
    [c.recompute()]. *)
Inductive Event :=
| EvCall (src : Source) (l : Listener) (arg : Value) (seen : Snapshot)
| EvRecompute (c : nat).

Record Store := {
  arrays : list (list Value);
  states : list State;
  computeds : list ComputedState;
  trace : list Event
}.

Definition empty_store : Store :=
  {| arrays := []; states := []; computeds := []; trace := [] |}.

Definition snapshot (w : Store) : Snapshot :=
  {| snap_arrays := arrays w;
     snap_states := st_value <$> states w;
     snap_computeds := cs_value <$> computeds w |}.

Definition with_arrays (f : list (list Value) → list (list Value)) (w : Store) : Store :=
  {| arrays := f (arrays w); states := states w; computeds := computeds w; trace := trace w |}.

Definition with_states (f : list State → list State) (w : Store) : Store :=
  {| arrays := arrays w; states := f (states w); computeds := computeds w; trace := trace w |}.

Definition with_computeds (f : list ComputedState → list ComputedState) (w : Store) : Store :=
  {| arrays := arrays w; states := states w; computeds := f (computeds w); trace := trace w |}.

Definition emit (e : Event) (w : Store) : Store :=
  {| arrays := arrays w; states := states w; computeds := computeds w; trace := trace w ++ [e] |}.

Definition st_set_value (v : Value) (st : State) : State :=
  {| st_value := v; st_listeners := st_listeners st; st_computedStates := st_computedStates st |}.

Definition st_set_listeners (f : list Listener → list Listener) (st : State) : State :=
  {| st_value := st_value st; st_listeners := f (st_listeners st);
     st_computedStates := st_computedStates st |}.

Definition st_set_computedStates (f : list nat → list nat) (st : State) : State :=
  {| st_value := st_value st; st_listeners := st_listeners st;
     st_computedStates := f (st_computedStates st) |}.

Definition cs_set_value (v : Value) (cs : ComputedState) : ComputedState :=
  {| cs_value := v; cs_computeFn := cs_computeFn cs;
     cs_dependencies := cs_dependencies cs; cs_listeners := cs_listeners cs |}.

Definition cs_set_listeners (f : list Listener → list Listener) (cs : ComputedState) : ComputedState :=
  {| cs_value := cs_value cs; cs_computeFn := cs_computeFn cs;
     cs_dependencies := cs_dependencies cs; cs_listeners := f (cs_listeners cs) |}.

(** [new Array(...)]: a literal array allocated in the heap. *)
Definition Array_new (items : list Value) (w : Store) : nat * Store :=
  (length (arrays w), with_arrays (λ h, h ++ [items]) w).

(** [listener(value)]: the call is recorded with what the callee can see. *)
Definition call (src : Source) (l : Listener) (arg : Value) (w : Store) : Store :=
  emit (EvCall src l arg (snapshot w)) w.

(** *** class [State] *)

(** [new State(initialValue)] *)
Definition State_new (initialValue : Value) (w : Store) : nat * Store :=
  (length (states w),
   with_states (λ ss, ss ++ [ {| st_value := initialValue; st_listeners := [];
                                 st_computedStates := [] |} ]) w).

(** [get value()] *)
Definition State_value (s : nat) (w : Store) : Value :=
  default VUndefined (st_value <$> states w !! s).

(** *** class [ComputedState] *)

(** [get value()] *)
Definition ComputedState_value (c : nat) (w : Store) : Value :=
  default VUndefined (cs_value <$> computeds w !! c).

(** [recompute()] *)
Definition ComputedState_recompute (c : nat) (w : Store) : Store :=
  match computeds w !! c with
  | None => w
  | Some cs =>
    let w := emit (EvRecompute c) w in
    let newValue := cs_computeFn cs (snapshot w) in
    if strict_neq newValue (cs_value cs) then
      let w := with_computeds (alter (cs_set_value newValue) c) w in
      foldl (λ w listener, call (OfComputed c) listener (ComputedState_value c w) w)
            w (cs_listeners cs)
    else w
  end.

(** [new ComputedState(computeFn, dependencies)]; the dependencies are value
    cells ([State<any>[]]). *)
Definition ComputedState_new (computeFn : Snapshot → Value) (dependencies : list nat)
    (w : Store) : nat * Store :=
  let this := length (computeds w) in
  let w := with_computeds (λ cs, cs ++ [ {| cs_value := computeFn (snapshot w);
                                            cs_computeFn := computeFn;
                                            cs_dependencies := dependencies;
                                            cs_listeners := [] |} ]) w in
  (this,
   foldl (λ w dep, with_states (alter (st_set_computedStates (Set_add this)) dep) w)
         w dependencies).

(** [subscribe(listener)]; the function it returns is
    [ComputedState_unsubscribe]. *)
Definition ComputedState_subscribe (c : nat) (listener : Listener) (w : Store) : Store :=
  with_computeds (alter (cs_set_listeners (Set_add listener)) c) w.

(** [() => this.listeners.delete(listener)] *)
Definition ComputedState_unsubscribe (c : nat) (listener : Listener) (w : Store) : Store :=
  with_computeds (alter (cs_set_listeners (Set_delete listener)) c) w.

(** *** class [State], continued *)

(** [notify()], when every function that it calls returns and leaves the
    cells alone: each call is recorded and the pass goes on.  The pass in
    which a function may throw is [State_notify_under], below. *)
Definition State_notify (s : nat) (w : Store) : Store :=
  match states w !! s with
  | None => w
  | Some st =>
    let w := foldl (λ w listener, call (OfState s) listener (State_value s w) w)
                   w (st_listeners st) in
    foldl (λ w computed, ComputedState_recompute computed w) w (st_computedStates st)
  end.

(** [set value(newValue)], with such functions; [State_set_value_under] is
    the assignment in which a function may throw. *)
Definition State_set_value (s : nat) (newValue : Value) (w : Store) : Store :=
  if strict_neq newValue (State_value s w) then
    State_notify s (with_states (alter (st_set_value newValue) s) w)
  else w.

(** [subscribe(listener)]; the function it returns is [State_unsubscribe]. *)
Definition State_subscribe (s : nat) (listener : Listener) (w : Store) : Store :=
  with_states (alter (st_set_listeners (Set_add listener)) s) w.

(** [() => this.listeners.delete(listener)] *)
Definition State_unsubscribe (s : nat) (listener : Listener) (w : Store) : Store :=
  with_states (alter (st_set_listeners (Set_delete listener)) s) w.

(** The closure [() => fn(this._value)] that [map] hands to the computed
    cell. *)
Definition map_closure (s : nat) (fn : Value → Value) : Snapshot → Value :=
  λ seen, fn (default VUndefined (snap_states seen !! s)).

(** [map(fn)] *)
Definition State_map (s : nat) (fn : Value → Value) (w : Store) : nat * Store :=
  ComputedState_new (map_closure s fn) [s] w.

(** [Array.isArray(v)] *)
Definition Array_isArray (v : Value) : bool :=
  match v with VArr _ => true | _ => false end.

(** [push(item)], with such functions; [State_push_under] is the push in
    which a function may throw. *)
Definition State_push (s : nat) (item : Value) (w : Store) : Outcome Store unit :=
  match State_value s w with
  | VArr a =>
    Returned () (State_notify s (with_arrays (alter (λ items, items ++ [item]) a) w))
  | _ => Returned () w
  end.

(** [filter(predicate)]; the array it returns is a new one, given here by
    its elements. *)
Definition State_filter (s : nat) (predicate : Value → bool) (w : Store)
    : Outcome Store (list Value) :=
  match State_value s w with
  | VArr a => Returned (filter (λ item, predicate item = true) (default [] (arrays w !! a))) w
  | _ => Thrown "filter() can only be used on array states" w
  end.

(** ** Bindings ([state.ts], classes [ConditionalElement] and
    [IteratedElements])

    A render callback is an element factory: each call creates a new node
    whose kind and text the callback decides.  A binding object is passed
    along with the document it draws into. *)

Record ConditionalElement := {
  ce_conditionFn : Snapshot → bool;
  ce_elementFn : Snapshot → Markup;
  ce_dependencies : list nat;
  ce_currentElement : option nat;
  ce_placeholder : nat
}.

Definition ce_set_currentElement (el : option nat) (this : ConditionalElement)
    : ConditionalElement :=
  {| ce_conditionFn := ce_conditionFn this; ce_elementFn := ce_elementFn this;
     ce_dependencies := ce_dependencies this; ce_currentElement := el;
     ce_placeholder := ce_placeholder this |}.

(** [update()] *)
Definition ConditionalElement_update (seen : Snapshot)
    (st : list Node * ConditionalElement) : list Node * ConditionalElement :=
  let '(d, this) := st in
  let shouldShow := ce_conditionFn this seen in
  match shouldShow, ce_currentElement this with
  | true, None =>
    let '(el, d) := createNode (ce_elementFn this seen) d in
    (match parentNode (ce_placeholder this) d with
     | Some p => insertBefore p el (ce_placeholder this) d
     | None => d
     end,
     ce_set_currentElement (Some el) this)
  | false, Some el => (Node_remove el d, ce_set_currentElement None this)
  | _, _ => (d, this)
  end.

(** The binding as the constructor has it just before the initial
    [update()]: the placeholder is created and appended to the body. *)
Definition ConditionalElement_init (conditionFn : Snapshot → bool)
    (elementFn : Snapshot → Markup) (dependencies : list nat)
    (d : list Node) : list Node * ConditionalElement :=
  let '(placeholder, d) :=
    createNode {| mk_kind := CommentNode; mk_text := "conditional" |} d in
  (appendChild body placeholder d,
   {| ce_conditionFn := conditionFn; ce_elementFn := elementFn;
      ce_dependencies := dependencies; ce_currentElement := None;
      ce_placeholder := placeholder |}).

(** [new ConditionalElement(conditionFn, elementFn, dependencies)] *)
Definition ConditionalElement_new (conditionFn : Snapshot → bool)
    (elementFn : Snapshot → Markup) (dependencies : list nat)
    (w : Store) (d : list Node) : ConditionalElement * Store * list Node :=
  let '(d, this) :=
    ConditionalElement_update (snapshot w)
      (ConditionalElement_init conditionFn elementFn dependencies d) in
  let w := foldl (λ w '(k, dep), State_subscribe dep (UpdateFn (ce_placeholder this) k) w)
                 w (imap pair dependencies) in
  (this, w, d).

(** [State.when(condition, callback)].  The condition is a closure: it is
    given what it can read when it runs, besides its argument. *)
Definition State_when (s : nat) (condition : Snapshot → Value → bool)
    (callback : Snapshot → Markup)
    (w : Store) (d : list Node) : ConditionalElement * Store * list Node :=
  ConditionalElement_new (λ seen, condition seen (default VUndefined (snap_states seen !! s)))
                         callback [s] w d.

(** How the binding takes a call recorded in the trace: [UpdateFn] closures
    of this binding run [update], every other call is not for it. *)
Definition ConditionalElement_deliver (st : list Node * ConditionalElement) (e : Event)
    : list Node * ConditionalElement :=
  match e with
  | EvCall _ (UpdateFn ph _) _ seen =>
    if decide (ph = ce_placeholder st.2) then ConditionalElement_update seen st else st
  | _ => st
  end.

(** [items: T[] | State<T[]>] *)
Inductive Items :=
| PlainArray (a : nat)
| CellArray (s : nat).

Record IteratedElements := {
  ie_items : Items;
  ie_renderFn : Value → nat → Markup;
  ie_elements : list nat;
  ie_container : nat
}.

Definition ie_set_elements (els : list nat) (this : IteratedElements) : IteratedElements :=
  {| ie_items := ie_items this; ie_renderFn := ie_renderFn this;
     ie_elements := els; ie_container := ie_container this |}.

(** [this.items instanceof State ? this.items.value : this.items], as the
    array it denotes; [None] when it is not an array. *)
Definition currentItems (items : Items) (seen : Snapshot) : option (list Value) :=
  let v := match items with
           | CellArray s => default VUndefined (snap_states seen !! s)
           | PlainArray a => VArr a
           end in
  match v with
  | VArr a => snap_arrays seen !! a
  | _ => None
  end.

(** The body of [currentItems.forEach((item, index) => ...)]. *)
Fixpoint render_items (renderFn : Value → nat → Markup) (container : nat)
    (index : nat) (items : list Value) (st : list Node * list nat) : list Node * list nat :=
  match items with
  | [] => st
  | item :: rest =>
    let '(element, d) := createNode (renderFn item index) st.1 in
    render_items renderFn container (S index) rest
                 (appendChild container element d, st.2 ++ [element])
  end.

(** [render()] *)
Definition IteratedElements_render (seen : Snapshot) (st : list Node * IteratedElements)
    : Outcome (list Node * IteratedElements) unit :=
  let '(d, this) := st in
  let d := foldl (λ d el, Node_remove el d) d (ie_elements this) in
  let this := ie_set_elements [] this in
  match currentItems (ie_items this) seen with
  | None => Thrown "currentItems.forEach is not a function" (d, this)
  | Some items =>
    let '(d, elements) :=
      render_items (ie_renderFn this) (ie_container this) 0 items (d, []) in
    Returned () (d, ie_set_elements elements this)
  end.

(** The binding as the constructor has it just before its first [render()]:
    the container is created and appended to the body. *)
Definition IteratedElements_init (items : Items) (renderFn : Value → nat → Markup)
    (d : list Node) : list Node * IteratedElements :=
  let '(container, d) := createNode {| mk_kind := ElementNode "div"; mk_text := "" |} d in
  (appendChild body container d,
   {| ie_items := items; ie_renderFn := renderFn; ie_elements := [];
      ie_container := container |}).

(** [new IteratedElements(items, renderFn)], which is also [each]. *)
Definition IteratedElements_new (items : Items) (renderFn : Value → nat → Markup)
    (w : Store) (d : list Node) : Outcome (Store * list Node) IteratedElements :=
  match IteratedElements_render (snapshot w) (IteratedElements_init items renderFn d) with
  | Thrown msg (d, _) => Thrown msg (w, d)
  | Returned _ (d, this) =>
    match items with
    | CellArray s => Returned this (State_subscribe s (RenderFn (ie_container this)) w, d)
    | PlainArray _ => Returned this (w, d)
    end
  end.

Definition each := IteratedElements_new.

(** The children of the body are distinct nodes of the document. *)
Definition body_ok (d : list Node) : Prop :=
  0 < length d ∧ NoDup (childNodes body d) ∧ ∀ n, n ∈ childNodes body d → n < length d.

(** ** Reading the document under a list binding *)

(** The children of the container are the tracked elements, each of them a
    node of the document whose parent is the container. *)
Definition list_mounted (st : list Node * IteratedElements) : Prop :=
  let c := ie_container st.2 in
  c < length st.1 ∧
  childNodes c st.1 = ie_elements st.2 ∧
  NoDup (ie_elements st.2) ∧
  (∀ el, el ∈ ie_elements st.2 → el < length st.1 ∧ parentNode el st.1 = Some c).

(** The states a list binding goes through: it is created; it completes a
    render pass; and, in between, other code may change the document in any
    way that leaves the container's children and the tracked nodes as they
    are. *)
Inductive IteratedElements_reaches (items : Items) (renderFn : Value → nat → Markup)
    : list Node * IteratedElements → Prop :=
| reaches_init d :
    body_ok d →
    IteratedElements_reaches items renderFn (IteratedElements_init items renderFn d)
| reaches_render st seen st' :
    IteratedElements_reaches items renderFn st →
    IteratedElements_render seen st = Returned () st' →
    IteratedElements_reaches items renderFn st'
| reaches_undisturbed st d' :
    IteratedElements_reaches items renderFn st →
    list_mounted (d', st.2) →
    IteratedElements_reaches items renderFn (d', st.2).

(** Kind and text of a node of the document. *)
Definition node_markup (n : nat) (d : list Node) : option Markup :=
  (λ x, {| mk_kind := nd_kind x; mk_text := nd_text x |}) <$> d !! n.

(** ** Composition: [div] of [simplest.ts]

    [applyStyles] writes style properties and event handlers of the new
    element only; it touches neither the tree nor the stack and is left out. *)

(** [children: (HTMLElement | string)[]] *)
Inductive DivChild :=
| DivString (s : string)
| DivElement (n : nat).

Definition with_document (f : list Node → list Node) (pg : Page) : Page :=
  {| contextStack := contextStack pg; document := f (document pg) |}.

(** The body of [children.forEach(child => ...)]: a string becomes a new
    text node, anything else is handed to [element.appendChild]. *)
Definition div_child (element : nat) (child : DivChild) (pg : Page) : Outcome Page unit :=
  match child with
  | DivString s =>
    let '(t, d) := createNode {| mk_kind := TextNode; mk_text := s |} (document pg) in
    Returned () (with_document (λ _, appendChild element t d) pg)
  | DivElement c =>
    match Node_appendChild element c (document pg) with
    | Returned _ d => Returned () (with_document (λ _, d) pg)
    | Thrown msg _ => Thrown msg pg
    end
  end.

(** [children.forEach(child => ...)]: an exception leaves the loop at once. *)
Fixpoint div_children (element : nat) (children : list DivChild) (pg : Page)
    : Outcome Page unit :=
  match children with
  | [] => Returned () pg
  | child :: rest =>
    match div_child element child pg with
    | Returned _ pg => div_children element rest pg
    | Thrown msg pg => Thrown msg pg
    end
  end.

(** [getCurrentContext().appendChild(element); return element] *)
Definition div_append (element : nat) (pg : Page) : Outcome Page nat :=
  match getCurrentContext pg with
  | Some ctx =>
    match Node_appendChild ctx element (document pg) with
    | Returned _ d => Returned element (with_document (λ _, d) pg)
    | Thrown msg _ => Thrown msg pg
    end
  | None => Thrown "Cannot read properties of undefined (reading 'appendChild')" pg
  end.

(** [div(props, ...children)].  The children are values: the caller has
    evaluated them before [div] is entered.  Nothing catches an exception of
    [appendChild]: one raised in the loop leaves [div] before the pop, one
    raised by the last statement leaves it after the pop. *)
Definition div (children : list DivChild) (pg : Page) : Outcome Page nat :=
  let '(element, d) :=
    createNode {| mk_kind := ElementNode "div"; mk_text := "" |} (document pg) in
  let pg := with_document (λ _, d) pg in
  if decide (0 < length children) then
    match div_children element children (pushContext element pg) with
    | Returned _ pg => div_append element (popContext pg)
    | Thrown msg pg => Thrown msg pg
    end
  else div_append element pg.

(** The loop over the children as [div] runs it: on the new element, which
    has been pushed. *)
Definition div_loop (children : list DivChild) (pg : Page) : Outcome Page unit :=
  let '(element, d) :=
    createNode {| mk_kind := ElementNode "div"; mk_text := "" |} (document pg) in
  div_children element children (pushContext element (with_document (λ _, d) pg)).

(** ** Composition: [SimplestEngine] of [simplest-v2.js] *)

(** Application code as the engine sees it.  A [Call] is one statement of a
    function body: an element factory call, a [div(...)] call, or a [throw].
    A [Child] is one argument of [div]: a string, a node that the caller
    holds, a zero-argument function with its body, or a value of another
    type, which [div] skips.  A [Body] is a sequence of statements;
    [Try block rest] is [try { block } catch (e) { }] followed by [rest]. *)
Inductive Call :=
| CallElement (tag text : string)
| CallDiv (children : Children)
| CallThrow (msg : string)
with Children :=
| NoChildren
| AndChild (child : Child) (rest : Children)
with Child :=
| ChildString (s : string)
| ChildElement (n : nat)
| ChildFunction (body : Body)
| ChildOther
with Body :=
| Done
| Then (c : Call) (rest : Body)
| Try (block : Body) (rest : Body).

Scheme Call_mut := Induction for Call Sort Prop
  with Children_mut := Induction for Children Sort Prop
  with Child_mut := Induction for Child Sort Prop
  with Body_mut := Induction for Body Sort Prop.

Record Engine := {
  eng_contextStack : list nat;   (* this.contextStack *)
  eng_ready : bool;              (* this.ready *)
  eng_queue : list Call;         (* this.queue: the deferred calls *)
  eng_document : list Node
}.

(** [new SimplestEngine()] while the page is still loading, and once it has
    loaded. *)
Definition Engine_new (ready : bool) : Engine :=
  {| eng_contextStack := []; eng_ready := ready; eng_queue := [];
     eng_document := empty_document |}.

(** [get currentContext()]:
    [this.contextStack[this.contextStack.length - 1] || document.body] *)
Definition currentContext (e : Engine) : nat :=
  default body (eng_contextStack e !! (length (eng_contextStack e) - 1)).

Definition eng_with_stack (f : list nat → list nat) (e : Engine) : Engine :=
  {| eng_contextStack := f (eng_contextStack e); eng_ready := eng_ready e;
     eng_queue := eng_queue e; eng_document := eng_document e |}.

Definition eng_with_document (f : list Node → list Node) (e : Engine) : Engine :=
  {| eng_contextStack := eng_contextStack e; eng_ready := eng_ready e;
     eng_queue := eng_queue e; eng_document := f (eng_document e) |}.

Definition eng_enqueue (c : Call) (e : Engine) : Engine :=
  {| eng_contextStack := eng_contextStack e; eng_ready := eng_ready e;
     eng_queue := eng_queue e ++ [c]; eng_document := eng_document e |}.

(** [_createElement(tag, content, props)] and [div(props, ...children)],
    both through [_execute]: run now when the engine is ready, else queue the
    call and return [null].  [Engine_children] is
    [children.forEach(child => ...)], [Engine_body] runs the statements of a
    function child in order; an exception leaves each of them at once, up to
    the [try] block around it if there is one.  The new element of either
    call holds nothing when it is appended to the current context; a node
    given to [div] as a child is appended when it is an [HTMLElement], and
    that [appendChild] throws when the node holds the new element. *)
Fixpoint Engine_call (c : Call) (e : Engine) {struct c} : Outcome Engine (option nat) :=
  match c with
  | CallElement tag text =>
    if eng_ready e then
      let '(el, d) :=
        createNode {| mk_kind := ElementNode tag; mk_text := text |} (eng_document e) in
      Returned (Some el) (eng_with_document (λ _, appendChild (currentContext e) el d) e)
    else Returned None (eng_enqueue c e)
  | CallDiv children =>
    if eng_ready e then
      let '(el, d) :=
        createNode {| mk_kind := ElementNode "div"; mk_text := "" |} (eng_document e) in
      let e := eng_with_document (λ _, appendChild (currentContext e) el d) e in
      let e := eng_with_stack (λ st, st ++ [el]) e in
      match Engine_children el children e with
      | Returned _ e => Returned (Some el) (eng_with_stack Array_pop e)
      | Thrown msg e => Thrown msg e
      end
    else Returned None (eng_enqueue c e)
  | CallThrow msg => Thrown msg e
  end
with Engine_children (el : nat) (cs : Children) (e : Engine) {struct cs} : Outcome Engine unit :=
  match cs with
  | NoChildren => Returned () e
  | AndChild child rest =>
    match Engine_child el child e with
    | Returned _ e => Engine_children el rest e
    | Thrown msg e => Thrown msg e
    end
  end
with Engine_child (el : nat) (child : Child) (e : Engine) {struct child} : Outcome Engine unit :=
  match child with
  | ChildFunction body => Engine_body body e
  | ChildString s =>
    let '(t, d) := createNode {| mk_kind := TextNode; mk_text := s |} (eng_document e) in
    Returned () (eng_with_document (λ _, appendChild el t d) e)
  | ChildElement n =>
    if is_element n (eng_document e) then
      match Node_appendChild el n (eng_document e) with
      | Returned _ d => Returned () (eng_with_document (λ _, d) e)
      | Thrown msg _ => Thrown msg e
      end
    else Returned () e
  | ChildOther => Returned () e
  end
with Engine_body (b : Body) (e : Engine) {struct b} : Outcome Engine unit :=
  match b with
  | Done => Returned () e
  | Then c rest =>
    match Engine_call c e with
    | Returned _ e => Engine_body rest e
    | Thrown msg e => Thrown msg e
    end
  | Try block rest =>
    match Engine_body block e with
    | Returned _ e => Engine_body rest e
    | Thrown _ e => Engine_body rest e
    end
  end.

(** [SimplestEngine.div(props, ...children)] *)
Definition Engine_div (children : Children) (e : Engine) : Outcome Engine (option nat) :=
  Engine_call (CallDiv children) e.

(** [this.queue.forEach(fn => fn())] *)
Fixpoint Engine_run_queue (queue : list Call) (e : Engine) : Outcome Engine unit :=
  match queue with
  | [] => Returned () e
  | c :: rest =>
    match Engine_call c e with
    | Returned _ e => Engine_run_queue rest e
    | Thrown msg e => Thrown msg e
    end
  end.

(** [_flushQueue()] *)
Definition Engine_flushQueue (e : Engine) : Outcome Engine unit :=
  match Engine_run_queue (eng_queue e) e with
  | Returned _ e =>
    Returned () {| eng_contextStack := eng_contextStack e; eng_ready := eng_ready e;
                   eng_queue := []; eng_document := eng_document e |}
  | Thrown msg e => Thrown msg e
  end.

(** The [DOMContentLoaded] handler: [this.ready = true; this._flushQueue()] *)
Definition Engine_loaded (e : Engine) : Outcome Engine unit :=
  Engine_flushQueue {| eng_contextStack := eng_contextStack e; eng_ready := true;
                       eng_queue := eng_queue e; eng_document := eng_document e |}.

Combined Scheme Call_mutind from Call_mut, Children_mut, Child_mut, Body_mut.

(** What a piece of application code may do to the engine's stack: only
    grow it. *)
Definition stack_kept {A} (e : Engine) (o : Outcome Engine A) : Prop :=
  eng_ready (final o) = eng_ready e ∧
  eng_contextStack e `prefix_of` eng_contextStack (final o).

(** No exception is raised while the code runs, caught or not. *)
Fixpoint quiet_call (c : Call) (e : Engine) {struct c} : bool :=
  match c with
  | CallElement _ _ => true
  | CallDiv children =>
    if eng_ready e then
      let '(el, d) :=
        createNode {| mk_kind := ElementNode "div"; mk_text := "" |} (eng_document e) in
      let e := eng_with_document (λ _, appendChild (currentContext e) el d) e in
      quiet_children el children (eng_with_stack (λ st, st ++ [el]) e)
    else true
  | CallThrow _ => false
  end
with quiet_children (el : nat) (cs : Children) (e : Engine) {struct cs} : bool :=
  match cs with
  | NoChildren => true
  | AndChild child rest =>
    quiet_child el child e && quiet_children el rest (final (Engine_child el child e))
  end
with quiet_child (el : nat) (child : Child) (e : Engine) {struct child} : bool :=
  match child with
  | ChildFunction body => quiet_body body e
  | ChildElement n => returns (Engine_child el (ChildElement n) e)
  | _ => true
  end
with quiet_body (b : Body) (e : Engine) {struct b} : bool :=
  match b with
  | Done => true
  | Then c rest => quiet_call c e && quiet_body rest (final (Engine_call c e))
  | Try block rest => quiet_body block e && quiet_body rest (final (Engine_body block e))
  end.

(** [div({}, () => { try { div({}, () => { throw new Error("boom") }) }
    catch (e) { } })] *)
Definition catching_child : Children :=
  AndChild (ChildFunction
              (Try (Then (CallDiv (AndChild (ChildFunction (Then (CallThrow "boom") Done))
                                     NoChildren)) Done)
                   Done))
           NoChildren.

(** The reading of the stack discipline under which the pop happens on every
    path: whatever the children do, the depth after [div] is the depth
    before. *)
Definition div_always_restores_depth : Prop :=
  ∀ (children : Children) (e : Engine),
    length (eng_contextStack (final (Engine_div children e))) = length (eng_contextStack e).

(** [div({}, () => { throw new Error("boom") })] *)
Definition throwing_child : Children :=
  AndChild (ChildFunction (Then (CallThrow "boom") Done)) NoChildren.

(** ** Reading the trace *)

(** The calls [l(arg)] for [l] in [ls], in order. *)
Definition calls (src : Source) (arg : Value) (seen : Snapshot) (ls : list Listener)
    : list Event :=
  (λ l, EvCall src l arg seen) <$> ls.

(** The computed cells whose [recompute()] was entered, in order. *)
Definition recomputes (evs : list Event) : list nat :=
  omap (λ e, match e with EvRecompute c => Some c | EvCall _ _ _ _ => None end) evs.

(** The arguments with which [src] called [l], in order. *)
Definition args_of (src : Source) (l : Listener) (evs : list Event) : list Value :=
  omap (λ e, match e with
             | EvCall src' l' arg _ =>
               if decide (src' = src ∧ l' = l) then Some arg else None
             | EvRecompute _ => None
             end) evs.

(** The event belongs to the recomputation of [c]. *)
Definition from_computed (c : nat) (e : Event) : Prop :=
  match e with
  | EvRecompute c' => c' = c
  | EvCall src _ _ _ => src = OfComputed c
  end.

Definition from_computeds (cs : list nat) (e : Event) : Prop :=
  ∃ c, c ∈ cs ∧ from_computed c e.

(** What one [recompute()] of [c] adds to the trace. *)
Definition recompute_events (c : nat) (w : Store) : list Event :=
  match computeds w !! c with
  | None => []
  | Some cs =>
    let newValue := cs_computeFn cs (snapshot w) in
    EvRecompute c ::
    if strict_neq newValue (cs_value cs)
    then calls (OfComputed c) newValue
               (snapshot (with_computeds (alter (cs_set_value newValue) c) w))
               (cs_listeners cs)
    else []
  end.

(** The events added to the trace between [w] and a later [w']. *)
Definition new_events (w w' : Store) : list Event :=
  drop (length (trace w)) (trace w').

(** The sets of the store are sets, and the computed cells a cell has
    registered exist. *)
Record store_wf (w : Store) : Prop := {
  wf_listeners :
    ∀ s st, states w !! s = Some st → NoDup (st_listeners st);
  wf_computedStates :
    ∀ s st, states w !! s = Some st → NoDup (st_computedStates st);
  wf_registered :
    ∀ s st c, states w !! s = Some st → c ∈ st_computedStates st → c < length (computeds w);
  wf_cs_listeners :
    ∀ c cs, computeds w !! c = Some cs → NoDup (cs_listeners cs)
}.

(** [c] is the computed cell that [s.map(fn)] made: it computes with the
    closure of [map] and [s] has it registered. *)
Definition mapped_from (s : nat) (fn : Value → Value) (c : nat) (w : Store) : Prop :=
  (∃ cs, computeds w !! c = Some cs ∧ cs_computeFn cs = map_closure s fn) ∧
  (∃ st, states w !! s = Some st ∧ c ∈ st_computedStates st).

(** Mutations of value cells. *)
Inductive Mutation :=
| MSet (s : nat) (v : Value)
| MPush (s : nat) (item : Value).

Definition mutate (w : Store) (m : Mutation) : Store :=
  match m with
  | MSet s v => State_set_value s v w
  | MPush s item => final (State_push s item w)
  end.

(** What [computedStates.forEach(computed => computed.recompute())] adds to
    the trace. *)
Fixpoint recompute_all_events (cs : list nat) (w : Store) : list Event :=
  match cs with
  | [] => []
  | c :: cs' => recompute_events c w ++ recompute_all_events cs' (ComputedState_recompute c w)
  end.

(** [this.listeners] of a computed cell. *)
Definition ComputedState_listeners (c : nat) (w : Store) : list Listener :=
  default [] (cs_listeners <$> computeds w !! c).

(** [this.listeners] of a value cell. *)
Definition State_listeners (s : nat) (w : Store) : list Listener :=
  default [] (st_listeners <$> states w !! s).

(** [x => x * 2] *)
Definition double (v : Value) : Value :=
  match v with VNum z => VNum (2 * z) | _ => VUndefined end.

(** A small program: [c = state(5)], [d = c.map(x => x * 2)], two listeners
    on [c], one on [d]. *)
Definition demo_cell : Store := (State_new (VNum 5) empty_store).2.
Definition demo_mapped : Store := (State_map 0 double demo_cell).2.
Definition demo_store : Store :=
  ComputedState_subscribe 0 (UserFn 3)
    (State_subscribe 0 (UserFn 2) (State_subscribe 0 (UserFn 1) demo_mapped)).

(** Some value cell has [c] in its [computedStates]. *)
Definition registered (c : nat) (w : Store) : Prop :=
  ∃ s st, states w !! s = Some st ∧ c ∈ st_computedStates st.

(** The reading of the type-mismatch condition under which both collection
    operations raise: on a cell that does not hold an array, [push] and
    [filter] both throw and leave the store as it was. *)
Definition push_and_filter_throw_on_non_arrays : Prop :=
  ∀ (w : Store) (s : nat) (item : Value) (predicate : Value → bool),
    Array_isArray (State_value s w) = false →
    (returns (State_push s item w) = false ∧ final (State_push s item w) = w) ∧
    (returns (State_filter s predicate w) = false ∧ final (State_filter s predicate w) = w).

(** A cell that holds an array: [todos = state(["a"])] with a listener and a
    computed cell reading the length of the array. *)
Definition array_length (a : nat) : Snapshot → Value :=
  λ seen, VNum (Z.of_nat (length (default [] (snap_arrays seen !! a)))).

Definition todo_store : Store :=
  let w := (Array_new [VStr "a"] empty_store).2 in
  let w := (State_new (VArr 0) w).2 in
  let w := State_subscribe 0 (UserFn 1) w in
  (ComputedState_new (array_length 0) [0] w).2.

(** [x + 1] of the computed cell [d], read by another computed cell. *)
Definition plus_one_of (d : nat) : Snapshot → Value :=
  λ seen, match default VUndefined (snap_computeds seen !! d) with
          | VNum z => VNum (z + 1)
          | _ => VUndefined
          end.

(** The small program with [e = new ComputedState(() => d.value + 1, [])]
    added: [e] reads the computed cell [d] and no value cell. *)
Definition chain_store : Store := (ComputedState_new (plus_one_of 0) [] demo_store).2.

(** ** Reading the document under a conditional binding *)

(** The binding sits in the body between the nodes [before] and the nodes
    [after]: its placeholder is a child of the body, and the node it has
    mounted, if any, is the one child right before the placeholder. *)
Definition mounted_at (before after : list nat)
    (st : list Node * ConditionalElement) : Prop :=
  let ph := ce_placeholder st.2 in
  parentNode ph st.1 = Some body ∧
  childNodes body st.1 = before ++ option_list (ce_currentElement st.2) ++ ph :: after ∧
  NoDup (childNodes body st.1) ∧
  (∀ n, n ∈ childNodes body st.1 → n < length st.1) ∧
  (∀ el, ce_currentElement st.2 = Some el → parentNode el st.1 = Some body).

(** The states a conditional binding goes through, each with what the cells
    held when the condition was last evaluated: it is constructed into a
    document; it is notified; and, in between, other code may change the
    document in any way that leaves the placeholder and the mounted node where
    they are. *)
Inductive ConditionalElement_reaches (conditionFn : Snapshot → bool)
    (elementFn : Snapshot → Markup) (dependencies : list nat)
    : list Node * ConditionalElement → Snapshot → Prop :=
| ce_constructed d first :
    body_ok d →
    ConditionalElement_reaches conditionFn elementFn dependencies
      (ConditionalElement_update first
         (ConditionalElement_init conditionFn elementFn dependencies d)) first
| ce_notified st last seen :
    ConditionalElement_reaches conditionFn elementFn dependencies st last →
    ConditionalElement_reaches conditionFn elementFn dependencies
      (ConditionalElement_update seen st) seen
| ce_undisturbed st last d' before after :
    ConditionalElement_reaches conditionFn elementFn dependencies st last →
    mounted_at before after (d', st.2) →
    ConditionalElement_reaches conditionFn elementFn dependencies (d', st.2) last.

(** The binding after the given notifications, each with what the cells held
    when it arrived. *)
Definition ConditionalElement_run (notifications : list Snapshot)
    (st : list Node * ConditionalElement) : list Node * ConditionalElement :=
  foldl (λ st seen, ConditionalElement_update seen st) st notifications.

(** How a list binding takes a call recorded in the trace: the [RenderFn]
    closure of this binding runs [render], every other call is not for it. *)
Definition IteratedElements_deliver (st : list Node * IteratedElements) (e : Event)
    : Outcome (list Node * IteratedElements) unit :=
  match e with
  | EvCall _ (RenderFn c) _ seen =>
    if decide (c = ie_container st.2) then IteratedElements_render seen st
    else Returned () st
  | _ => Returned () st
  end.

(** ** Small programs for the bindings *)

(** [c => c > 5] *)
Definition greater_than_5 (v : Value) : bool :=
  match v with VNum z => bool_decide (5 < z)%Z | _ => false end.

(** [() => p(text)] *)
Definition paragraph (text : string) : Snapshot → Markup :=
  λ _, {| mk_kind := ElementNode "p"; mk_text := text |}.

(** [(item) => textNode(item)] *)
Definition item_text (item : Value) (index : nat) : Markup :=
  {| mk_kind := TextNode; mk_text := match item with VStr s => s | _ => "" end |}.

(** [c = state(0)] *)
Definition counter_store : Store := (State_new (VNum 0) empty_store).2.

(** [c.when(c => c > 5, () => p("big"))] on an empty page. *)
Definition counter_binding : ConditionalElement * Store * list Node :=
  State_when 0 (λ _, greater_than_5) (paragraph "big") counter_store empty_document.

(** A plain array [["1", "2", "3"]] in the heap. *)
Definition static_store : Store := (Array_new [VStr "1"; VStr "2"; VStr "3"] empty_store).2.

(** ** More about cells *)

(** The computed cells registered with a value cell. *)
Definition State_computedStates (s : nat) (w : Store) : list nat :=
  default [] (st_computedStates <$> states w !! s).


(** [a = ["a"]; x = state(a); y = state(a)], a listener on [y]. *)
Definition alias_store : Store :=
  let w := (Array_new [VStr "a"] empty_store).2 in
  let w := (State_new (VArr 0) w).2 in
  let w := (State_new (VArr 0) w).2 in
  State_subscribe 1 (UserFn 1) w.

(** [this._value] of a cell of either class. *)
Definition Source_value (src : Source) (w : Store) : Value :=
  match src with
  | OfState s => State_value s w
  | OfComputed c => ComputedState_value c w
  end.

(** ** Passes in which a function throws

    [notify()] and [recompute()] call application functions in a bare
    [forEach]: no call is guarded by a [try].  What a function does when it is
    called is given from outside, for each call and for what the store holds
    at that moment. *)

(** The calls that a pass makes. *)
Inductive Callee :=
| CalleeListener (src : Source) (l : Listener) (arg : Value)   (* [listener(arg)] by [src] *)
| CalleeCompute (c : nat).                                    (* [this.computeFn()] of [c] *)

(** [Passive]: the function returns, and has written to no cell, to no array
    of the heap and to no set of listeners.  [Raises msg]: it throws.
    [Meddles]: it writes to a cell, to an array or to a set of listeners,
    directly or through [set], [push], [subscribe] or an unsubscribe function;
    the pass is then entered again from inside, and [forEach] goes on over
    the set as the function has left it.  The embedding does not follow
    that: a pass in which a function meddles has no result here. *)
Inductive Behaviour :=
| Passive
| Raises (msg : string)
| Meddles.

Section Behaviours.

Variable behaviour : Callee → Store → Behaviour.

(** [this.listeners.forEach(listener => listener(this._value))]: the value
    is read for each call, the call is recorded, and an exception leaves the
    loop at once. *)
Fixpoint notify_listeners (src : Source) (ls : list Listener) (w : Store)
    : option (Outcome Store unit) :=
  match ls with
  | [] => Some (Returned () w)
  | listener :: rest =>
    let arg := Source_value src w in
    match behaviour (CalleeListener src listener arg) w with
    | Passive => notify_listeners src rest (call src listener arg w)
    | Raises msg => Some (Thrown msg (call src listener arg w))
    | Meddles => None
    end
  end.

(** [recompute()] *)
Definition ComputedState_recompute_under (c : nat) (w : Store)
    : option (Outcome Store unit) :=
  match computeds w !! c with
  | None => Some (Returned () w)
  | Some cs =>
    let w := emit (EvRecompute c) w in
    match behaviour (CalleeCompute c) w with
    | Passive =>
      let newValue := cs_computeFn cs (snapshot w) in
      if strict_neq newValue (cs_value cs) then
        notify_listeners (OfComputed c) (cs_listeners cs)
                         (with_computeds (alter (cs_set_value newValue) c) w)
      else Some (Returned () w)
    | Raises msg => Some (Thrown msg w)
    | Meddles => None
    end
  end.

(** [this.computedStates.forEach(computed => computed.recompute())] *)
Fixpoint recompute_each (cs : list nat) (w : Store) : option (Outcome Store unit) :=
  match cs with
  | [] => Some (Returned () w)
  | computed :: rest =>
    match ComputedState_recompute_under computed w with
    | Some (Returned _ w) => recompute_each rest w
    | o => o
    end
  end.

(** [notify()] *)
Definition State_notify_under (s : nat) (w : Store) : option (Outcome Store unit) :=
  match states w !! s with
  | None => Some (Returned () w)
  | Some st =>
    match notify_listeners (OfState s) (st_listeners st) w with
    | Some (Returned _ w) => recompute_each (st_computedStates st) w
    | o => o
    end
  end.

(** [set value(newValue)] *)
Definition State_set_value_under (s : nat) (newValue : Value) (w : Store)
    : option (Outcome Store unit) :=
  if strict_neq newValue (State_value s w) then
    State_notify_under s (with_states (alter (st_set_value newValue) s) w)
  else Some (Returned () w).

(** [push(item)] *)
Definition State_push_under (s : nat) (item : Value) (w : Store)
    : option (Outcome Store unit) :=
  match State_value s w with
  | VArr a => State_notify_under s (with_arrays (alter (λ items, items ++ [item]) a) w)
  | _ => Some (Returned () w)
  end.

(** The calls that a notify pass of the value cell [s] makes when the store
    is [w]: to the listeners of [s], to the compute functions of the computed
    cells registered with [s], and to the listeners of these. *)
Definition called_by (s : nat) (w : Store) (f : Callee) : Prop :=
  match f with
  | CalleeListener (OfState s') l _ => s' = s ∧ l ∈ State_listeners s w
  | CalleeListener (OfComputed c) l _ =>
    c ∈ State_computedStates s w ∧ l ∈ ComputedState_listeners c w
  | CalleeCompute c => c ∈ State_computedStates s w
  end.

(** Every function that a pass of [s] calls returns and leaves the cells
    alone. *)
Definition passive_pass (s : nat) (w : Store) : Prop :=
  ∀ f w', called_by s w f → behaviour f w' = Passive.

End Behaviours.

(** The readings of the notify pass under which it always runs to its end:
    whatever the functions called do, an assignment of a new value, or a
    [push], has called every listener of the cell once and has entered
    [recompute()] on every registered computed cell when it is over. *)
Definition set_always_completes_pass : Prop :=
  ∀ behaviour (w : Store) (s : nat) (st : State) (v : Value) o,
    store_wf w → states w !! s = Some st → strict_neq v (st_value st) = true →
    State_set_value_under behaviour s v w = Some o →
    (∀ l, l ∈ st_listeners st → args_of (OfState s) l (new_events w (final o)) = [v]) ∧
    recomputes (new_events w (final o)) = st_computedStates st.

Definition push_always_completes_pass : Prop :=
  ∀ behaviour (w : Store) (s : nat) (st : State) (a : nat) (item : Value) o,
    store_wf w → states w !! s = Some st → st_value st = VArr a →
    State_push_under behaviour s item w = Some o →
    (∀ l, l ∈ st_listeners st → args_of (OfState s) l (new_events w (final o)) = [VArr a]) ∧
    recomputes (new_events w (final o)) = st_computedStates st.

(** A function that throws whenever it is called, among functions that
    return: the listener [UserFn 1]. *)
Definition first_listener_throws : Callee → Store → Behaviour :=
  λ f _, match f with
         | CalleeListener _ (UserFn 1) _ => Raises "boom"
         | _ => Passive
         end.

(** Every function returns and leaves the cells alone. *)
Definition all_passive : Callee → Store → Behaviour := λ _ _, Passive.

(** ** [reactiveText] ([state.ts]) *)




Section ReactiveText.

(** The builtin [String(value)]; an array is printed from the heap. *)
Variable JS_String : list (list Value) → Value → string.

(** The function object of the closure
    [value => { textNode.textContent = String(value) }]: each call of
    [reactiveText] creates a new one. *)
Variable textFn : Listener.



End ReactiveText.









(** ** Bindings and cells together *)





(** [list => list.length > 1] *)
Definition longer_than_1 : Snapshot → Value → bool :=
  λ seen v, match v with
            | VArr a => bool_decide (1 < length (default [] (snap_arrays seen !! a)))
            | _ => false
            end.






(** ** More about [SimplestEngine] *)

Definition eng_with_queue (f : list Call → list Call) (e : Engine) : Engine :=
  {| eng_contextStack := eng_contextStack e; eng_ready := eng_ready e;
     eng_queue := f (eng_queue e); eng_document := eng_document e |}.

Definition eng_with_ready (ready : bool) (e : Engine) : Engine :=
  {| eng_contextStack := eng_contextStack e; eng_ready := ready;
     eng_queue := eng_queue e; eng_document := eng_document e |}.

(** The same outcome in another final state. *)
Definition on_final {S A} (f : S → S) (o : Outcome S A) : Outcome S A :=
  match o with
  | Returned a s => Returned a (f s)
  | Thrown msg s => Thrown msg (f s)
  end.

(** A call of the library, as the statements of a page are. *)
Definition is_factory_call (c : Call) : Prop :=
  match c with
  | CallThrow _ => False
  | _ => True
  end.

(** *** The tree that a program builds

    For programs made of element factory calls and [div] calls whose
    arguments are strings and functions: no call throws, no existing node is
    passed as an argument, and there is no [try] statement. *)
Fixpoint plain_call (c : Call) : Prop :=
  match c with
  | CallElement _ _ => True
  | CallDiv children => plain_children children
  | CallThrow _ => False
  end
with plain_children (cs : Children) : Prop :=
  match cs with
  | NoChildren => True
  | AndChild child rest => plain_child child ∧ plain_children rest
  end
with plain_child (child : Child) : Prop :=
  match child with
  | ChildString _ => True
  | ChildElement _ => False
  | ChildFunction body => plain_body body
  | ChildOther => True
  end
with plain_body (b : Body) : Prop :=
  match b with
  | Done => True
  | Then c rest => plain_call c ∧ plain_body rest
  | Try _ _ => False
  end.

(** The number of nodes that a program creates. *)
Fixpoint size_call (c : Call) : nat :=
  match c with
  | CallElement _ _ => 1
  | CallDiv children => S (size_children children)
  | CallThrow _ => 0
  end
with size_children (cs : Children) : nat :=
  match cs with
  | NoChildren => 0
  | AndChild child rest => size_child child + size_children rest
  end
with size_child (child : Child) : nat :=
  match child with
  | ChildString _ => 1
  | ChildElement _ => 0
  | ChildFunction body => size_body body
  | ChildOther => 0
  end
with size_body (b : Body) : nat :=
  match b with
  | Done => 0
  | Then c rest => size_call c + size_body rest
  | Try block rest => size_body block + size_body rest
  end.

(** The nodes that the statements of a function body append to the current
    context, when the first node created is [n]: one for each statement. *)
Fixpoint roots_body (b : Body) (n : nat) : list nat :=
  match b with
  | Done => []
  | Then c rest => n :: roots_body rest (n + size_call c)
  | Try block rest => roots_body block n ++ roots_body rest (n + size_body block)
  end.

(** The nodes that the arguments of a [div] give it as children. *)
Definition roots_child (child : Child) (n : nat) : list nat :=
  match child with
  | ChildString _ => [n]
  | ChildFunction body => roots_body body n
  | _ => []
  end.

Fixpoint roots_children (cs : Children) (n : nat) : list nat :=
  match cs with
  | NoChildren => []
  | AndChild child rest => roots_child child n ++ roots_children rest (n + size_child child)
  end.

(** The subtree that a program has built under [parent], when the first
    node it created is [n]. *)
Fixpoint tree_call (c : Call) (n parent : nat) (d : list Node) : Prop :=
  match c with
  | CallElement tag text =>
    node_markup n d = Some {| mk_kind := ElementNode tag; mk_text := text |} ∧
    parentNode n d = Some parent ∧
    childNodes n d = []
  | CallDiv children =>
    node_markup n d = Some {| mk_kind := ElementNode "div"; mk_text := "" |} ∧
    parentNode n d = Some parent ∧
    childNodes n d = roots_children children (S n) ∧
    tree_children children (S n) n d
  | CallThrow _ => True
  end
with tree_children (cs : Children) (n parent : nat) (d : list Node) : Prop :=
  match cs with
  | NoChildren => True
  | AndChild child rest =>
    tree_child child n parent d ∧ tree_children rest (n + size_child child) parent d
  end
with tree_child (child : Child) (n parent : nat) (d : list Node) : Prop :=
  match child with
  | ChildString s =>
    node_markup n d = Some {| mk_kind := TextNode; mk_text := s |} ∧
    parentNode n d = Some parent ∧
    childNodes n d = []
  | ChildFunction body => tree_body body n parent d
  | _ => True
  end
with tree_body (b : Body) (n parent : nat) (d : list Node) : Prop :=
  match b with
  | Done => True
  | Then c rest => tree_call c n parent d ∧ tree_body rest (n + size_call c) parent d
  | Try block rest =>
    tree_body block n parent d ∧ tree_body rest (n + size_body block) parent d
  end.

(** The nodes from [lo] up to [hi] are the same in both documents. *)
Definition same_nodes (lo hi : nat) (d d' : list Node) : Prop :=
  ∀ m, lo ≤ m < hi →
    childNodes m d' = childNodes m d ∧ parentNode m d' = parentNode m d ∧
    node_markup m d' = node_markup m d.

(** The engine's stack holds nodes of its document. *)
Definition engine_ok (e : Engine) : Prop :=
  0 < length (eng_document e) ∧
  Forall (λ n, n < length (eng_document e)) (eng_contextStack e).

(** What a program that returns has done to an engine [e]: it has created
    [size] nodes, appended [roots] to the node [ctx], and left the stack and
    every other node of before as they were. *)
Definition built (e : Engine) (ctx size : nat) (roots : list nat) (e' : Engine) : Prop :=
  let d := eng_document e in
  let d' := eng_document e' in
  eng_contextStack e' = eng_contextStack e ∧
  eng_ready e' = eng_ready e ∧
  length d' = length d + size ∧
  childNodes ctx d' = childNodes ctx d ++ roots ∧
  (∀ m, m < length d → m ≠ ctx → childNodes m d' = childNodes m d) ∧
  (∀ m, m < length d → parentNode m d' = parentNode m d ∧ node_markup m d' = node_markup m d).

(** [div({}, () => { h1("Title"); div({}, "text") }, "end")] *)
Definition page_program : Call :=
  CallDiv (AndChild (ChildFunction (Then (CallElement "h1" "Title")
                                     (Then (CallDiv (AndChild (ChildString "text") NoChildren))
                                        Done)))
             (AndChild (ChildString "end") NoChildren)).

(** What a call has done to the stack and the document of [e]: the
    document has not shrunk, and the stack is the stack of before with nodes
    on top that the call has created. *)
Definition strands {A} (e : Engine) (o : Outcome Engine A) : Prop :=
  length (eng_document e) ≤ length (eng_document (final o)) ∧
  ∃ pushed, eng_contextStack (final o) = eng_contextStack e ++ pushed ∧
            Forall (λ n, length (eng_document e) ≤ n < length (eng_document (final o)))
                   pushed.

(** ** Pages written with [simplest.ts] *)

(** [h1(text, props)], [h2(text, props)] and [p(text, props)]: a new element
    with the given text, appended to the current context. *)
Definition element_factory (tag text : string) (pg : Page) : Outcome Page nat :=
  let '(element, d) :=
    createNode {| mk_kind := ElementNode tag; mk_text := text |} (document pg) in
  let pg := with_document (λ _, d) pg in
  match getCurrentContext pg with
  | Some ctx => Returned element (with_document (appendChild ctx element) pg)
  | None => Thrown "Cannot read properties of undefined (reading 'appendChild')" pg
  end.

Definition h1 : string → Page → Outcome Page nat := element_factory "h1".
Definition h2 : string → Page → Outcome Page nat := element_factory "h2".
Definition p : string → Page → Outcome Page nat := element_factory "p".

(** An expression of a page: a call of [h1], [h2] or [p], or a call of
    [div] whose arguments are strings and such expressions. *)
Inductive Expr :=
| ExprElement (tag text : string)
| ExprDiv (args : Args)
with Args :=
| NoArgs
| AndString (s : string) (rest : Args)
| AndExpr (e : Expr) (rest : Args).

Scheme Expr_mut := Induction for Expr Sort Prop
  with Args_mut := Induction for Args Sort Prop.

Combined Scheme Expr_mutind from Expr_mut, Args_mut.

(** Evaluation: the arguments of a call from left to right, then the
    call. *)
Fixpoint eval (e : Expr) (pg : Page) {struct e} : Outcome Page nat :=
  match e with
  | ExprElement tag text => element_factory tag text pg
  | ExprDiv args =>
    match eval_args args pg with
    | Returned children pg => div children pg
    | Thrown msg pg => Thrown msg pg
    end
  end
with eval_args (args : Args) (pg : Page) {struct args} : Outcome Page (list DivChild) :=
  match args with
  | NoArgs => Returned [] pg
  | AndString s rest =>
    match eval_args rest pg with
    | Returned children pg => Returned (DivString s :: children) pg
    | Thrown msg pg => Thrown msg pg
    end
  | AndExpr e rest =>
    match eval e pg with
    | Returned element pg =>
      match eval_args rest pg with
      | Returned children pg => Returned (DivElement element :: children) pg
      | Thrown msg pg => Thrown msg pg
      end
    | Thrown msg pg => Thrown msg pg
    end
  end.

(** The number of strings among the arguments. *)
Fixpoint strings_args (args : Args) : nat :=
  match args with
  | NoArgs => 0
  | AndString _ rest => S (strings_args rest)
  | AndExpr _ rest => strings_args rest
  end.

(** The number of nodes that evaluating an expression creates, and that
    evaluating the arguments of a call creates before the call is entered. *)
Fixpoint nodes_expr (e : Expr) : nat :=
  match e with
  | ExprElement _ _ => 1
  | ExprDiv args => nodes_args args + S (strings_args args)
  end
with nodes_args (args : Args) : nat :=
  match args with
  | NoArgs => 0
  | AndString _ rest => nodes_args rest
  | AndExpr e rest => nodes_expr e + nodes_args rest
  end.

(** The node that an expression evaluates to, when the first node created
    is [n]: [div] creates its element after its arguments are evaluated. *)
Definition root_expr (e : Expr) (n : nat) : nat :=
  match e with
  | ExprElement _ _ => n
  | ExprDiv args => n + nodes_args args
  end.

(** The values of the arguments. *)
Fixpoint values_args (args : Args) (n : nat) : list DivChild :=
  match args with
  | NoArgs => []
  | AndString s rest => DivString s :: values_args rest n
  | AndExpr e rest => DivElement (root_expr e n) :: values_args rest (n + nodes_expr e)
  end.

(** The elements among the children of a [div] call. *)
Definition child_elements (children : list DivChild) : list nat :=
  omap (λ child, match child with DivElement c => Some c | DivString _ => None end) children.

(** The number of strings among them. *)
Fixpoint child_strings (children : list DivChild) : nat :=
  match children with
  | [] => 0
  | DivString _ :: rest => S (child_strings rest)
  | DivElement _ :: rest => child_strings rest
  end.

(** The nodes that [div] gives its element as children, when the first
    text node it creates is [t]. *)
Fixpoint child_nodes (children : list DivChild) (t : nat) : list nat :=
  match children with
  | [] => []
  | DivString _ :: rest => t :: child_nodes rest (S t)
  | DivElement c :: rest => c :: child_nodes rest t
  end.

(** The children are in place under [parent]: each string is a text node,
    each element has [parent] as its parent. *)
Fixpoint children_placed (children : list DivChild) (t parent : nat) (d : list Node) : Prop :=
  match children with
  | [] => True
  | DivString s :: rest =>
    (node_markup t d = Some {| mk_kind := TextNode; mk_text := s |} ∧
     parentNode t d = Some parent ∧ childNodes t d = []) ∧
    children_placed rest (S t) parent d
  | DivElement c :: rest =>
    parentNode c d = Some parent ∧ children_placed rest t parent d
  end.

(** The subtree that an expression has built under [parent], when the
    first node it created is [n] and, for arguments, the first text node is
    [t]. *)
Fixpoint tree_expr (e : Expr) (n parent : nat) (d : list Node) : Prop :=
  match e with
  | ExprElement tag text =>
    node_markup n d = Some {| mk_kind := ElementNode tag; mk_text := text |} ∧
    parentNode n d = Some parent ∧
    childNodes n d = []
  | ExprDiv args =>
    let el := n + nodes_args args in
    node_markup el d = Some {| mk_kind := ElementNode "div"; mk_text := "" |} ∧
    parentNode el d = Some parent ∧
    childNodes el d = child_nodes (values_args args n) (S el) ∧
    tree_args args n (S el) el d
  end
with tree_args (args : Args) (n t parent : nat) (d : list Node) : Prop :=
  match args with
  | NoArgs => True
  | AndString s rest =>
    (node_markup t d = Some {| mk_kind := TextNode; mk_text := s |} ∧
     parentNode t d = Some parent ∧ childNodes t d = []) ∧
    tree_args rest n (S t) parent d
  | AndExpr e rest =>
    tree_expr e n parent d ∧ tree_args rest (n + nodes_expr e) t parent d
  end.

(** The subtrees of the arguments that are expressions, as they are under
    [parent] before the call is entered. *)
Fixpoint trees_args (args : Args) (n parent : nat) (d : list Node) : Prop :=
  match args with
  | NoArgs => True
  | AndString _ rest => trees_args rest n parent d
  | AndExpr e rest => tree_expr e n parent d ∧ trees_args rest (n + nodes_expr e) parent d
  end.

(** Between two calls the stack holds the body only. *)
Definition page_ok (pg : Page) : Prop :=
  contextStack pg = [body] ∧ body_ok (document pg).

(** What evaluation has done to a document [d]: it has created [size]
    nodes, appended [roots] to the body, and left every other node of before
    as it was. *)
Definition grown (d : list Node) (size : nat) (roots : list nat) (d' : list Node) : Prop :=
  length d' = length d + size ∧
  childNodes body d' = childNodes body d ++ roots ∧
  (∀ m, m < length d → m ≠ body → childNodes m d' = childNodes m d) ∧
  (∀ m, m < length d → parentNode m d' = parentNode m d ∧ node_markup m d' = node_markup m d).

(** [div({}, h1("Title"), "text", div({}, p("inner")))] *)
Definition page_expr : Expr :=
  ExprDiv (AndExpr (ExprElement "h1" "Title")
            (AndString "text"
              (AndExpr (ExprDiv (AndExpr (ExprElement "p" "inner") NoArgs)) NoArgs))).

(** ** [simplest.js]: the current container and the queue of elements *)

Record Legacy := {
  lg_isReady : bool;                  (* isReady *)
  lg_elementQueue : list nat;         (* elementQueue: the closures [addToDOM], each given
                                         by its element *)
  lg_currentContainer : option nat;   (* currentContainer; [None] is [null] *)
  lg_document : list Node
}.

(** The module, loaded while the page is still loading or once it has
    loaded ([waitForReady]). *)
Definition Legacy_new (ready : bool) : Legacy :=
  {| lg_isReady := ready; lg_elementQueue := []; lg_currentContainer := None;
     lg_document := empty_document |}.

Definition lg_with_document (f : list Node → list Node) (lg : Legacy) : Legacy :=
  {| lg_isReady := lg_isReady lg; lg_elementQueue := lg_elementQueue lg;
     lg_currentContainer := lg_currentContainer lg; lg_document := f (lg_document lg) |}.

Definition lg_with_container (c : option nat) (lg : Legacy) : Legacy :=
  {| lg_isReady := lg_isReady lg; lg_elementQueue := lg_elementQueue lg;
     lg_currentContainer := c; lg_document := lg_document lg |}.

(** [getCurrentContainer()] *)
Definition getCurrentContainer (lg : Legacy) : nat :=
  default body (lg_currentContainer lg).

(** [const addToDOM = () => getCurrentContainer().appendChild(element)] *)
Definition addToDOM (element : nat) (lg : Legacy) : Outcome Legacy unit :=
  match Node_appendChild (getCurrentContainer lg) element (lg_document lg) with
  | Returned _ d => Returned () (lg_with_document (λ _, d) lg)
  | Thrown msg _ => Thrown msg lg
  end.

(** [if (isReady) { addToDOM() } else { elementQueue.push(addToDOM) }] *)
Definition add_when_ready (element : nat) (lg : Legacy) : Outcome Legacy unit :=
  if lg_isReady lg then addToDOM element lg
  else Returned () {| lg_isReady := lg_isReady lg;
                      lg_elementQueue := lg_elementQueue lg ++ [element];
                      lg_currentContainer := lg_currentContainer lg;
                      lg_document := lg_document lg |}.

(** [return a] after a statement. *)
Definition and_return {S A B} (a : A) (o : Outcome S B) : Outcome S A :=
  match o with
  | Returned _ s => Returned a s
  | Thrown msg s => Thrown msg s
  end.

(** [h1], [h2], [h3], [p] and [div] of [simplest.js], on the programs that
    the engine of [simplest-v2.js] takes.  [div] runs its children inside
    [withContainer(element, ...)], which sets the current container and puts
    the previous one back when the children have returned, and then adds its
    element.  A child that is a node ([child && child.nodeType]) is appended
    to the element. *)
Fixpoint Legacy_call (c : Call) (lg : Legacy) {struct c} : Outcome Legacy nat :=
  match c with
  | CallElement tag text =>
    let '(element, d) :=
      createNode {| mk_kind := ElementNode tag; mk_text := text |} (lg_document lg) in
    and_return element (add_when_ready element (lg_with_document (λ _, d) lg))
  | CallDiv children =>
    let '(element, d) :=
      createNode {| mk_kind := ElementNode "div"; mk_text := "" |} (lg_document lg) in
    let lg := lg_with_document (λ _, d) lg in
    match children with
    | NoChildren => and_return element (add_when_ready element lg)
    | AndChild _ _ =>
      let prevContainer := lg_currentContainer lg in
      match Legacy_children element children (lg_with_container (Some element) lg) with
      | Returned _ lg =>
        and_return element (add_when_ready element (lg_with_container prevContainer lg))
      | Thrown msg lg => Thrown msg lg
      end
    end
  | CallThrow msg => Thrown msg lg
  end
with Legacy_children (element : nat) (cs : Children) (lg : Legacy) {struct cs}
    : Outcome Legacy unit :=
  match cs with
  | NoChildren => Returned () lg
  | AndChild child rest =>
    match Legacy_child element child lg with
    | Returned _ lg => Legacy_children element rest lg
    | Thrown msg lg => Thrown msg lg
    end
  end
with Legacy_child (element : nat) (child : Child) (lg : Legacy) {struct child}
    : Outcome Legacy unit :=
  match child with
  | ChildString s =>
    let '(t, d) := createNode {| mk_kind := TextNode; mk_text := s |} (lg_document lg) in
    Returned () (lg_with_document (λ _, appendChild element t d) lg)
  | ChildElement n =>
    if decide (n < length (lg_document lg)) then
      match Node_appendChild element n (lg_document lg) with
      | Returned _ d => Returned () (lg_with_document (λ _, d) lg)
      | Thrown msg _ => Thrown msg lg
      end
    else Returned () lg
  | ChildFunction body => Legacy_body body lg
  | ChildOther => Returned () lg
  end
with Legacy_body (b : Body) (lg : Legacy) {struct b} : Outcome Legacy unit :=
  match b with
  | Done => Returned () lg
  | Then c rest =>
    match Legacy_call c lg with
    | Returned _ lg => Legacy_body rest lg
    | Thrown msg lg => Thrown msg lg
    end
  | Try block rest =>
    match Legacy_body block lg with
    | Returned _ lg => Legacy_body rest lg
    | Thrown _ lg => Legacy_body rest lg
    end
  end.

(** The children of [div(props, ...children)] as [div] runs them: on the
    new element, inside [withContainer(element, ...)]. *)
Definition Legacy_div_children (children : Children) (lg : Legacy) : Outcome Legacy unit :=
  let '(element, d) :=
    createNode {| mk_kind := ElementNode "div"; mk_text := "" |} (lg_document lg) in
  Legacy_children element children
    (lg_with_container (Some element) (lg_with_document (λ _, d) lg)).

(** [elementQueue.forEach(fn => fn())] *)
Fixpoint Legacy_run_queue (queue : list nat) (lg : Legacy) : Outcome Legacy unit :=
  match queue with
  | [] => Returned () lg
  | element :: rest =>
    match addToDOM element lg with
    | Returned _ lg => Legacy_run_queue rest lg
    | Thrown msg lg => Thrown msg lg
    end
  end.

(** The [DOMContentLoaded] handler:
    [isReady = true; elementQueue.forEach(fn => fn()); elementQueue = []],
    given by the state in which it leaves the module.  When a queued closure
    throws, the exception leaves the handler and the queue stays as it is. *)
Definition Legacy_loaded (lg : Legacy) : Legacy :=
  match Legacy_run_queue (lg_elementQueue lg)
          {| lg_isReady := true; lg_elementQueue := lg_elementQueue lg;
             lg_currentContainer := lg_currentContainer lg;
             lg_document := lg_document lg |} with
  | Returned _ lg1 =>
    {| lg_isReady := lg_isReady lg1; lg_elementQueue := [];
       lg_currentContainer := lg_currentContainer lg1; lg_document := lg_document lg1 |}
  | Thrown _ lg1 => lg1
  end.

(** What a program has done to a document [d]: it has created [size]
    nodes, appended [roots] to the node [ctx], and left every other node of
    before as it was. *)
Definition grown_at (ctx : nat) (d : list Node) (size : nat) (roots : list nat)
    (d' : list Node) : Prop :=
  length d' = length d + size ∧
  childNodes ctx d' = childNodes ctx d ++ roots ∧
  (∀ m, m < length d → m ≠ ctx → childNodes m d' = childNodes m d) ∧
  (∀ m, m < length d → parentNode m d' = parentNode m d ∧ node_markup m d' = node_markup m d).

(** The current container is a node of the document. *)
Definition legacy_ok (lg : Legacy) : Prop :=
  0 < length (lg_document lg) ∧ getCurrentContainer lg < length (lg_document lg).

(** A program that returns leaves the flag, the queue and the current
    container as they were. *)
Definition settings_kept (lg lg' : Legacy) : Prop :=
  lg_isReady lg' = lg_isReady lg ∧
  lg_elementQueue lg' = lg_elementQueue lg ∧
  lg_currentContainer lg' = lg_currentContainer lg.

(** *** Before the page is ready *)

(** The elements that a program queues, in the order in which it queues
    them, when the first node created is [n]: a [div] is queued after what its
    function children have queued. *)
Fixpoint queued_call (c : Call) (n : nat) : list nat :=
  match c with
  | CallElement _ _ => [n]
  | CallDiv children => queued_children children (S n) ++ [n]
  | CallThrow _ => []
  end
with queued_children (cs : Children) (n : nat) : list nat :=
  match cs with
  | NoChildren => []
  | AndChild child rest => queued_child child n ++ queued_children rest (n + size_child child)
  end
with queued_child (child : Child) (n : nat) : list nat :=
  match child with
  | ChildFunction body => queued_body body n
  | _ => []
  end
with queued_body (b : Body) (n : nat) : list nat :=
  match b with
  | Done => []
  | Then c rest => queued_call c n ++ queued_body rest (n + size_call c)
  | Try block rest => queued_body block n ++ queued_body rest (n + size_body block)
  end.

(** The text nodes that the string arguments of a [div] give it. *)
Definition texts_child (child : Child) (n : nat) : list nat :=
  match child with
  | ChildString _ => [n]
  | _ => []
  end.

Fixpoint texts_children (cs : Children) (n : nat) : list nat :=
  match cs with
  | NoChildren => []
  | AndChild child rest => texts_child child n ++ texts_children rest (n + size_child child)
  end.

(** The nodes that a program has created while the page was loading: every
    element has the parent [parent] and a [div] has its text nodes as its only
    children. *)
Fixpoint flat_call (c : Call) (n : nat) (parent : option nat) (d : list Node) : Prop :=
  match c with
  | CallElement tag text =>
    node_markup n d = Some {| mk_kind := ElementNode tag; mk_text := text |} ∧
    parentNode n d = parent ∧
    childNodes n d = []
  | CallDiv children =>
    node_markup n d = Some {| mk_kind := ElementNode "div"; mk_text := "" |} ∧
    parentNode n d = parent ∧
    childNodes n d = texts_children children (S n) ∧
    flat_children children (S n) n parent d
  | CallThrow _ => True
  end
with flat_children (cs : Children) (n el : nat) (parent : option nat) (d : list Node) : Prop :=
  match cs with
  | NoChildren => True
  | AndChild child rest =>
    flat_child child n el parent d ∧ flat_children rest (n + size_child child) el parent d
  end
with flat_child (child : Child) (n el : nat) (parent : option nat) (d : list Node) : Prop :=
  match child with
  | ChildString s =>
    node_markup n d = Some {| mk_kind := TextNode; mk_text := s |} ∧
    parentNode n d = Some el ∧
    childNodes n d = []
  | ChildFunction body => flat_body body n parent d
  | _ => True
  end
with flat_body (b : Body) (n : nat) (parent : option nat) (d : list Node) : Prop :=
  match b with
  | Done => True
  | Then c rest => flat_call c n parent d ∧ flat_body rest (n + size_call c) parent d
  | Try block rest =>
    flat_body block n parent d ∧ flat_body rest (n + size_body block) parent d
  end.

(** Elements wait in the queue outside the document, and none of them
    holds the body. *)
Definition waiting (lg : Legacy) : Prop :=
  NoDup (lg_elementQueue lg) ∧
  ∀ el, el ∈ lg_elementQueue lg →
    el < length (lg_document lg) ∧ el ≠ body ∧ parentNode el (lg_document lg) = None ∧
    ¬ holds el body (lg_document lg).

(** What a call has done to the settings of [lg]: the flag is the same
    and the document has not shrunk; the current container is the one of
    before or a node that the call has created. *)
Definition strands_container {A} (lg : Legacy) (o : Outcome Legacy A) : Prop :=
  lg_isReady (final o) = lg_isReady lg ∧
  length (lg_document lg) ≤ length (lg_document (final o)) ∧
  (lg_currentContainer (final o) = lg_currentContainer lg ∨
   ∃ el, lg_currentContainer (final o) = Some el ∧
         length (lg_document lg) ≤ el < length (lg_document (final o))).

(** The children of the nodes from [n] on are nodes from [n] on. *)
Definition above (n : nat) (d : list Node) : Prop :=
  ∀ m x, n ≤ m → x ∈ childNodes m d → n ≤ x < length d.

(** The nodes from [lo] up to [hi] are the same in both documents, but
    that those of [q] have the parent [p] in the second. *)
Definition reparented (lo hi : nat) (q : list nat) (p : nat) (d d' : list Node) : Prop :=
  ∀ m, lo ≤ m < hi →
    childNodes m d' = childNodes m d ∧ node_markup m d' = node_markup m d ∧
    (m ∈ q → parentNode m d' = Some p) ∧
    (m ∉ q → parentNode m d' = parentNode m d).

(* ================================================================== *)
(** * Part II: theorems *)
(* ================================================================== *)

(** ** Facts about the document *)

Section Document.
Implicit Types (d : list Node) (n m p q c : nat).

Lemma length_set_parent n o d : length (set_parent n o d) = length d.
Proof. apply length_alter. Qed.

Lemma length_set_children n cs d : length (set_children n cs d) = length d.
Proof. apply length_alter. Qed.

Lemma parentNode_set_parent m n o d :
  parentNode m (set_parent n o d) =
  if decide (m = n ∧ n < length d) then o else parentNode m d.
Proof.
  unfold parentNode, set_parent. case_decide as H.
  - destruct H as [-> Hn]. rewrite list_lookup_alter_eq.
    apply lookup_lt_is_Some_2 in Hn as [x ->]. done.
  - destruct (decide (m = n)) as [->|Hne].
    + rewrite list_lookup_alter_eq. rewrite lookup_ge_None_2; [done | lia].
    + by rewrite list_lookup_alter_ne.
Qed.

Lemma parentNode_set_children m n cs d :
  parentNode m (set_children n cs d) = parentNode m d.
Proof.
  unfold parentNode, set_children. destruct (decide (n = m)) as [->|Hne].
  - rewrite list_lookup_alter_eq. by destruct (d !! m).
  - by rewrite list_lookup_alter_ne.
Qed.

Lemma childNodes_set_parent m n o d :
  childNodes m (set_parent n o d) = childNodes m d.
Proof.
  unfold childNodes, set_parent. destruct (decide (n = m)) as [->|Hne].
  - rewrite list_lookup_alter_eq. by destruct (d !! m).
  - by rewrite list_lookup_alter_ne.
Qed.

Lemma childNodes_set_children m n cs d :
  childNodes m (set_children n cs d) =
  if decide (m = n ∧ n < length d) then cs else childNodes m d.
Proof.
  unfold childNodes, set_children. case_decide as H.
  - destruct H as [-> Hn]. rewrite list_lookup_alter_eq.
    apply lookup_lt_is_Some_2 in Hn as [x ->]. done.
  - destruct (decide (m = n)) as [->|Hne].
    + rewrite list_lookup_alter_eq. rewrite lookup_ge_None_2; [done | lia].
    + by rewrite list_lookup_alter_ne.
Qed.

Lemma node_markup_set_parent m n o d :
  node_markup m (set_parent n o d) = node_markup m d.
Proof.
  unfold node_markup, set_parent. destruct (decide (n = m)) as [->|Hne].
  - rewrite list_lookup_alter_eq. by destruct (d !! m).
  - by rewrite list_lookup_alter_ne.
Qed.

Lemma node_markup_set_children m n cs d :
  node_markup m (set_children n cs d) = node_markup m d.
Proof.
  unfold node_markup, set_children. destruct (decide (n = m)) as [->|Hne].
  - rewrite list_lookup_alter_eq. by destruct (d !! m).
  - by rewrite list_lookup_alter_ne.
Qed.

Lemma childNodes_out_of_range n d : length d ≤ n → childNodes n d = [].
Proof. intros H. unfold childNodes. by rewrite lookup_ge_None_2. Qed.

Lemma parentNode_out_of_range n d : length d ≤ n → parentNode n d = None.
Proof. intros H. unfold parentNode. by rewrite lookup_ge_None_2. Qed.

(** A new node is detached and childless, and creating it changes nothing
    else. *)
Lemma createNode_fresh mk d : (createNode mk d).1 = length d.
Proof. done. Qed.

Lemma length_createNode mk d : length (createNode mk d).2 = S (length d).
Proof. simpl. rewrite length_app. simpl. lia. Qed.

Lemma parentNode_createNode m mk d :
  parentNode m (createNode mk d).2 = parentNode m d.
Proof.
  unfold parentNode. simpl. destruct (decide (m < length d)) as [Hlt|Hge].
  - by rewrite lookup_app_l.
  - rewrite (lookup_ge_None_2 d) by lia.
    destruct (decide (m = length d)) as [->|Hne].
    + by rewrite list_lookup_middle.
    + rewrite lookup_ge_None_2; [done|]. rewrite length_app. simpl. lia.
Qed.

Lemma childNodes_createNode m mk d :
  childNodes m (createNode mk d).2 = childNodes m d.
Proof.
  unfold childNodes. simpl. destruct (decide (m < length d)) as [Hlt|Hge].
  - by rewrite lookup_app_l.
  - rewrite (lookup_ge_None_2 d) by lia.
    destruct (decide (m = length d)) as [->|Hne].
    + by rewrite list_lookup_middle.
    + rewrite lookup_ge_None_2; [done|]. rewrite length_app. simpl. lia.
Qed.

Lemma node_markup_createNode_new mk d :
  node_markup (length d) (createNode mk d).2 = Some mk.
Proof.
  unfold node_markup. simpl. rewrite list_lookup_middle by done.
  by destruct mk.
Qed.

Lemma node_markup_createNode_old m mk d :
  m < length d → node_markup m (createNode mk d).2 = node_markup m d.
Proof. intros H. unfold node_markup. simpl. by rewrite lookup_app_l. Qed.

(** [n.remove()] *)
Lemma length_Node_remove n d : length (Node_remove n d) = length d.
Proof.
  unfold Node_remove. destruct (parentNode n d); [|done].
  by rewrite length_set_parent, length_set_children.
Qed.

Lemma parentNode_Node_remove m n d :
  parentNode m (Node_remove n d) = if decide (m = n) then None else parentNode m d.
Proof.
  unfold Node_remove. destruct (parentNode n d) as [p|] eqn:Hp.
  - rewrite parentNode_set_parent, length_set_children, parentNode_set_children.
    repeat case_decide; try done; try (intuition (congruence || lia)).
    subst m. assert (length d ≤ n) as Hge by lia.
    apply parentNode_out_of_range in Hge. congruence.
  - case_decide; [by subst | done].
Qed.

Lemma childNodes_Node_remove q n d :
  childNodes q (Node_remove n d) =
  if decide (parentNode n d = Some q) then filter (λ x, x ≠ n) (childNodes q d)
  else childNodes q d.
Proof.
  unfold Node_remove. destruct (parentNode n d) as [p|] eqn:Hp.
  - rewrite childNodes_set_parent, childNodes_set_children.
    repeat case_decide; try done; try (intuition (congruence || lia)).
    assert (q = p) as -> by congruence.
    assert (length d ≤ p) as Hge by (destruct (decide (p < length d)); [naive_solver | lia]).
    by rewrite (childNodes_out_of_range p d Hge).
  - by case_decide.
Qed.

Lemma node_markup_Node_remove m n d :
  node_markup m (Node_remove n d) = node_markup m d.
Proof.
  unfold Node_remove. destruct (parentNode n d); [|done].
  by rewrite node_markup_set_parent, node_markup_set_children.
Qed.

(** [p.appendChild(c)] *)
Lemma length_appendChild p c d : length (appendChild p c d) = length d.
Proof.
  unfold appendChild.
  by rewrite length_set_parent, length_set_children, length_Node_remove.
Qed.

Lemma parentNode_appendChild m p c d :
  c < length d →
  parentNode m (appendChild p c d) = if decide (m = c) then Some p else parentNode m d.
Proof.
  intros Hc. unfold appendChild.
  rewrite parentNode_set_parent, length_set_children, length_Node_remove,
    parentNode_set_children, parentNode_Node_remove.
  repeat case_decide; try done; intuition (congruence || lia).
Qed.

Lemma childNodes_appendChild_detached q p c d :
  parentNode c d = None → p < length d →
  childNodes q (appendChild p c d) =
  if decide (q = p) then childNodes p d ++ [c] else childNodes q d.
Proof.
  intros Hc Hp. unfold appendChild, Node_remove. rewrite Hc.
  rewrite childNodes_set_parent, childNodes_set_children.
  repeat case_decide; try done; intuition (congruence || lia).
Qed.

Lemma node_markup_appendChild m p c d :
  node_markup m (appendChild p c d) = node_markup m d.
Proof.
  unfold appendChild.
  by rewrite node_markup_set_parent, node_markup_set_children, node_markup_Node_remove.
Qed.

(** [insert_before] on a list that holds the reference once. *)
Lemma insert_before_middle c ref l1 l2 :
  ref ∉ l1 → insert_before c ref (l1 ++ ref :: l2) = l1 ++ c :: ref :: l2.
Proof.
  induction l1 as [|x l1 IH]; intros Hnot; simpl.
  - by rewrite decide_True.
  - rewrite decide_False by (intros ->; apply Hnot; left).
    f_equal. apply IH. intros Hin. apply Hnot. by right.
Qed.

Lemma length_insertBefore p c ref d : length (insertBefore p c ref d) = length d.
Proof.
  unfold insertBefore. case_decide; [|done].
  by rewrite length_set_parent, length_set_children, length_Node_remove.
Qed.

Lemma node_markup_insertBefore m p c ref d :
  node_markup m (insertBefore p c ref d) = node_markup m d.
Proof.
  unfold insertBefore. case_decide; [|done].
  by rewrite node_markup_set_parent, node_markup_set_children, node_markup_Node_remove.
Qed.

Lemma parentNode_insertBefore m p c ref d :
  ref ∈ childNodes p d → c < length d →
  parentNode m (insertBefore p c ref d) = if decide (m = c) then Some p else parentNode m d.
Proof.
  intros Href Hc. unfold insertBefore. rewrite decide_True by done.
  rewrite parentNode_set_parent, length_set_children, length_Node_remove,
    parentNode_set_children, parentNode_Node_remove.
  repeat case_decide; try done; intuition (congruence || lia).
Qed.

Lemma childNodes_insertBefore_detached q p c ref d :
  ref ∈ childNodes p d → parentNode c d = None →
  childNodes q (insertBefore p c ref d) =
  if decide (q = p) then insert_before c ref (childNodes p d) else childNodes q d.
Proof.
  intros Href Hc. unfold insertBefore. rewrite decide_True by done.
  unfold Node_remove. rewrite Hc.
  rewrite childNodes_set_parent, childNodes_set_children.
  assert (p < length d) as Hp.
  { destruct (decide (p < length d)); [done|].
    rewrite childNodes_out_of_range in Href by lia. by apply elem_of_nil in Href. }
  repeat case_decide; try done; intuition (congruence || lia).
Qed.

(** *** [contains] and the [appendChild] that checks it *)

Lemma descends_self fuel a d : descends fuel a a d = true.
Proof. destruct fuel; simpl; by rewrite bool_decide_eq_true_2. Qed.

Lemma descends_leaf fuel a b d :
  childNodes a d = [] → b ≠ a → descends fuel a b d = false.
Proof.
  intros Hleaf Hne. destruct fuel; simpl; rewrite bool_decide_eq_false_2 by done; [done|].
  by rewrite Hleaf.
Qed.

Lemma descends_above k fuel a b d :
  above k d → k ≤ a → b < k → descends fuel a b d = false.
Proof.
  intros Habove. revert a. induction fuel as [|fuel IH]; intros a Ha Hb; simpl;
    rewrite bool_decide_eq_false_2 by lia; [done|]. simpl.
  apply not_true_is_false. intros Hex. apply existsb_exists in Hex as (x & Hx & Hd).
  apply list_elem_of_In in Hx. rewrite IH in Hd; [done| |done].
  by apply (Habove a x).
Qed.

(** A node that is no child of a node from [k] on is not below any of them. *)
Lemma descends_orphan k fuel a b d :
  above k d → (∀ m, k ≤ m → b ∉ childNodes m d) → k ≤ a → b ≠ a →
  descends fuel a b d = false.
Proof.
  intros Habove Horphan. revert a. induction fuel as [|fuel IH]; intros a Ha Hne; simpl;
    rewrite bool_decide_eq_false_2 by done; [done|]. simpl.
  apply not_true_is_false. intros Hex. apply existsb_exists in Hex as (x & Hx & Hd).
  apply list_elem_of_In in Hx. rewrite IH in Hd; [done| |].
  - by apply (Habove a x).
  - intros ->. by apply (Horphan a).
Qed.

Lemma Node_contains_above k a b d :
  above k d → k ≤ a → b < k → Node_contains a b d = false.
Proof. apply descends_above. Qed.

Lemma not_holds_contains a b d : ¬ holds a b d → Node_contains a b d = false.
Proof. intros H. apply not_true_is_false. intros Hc. apply H. by eexists. Qed.

Lemma above_length d : above (length d) d.
Proof.
  intros m x Hm. rewrite childNodes_out_of_range by done.
  intros Hx. by apply not_elem_of_nil in Hx.
Qed.

Lemma above_createNode k mk d : above k d → above k (createNode mk d).2.
Proof.
  intros H m x Hm. rewrite childNodes_createNode, length_createNode.
  intros Hx. apply (H m x Hm) in Hx. lia.
Qed.

Lemma childNodes_Node_remove_elem m c d x :
  x ∈ childNodes m (Node_remove c d) → x ∈ childNodes m d.
Proof.
  rewrite childNodes_Node_remove. case_decide; [|done].
  intros Hx. by apply list_elem_of_filter in Hx as [_ Hx].
Qed.

Lemma childNodes_appendChild_elem m p c d x :
  x ∈ childNodes m (appendChild p c d) → x ∈ childNodes m d ∨ (m = p ∧ x = c).
Proof.
  unfold appendChild. rewrite childNodes_set_parent, childNodes_set_children.
  case_decide as H.
  - destruct H as [-> _]. intros Hx. apply elem_of_app in Hx as [Hx|Hx].
    + left. by eapply childNodes_Node_remove_elem.
    + apply list_elem_of_singleton in Hx. by right.
  - intros Hx. left. by eapply childNodes_Node_remove_elem.
Qed.

Lemma above_appendChild k p c d :
  above k d → (k ≤ p → k ≤ c < length d) → above k (appendChild p c d).
Proof.
  intros H Hc m x Hm Hx. rewrite length_appendChild.
  apply childNodes_appendChild_elem in Hx as [Hx|[-> ->]].
  - by apply (H m).
  - by apply Hc.
Qed.

Lemma above_Node_appendChild k p c d :
  above k d → (k ≤ p → k ≤ c) → above k (final (Node_appendChild p c d)).
Proof.
  intros H Hc. unfold Node_appendChild. case_decide; [|done].
  destruct (Node_contains c p d); [done|]. simpl. apply above_appendChild; [done|].
  intros Hp. split; [by apply Hc|done].
Qed.

(** What was built from [n] on stays what it is while more is built after
    it. *)
Lemma above_then n d1 d2 :
  above n d1 → above (length d1) d2 → n ≤ length d1 ≤ length d2 →
  (∀ m, n ≤ m < length d1 → childNodes m d2 = childNodes m d1) →
  above n d2.
Proof.
  intros H1 H2 Hlen Hsame m x Hm Hx.
  destruct (decide (m < length d1)) as [Hlt|Hge].
  - rewrite Hsame in Hx by lia. apply (H1 m x Hm) in Hx. lia.
  - apply (H2 m x) in Hx; lia.
Qed.

(** A chain that leads to [b] in a document leads to [b] in any document
    that has the same children below [k], when nothing from [k] on holds
    [b]. *)
Lemma descends_unchanged k b d d' :
  (∀ m, m < k → m ≠ b → childNodes m d' = childNodes m d) → above k d' → b < k →
  ∀ fuel a, descends fuel a b d' = true → descends fuel a b d = true.
Proof.
  intros Hsame Habove Hb. induction fuel as [|fuel IH]; intros a; simpl.
  - by rewrite orb_false_r.
  - destruct (decide (b = a)) as [->|Hne]; [by rewrite bool_decide_eq_true_2|].
    rewrite bool_decide_eq_false_2 by done. simpl.
    intros Hex. apply existsb_exists in Hex as (x & Hx & Hd).
    destruct (decide (a < k)) as [Hlt|Hge].
    + rewrite Hsame in Hx by done. apply existsb_exists. exists x. split; [done|].
      by apply IH.
    + apply list_elem_of_In in Hx. pose proof (Habove a x ltac:(lia) Hx) as Hxk.
      rewrite (descends_above k) in Hd; [done|done|lia|done].
Qed.

Lemma Node_appendChild_ok p c d :
  c < length d → Node_contains c p d = false →
  Node_appendChild p c d = Returned () (appendChild p c d).
Proof. intros Hc Hn. unfold Node_appendChild. by rewrite decide_True, Hn. Qed.

(** A node that has just been created holds nothing. *)
Lemma Node_appendChild_new p mk d :
  p < length d →
  Node_appendChild p (length d) (createNode mk d).2
  = Returned () (appendChild p (length d) (createNode mk d).2).
Proof.
  intros Hp. apply Node_appendChild_ok; [rewrite length_createNode; lia|].
  apply descends_leaf; [|lia].
  rewrite childNodes_createNode. by apply childNodes_out_of_range.
Qed.

Lemma final_Node_appendChild p c d :
  length (final (Node_appendChild p c d)) = length d.
Proof.
  unfold Node_appendChild. repeat case_match; simpl; try done. apply length_appendChild.
Qed.

End Document.

(** ** The context stack *)

Section ContextStack.

Lemma Array_pop_app {A} (l : list A) (x : A) : Array_pop (l ++ [x]) = l.
Proof.
  unfold Array_pop. rewrite length_app. simpl.
  replace (length l + 1 - 1) with (length l) by lia.
  by rewrite take_app_length.
Qed.

Lemma stack_step_bottom pg op :
  contextStack pg !! 0 = Some body →
  contextStack (stack_step pg op) !! 0 = Some body.
Proof.
  intros Hb. destruct op as [el|]; simpl.
  - by apply lookup_app_l_Some.
  - unfold popContext. case_decide as Hlen; [|done]. simpl.
    unfold Array_pop. rewrite lookup_take_lt; [done | lia].
Qed.

Lemma run_stack_bottom ops pg :
  contextStack pg !! 0 = Some body →
  contextStack (run_stack ops pg) !! 0 = Some body.
Proof.
  revert pg. induction ops as [|op ops IH]; intros pg Hb; [done|].
  simpl. apply IH. by apply stack_step_bottom.
Qed.

Lemma getCurrentContext_nonempty pg :
  contextStack pg ≠ [] → is_Some (getCurrentContext pg).
Proof.
  intros Hne. unfold getCurrentContext. apply lookup_lt_is_Some_2.
  destruct (contextStack pg); [done | simpl; lia].
Qed.

(** C10.  Whatever sequence of [pushContext] and [popContext] calls is run
    from the initial page, extra pops included, the context stack is never
    empty, its bottom entry is [document.body], [getCurrentContext()] returns
    an element, and [popContext] changes nothing while only the root entry
    remains. *)
Theorem contextStack_never_underflows (ops : list StackOp) :
  let pg := run_stack ops initial_page in
  contextStack pg ≠ [] ∧
  contextStack pg !! 0 = Some body ∧
  is_Some (getCurrentContext pg) ∧
  (length (contextStack pg) = 1 → popContext pg = pg).
Proof.
  intros pg.
  assert (contextStack pg !! 0 = Some body) as Hb by (by apply run_stack_bottom).
  assert (contextStack pg ≠ []) as Hne by (intros Heq; by rewrite Heq in Hb).
  repeat split; [done | done | by apply getCurrentContext_nonempty |].
  intros Hlen. unfold popContext. rewrite decide_False; [done | lia].
Qed.

(** C10, witness: two pops too many on the initial page. *)
Lemma contextStack_never_underflows_witness :
  popContext (run_stack [OpPop; OpPop] initial_page) = run_stack [OpPop; OpPop] initial_page.
Proof.
  apply (proj2 (proj2 (proj2 (contextStack_never_underflows [OpPop; OpPop])))).
  reflexivity.
Defined.

End ContextStack.

(** ** Composition *)

Section Composition.

Lemma Array_pop_prefix (st l : list nat) el :
  st ++ [el] `prefix_of` l → st `prefix_of` Array_pop l.
Proof.
  intros [k ->]. exists (take (length k) (el :: k)). unfold Array_pop.
  rewrite <- app_assoc. simpl. rewrite length_app. simpl.
  replace (length st + S (length k) - 1) with (length st + length k) by lia.
  by rewrite take_app_add.
Qed.

Lemma stack_kept_then {A B} (e : Engine) (o1 : Outcome Engine A) (o2 : Outcome Engine B) :
  stack_kept e o1 → stack_kept (final o1) o2 → stack_kept e o2.
Proof. intros [R1 S1] [R2 S2]. split; [congruence|by etrans]. Qed.

Lemma stack_kept_same {A} (e e' : Engine) (o : Outcome Engine A) :
  final o = e' → eng_ready e' = eng_ready e → eng_contextStack e' = eng_contextStack e →
  stack_kept e o.
Proof. intros H R S. unfold stack_kept. rewrite H. split; [done|by rewrite S]. Qed.

Lemma Engine_stack_kept :
  (∀ c e, stack_kept e (Engine_call c e)) ∧
  (∀ cs el e, stack_kept e (Engine_children el cs e)) ∧
  (∀ ch el e, stack_kept e (Engine_child el ch e)) ∧
  (∀ b e, stack_kept e (Engine_body b e)).
Proof.
  apply Call_mutind.
  - (* an element factory *)
    intros tag text e. simpl. destruct (eng_ready e) eqn:Hr; by eapply stack_kept_same.
  - (* div *)
    intros children IH e. simpl.
    destruct (eng_ready e) eqn:Hr; [|by eapply stack_kept_same].
    match goal with |- context [Engine_children ?el children ?e1] =>
      specialize (IH el e1); destruct (Engine_children el children e1) as [[] e2|msg e2]
    end; destruct IH as [IHr IHs]; simpl in *.
    + split; simpl; [congruence|]. by eapply Array_pop_prefix.
    + split; simpl; [congruence|]. etrans; [|exact IHs]. by apply prefix_app_r.
  - (* throw *)
    intros msg e. by eapply stack_kept_same.
  - intros el e. by eapply stack_kept_same.
  - (* children.forEach *)
    intros child IHc rest IHr el e. simpl.
    specialize (IHc el e). destruct (Engine_child el child e) as [[] e1|msg e1]; [|done].
    eapply stack_kept_then; [exact IHc|apply IHr].
  - intros s el e. by eapply stack_kept_same.
  - (* a node *)
    intros n el e. simpl. destruct (is_element n (eng_document e)); [|by eapply stack_kept_same].
    destruct (Node_appendChild el n (eng_document e)); by eapply stack_kept_same.
  - intros body IH el e. simpl. apply IH.
  - intros el e. by eapply stack_kept_same.
  - intros e. by eapply stack_kept_same.
  - (* a function body, statement by statement *)
    intros c IHc rest IHr e. simpl.
    specialize (IHc e). destruct (Engine_call c e) as [r e1|msg e1]; [|done].
    eapply stack_kept_then; [exact IHc|apply IHr].
  - (* try *)
    intros block IHb rest IHr e. simpl.
    specialize (IHb e). destruct (Engine_body block e) as [[] e1|msg e1];
      (eapply stack_kept_then; [exact IHb|apply IHr]).
Qed.

(** Code that raises no exception returns and leaves the stack as it was. *)
Lemma Engine_quiet :
  (∀ c e, quiet_call c e = true →
     returns (Engine_call c e) = true ∧
     eng_contextStack (final (Engine_call c e)) = eng_contextStack e) ∧
  (∀ cs el e, quiet_children el cs e = true →
     returns (Engine_children el cs e) = true ∧
     eng_contextStack (final (Engine_children el cs e)) = eng_contextStack e) ∧
  (∀ ch el e, quiet_child el ch e = true →
     returns (Engine_child el ch e) = true ∧
     eng_contextStack (final (Engine_child el ch e)) = eng_contextStack e) ∧
  (∀ b e, quiet_body b e = true →
     returns (Engine_body b e) = true ∧
     eng_contextStack (final (Engine_body b e)) = eng_contextStack e).
Proof.
  apply Call_mutind.
  - intros tag text e _. simpl. by destruct (eng_ready e).
  - intros children IH e Hq. simpl in *. destruct (eng_ready e); [|done].
    match goal with |- context [Engine_children ?el children ?e1] =>
      destruct (IH el e1 Hq) as [Hr Hs];
      destruct (Engine_children el children e1) as [[] e2|msg e2]
    end; simpl in *; [|done].
    split; [done|]. rewrite Hs. apply Array_pop_app.
  - intros msg e Hq. done.
  - intros el e _. done.
  - intros child IHc rest IHr el e Hq. simpl in *. apply andb_true_iff in Hq as [Hq1 Hq2].
    destruct (IHc el e Hq1) as [Hr Hs].
    destruct (Engine_child el child e) as [[] e1|msg e1]; simpl in *; [|done].
    destruct (IHr el e1 Hq2) as [Hr2 Hs2]. split; [done|congruence].
  - intros s el e _. done.
  - intros n el e Hq. simpl in *. split; [done|].
    destruct (is_element n (eng_document e)); [|done].
    by destruct (Node_appendChild el n (eng_document e)).
  - intros body IH el e Hq. simpl in *. by apply IH.
  - intros el e _. done.
  - intros e _. done.
  - intros c IHc rest IHr e Hq. simpl in *. apply andb_true_iff in Hq as [Hq1 Hq2].
    destruct (IHc e Hq1) as [Hr Hs].
    destruct (Engine_call c e) as [r e1|msg e1]; simpl in *; [|done].
    destruct (IHr e1 Hq2) as [Hr2 Hs2]. split; [done|congruence].
  - intros block IHb rest IHr e Hq. simpl in *. apply andb_true_iff in Hq as [Hq1 Hq2].
    destruct (IHb e Hq1) as [Hr Hs].
    destruct (Engine_body block e) as [[] e1|msg e1]; simpl in *; [|done].
    destruct (IHr e1 Hq2) as [Hr2 Hs2]. split; [done|congruence].
Qed.

(** Programs without [throw], without [try] and without nodes among the
    arguments raise no exception. *)
Lemma plain_quiet :
  (∀ c e, plain_call c → quiet_call c e = true) ∧
  (∀ cs el e, plain_children cs → quiet_children el cs e = true) ∧
  (∀ ch el e, plain_child ch → quiet_child el ch e = true) ∧
  (∀ b e, plain_body b → quiet_body b e = true).
Proof.
  apply Call_mutind.
  - done.
  - intros children IH e Hp. simpl. destruct (eng_ready e); [|done]. by apply IH.
  - intros msg e [].
  - done.
  - intros child IHc rest IHr el e [H1 H2]. simpl. by rewrite IHc, IHr.
  - done.
  - intros n el e [].
  - intros body IH el e Hp. simpl. by apply IH.
  - done.
  - done.
  - intros c IHc rest IHr e [H1 H2]. simpl. by rewrite IHc, IHr.
  - intros block _ rest _ e [].
Qed.

Lemma Engine_div_quiet children e :
  quiet_call (CallDiv children) e = true →
  ∃ r e', Engine_div children e = Returned r e' ∧
          eng_contextStack e' = eng_contextStack e.
Proof.
  intros Hq. destruct (proj1 Engine_quiet (CallDiv children) e Hq) as [Hr Hs].
  unfold Engine_div. destruct (Engine_call (CallDiv children) e) as [r e'|msg e']; [|done].
  by exists r, e'.
Qed.

Lemma Engine_div_thrown children e msg e' :
  Engine_div children e = Thrown msg e' →
  length (eng_contextStack e) < length (eng_contextStack e').
Proof.
  unfold Engine_div. simpl. destruct (eng_ready e); [|done].
  match goal with |- context [Engine_children ?el children ?e1] =>
    pose proof (proj1 (proj2 Engine_stack_kept) children el e1) as [_ H];
    destruct (Engine_children el children e1) as [[] e2|msg2 e2]
  end; simpl in *; [done|].
  intros [= -> ->]. apply prefix_length in H. rewrite length_app in H. simpl in H. lia.
Qed.

(** Calls deferred while the page was loading run when it has loaded, under
    the same discipline. *)
Lemma Engine_run_queue_stack queue e :
  eng_contextStack e `prefix_of` eng_contextStack (final (Engine_run_queue queue e)).
Proof.
  revert e. induction queue as [|c queue IH]; intros e; simpl; [done|].
  pose proof (proj1 Engine_stack_kept c e) as [_ Hc].
  destruct (Engine_call c e) as [r e1|msg e1]; [|done].
  simpl in Hc. etrans; [exact Hc|apply IH].
Qed.

Lemma Engine_loaded_stack e :
  eng_contextStack e `prefix_of` eng_contextStack (final (Engine_loaded e)) ∧
  (returns (Engine_loaded e) = true → eng_queue (final (Engine_loaded e)) = []).
Proof.
  unfold Engine_loaded, Engine_flushQueue. simpl.
  match goal with |- context [Engine_run_queue ?q ?e1] =>
    pose proof (Engine_run_queue_stack q e1) as H;
    destruct (Engine_run_queue q e1) as [[] e2|msg e2]
  end; simpl in *; done.
Qed.

(** A [div] with a throwing child that was deferred throws when the page has
    loaded, and leaves its element on the stack then. *)
Example deferred_div_throws :
  let e := final (Engine_div throwing_child (Engine_new false)) in
  eng_contextStack e = [] ∧ eng_queue e = [CallDiv throwing_child] ∧
  returns (Engine_loaded e) = false ∧
  eng_contextStack (final (Engine_loaded e)) = [1].
Proof. by vm_compute. Qed.

(** A function child that catches the exception of an inner [div] returns,
    and so does the outer [div]; its pop takes the inner element, which the
    inner [div] has left, off the stack, and its own element stays. *)
Example caught_throw_keeps_element :
  let o := Engine_div catching_child (Engine_new true) in
  quiet_call (CallDiv catching_child) (Engine_new true) = false ∧
  returns o = true ∧ eng_contextStack (final o) = [1].
Proof. by vm_compute. Qed.

(** [div({}, document.body)] on the engine: the body holds the new element,
    [appendChild] throws and the element stays on the stack. *)
Example Engine_div_of_body_throws :
  let o := Engine_div (AndChild (ChildElement body) NoChildren) (Engine_new true) in
  returns o = false ∧ eng_contextStack (final o) = [1].
Proof. by vm_compute. Qed.

(** [div({}, document.body)] of [simplest.ts]: the body goes under the new
    element, the element is popped, and the last statement throws because
    the element holds the body. *)
Example div_of_body_throws :
  div [DivElement body] initial_page
  = Thrown HierarchyRequestError
      {| contextStack := [body];
         document := appendChild 1 body
                       (createNode {| mk_kind := ElementNode "div"; mk_text := "" |}
                          empty_document).2 |}.
Proof. by vm_compute. Qed.

Lemma div_child_contextStack element child pg :
  contextStack (final (div_child element child pg)) = contextStack pg.
Proof.
  destruct child as [s|c]; simpl; [done|].
  by destruct (Node_appendChild element c (document pg)).
Qed.

Lemma div_children_contextStack element children pg :
  contextStack (final (div_children element children pg)) = contextStack pg.
Proof.
  revert pg. induction children as [|child children IH]; intros pg; [done|].
  simpl. pose proof (div_child_contextStack element child pg) as H.
  destruct (div_child element child pg) as [[] pg1|msg pg1]; simpl in *; [|done].
  by rewrite IH.
Qed.

Lemma div_append_contextStack element pg :
  contextStack (final (div_append element pg)) = contextStack pg.
Proof.
  unfold div_append. destruct (getCurrentContext pg) as [ctx|]; [|done].
  by destruct (Node_appendChild ctx element (document pg)).
Qed.

Lemma div_contextStack children pg :
  contextStack pg ≠ [] →
  match div_loop children pg with
  | Returned _ _ => contextStack (final (div children pg)) = contextStack pg
  | Thrown msg pg2 =>
    div children pg = Thrown msg pg2 ∧
    contextStack pg2 = contextStack pg ++ [length (document pg)]
  end.
Proof.
  intros Hne. unfold div_loop, div. cbn [createNode].
  set (element := length (document pg)).
  set (pg1 := with_document _ pg).
  destruct children as [|child children].
  - rewrite decide_False by (simpl; lia). cbn [div_children].
    by rewrite div_append_contextStack.
  - rewrite decide_True by (simpl; lia).
    pose proof (div_children_contextStack element (child :: children)
                  (pushContext element pg1)) as Hst.
    destruct (div_children element (child :: children) (pushContext element pg1))
      as [[] pg2|msg pg2]; simpl in Hst; [|done].
    rewrite div_append_contextStack. unfold popContext. rewrite Hst. rewrite decide_True.
    + simpl. by rewrite Array_pop_app.
    + rewrite length_app. simpl. destruct (contextStack pg); [done | simpl; lia].
Qed.

Lemma currentContext_top st el ready queue d :
  currentContext {| eng_contextStack := st ++ [el]; eng_ready := ready;
                    eng_queue := queue; eng_document := d |} = el.
Proof.
  unfold currentContext. simpl. rewrite length_app. simpl.
  replace (length st + 1 - 1) with (length st) by lia.
  by rewrite list_lookup_middle.
Qed.

(** C3, as the code has it.  Both [SimplestEngine.div] and [div] of
    [simplest.ts] push the new element before the children are evaluated, so
    that an element made by a function child is appended to it, and pop it
    after the last child, with nothing that catches in between.  When no
    exception is raised while the children are evaluated, the stack after
    the call is the stack of before.  When the evaluation of a child throws,
    the exception leaves [div] before the pop: the stack is deeper than
    before, and for [div] of [simplest.ts] it is the stack of before with the
    new element on top. *)
Theorem div_pops_when_children_return :
  (∀ children e, quiet_call (CallDiv children) e = true →
     ∃ r e', Engine_div children e = Returned r e' ∧
             eng_contextStack e' = eng_contextStack e) ∧
  (∀ tag text e, eng_ready e = true →
     ∃ el e', Engine_div (AndChild (ChildFunction (Then (CallElement tag text) Done))
                                   NoChildren) e = Returned (Some el) e' ∧
              parentNode (S el) (eng_document e') = Some el ∧
              node_markup (S el) (eng_document e')
                = Some {| mk_kind := ElementNode tag; mk_text := text |}) ∧
  (∀ children e msg e', Engine_div children e = Thrown msg e' →
     length (eng_contextStack e) < length (eng_contextStack e')) ∧
  (∀ children pg, contextStack pg ≠ [] →
     match div_loop children pg with
     | Returned _ _ => contextStack (final (div children pg)) = contextStack pg
     | Thrown msg pg' =>
       div children pg = Thrown msg pg' ∧
       contextStack pg' = contextStack pg ++ [length (document pg)]
     end).
Proof.
  split; [exact Engine_div_quiet|]. split; [|split; [exact Engine_div_thrown|]].
  - intros tag text e Hready. destruct e as [st ready queue d]. simpl in Hready.
    subst ready. unfold Engine_div. simpl.
    eexists _, _. split; [reflexivity|]. simpl.
    unfold eng_with_stack, eng_with_document. simpl.
    rewrite currentContext_top.
    set (d1 := appendChild _ (length d) (d ++ [_])).
    assert (length d1 = S (length d)) as Hlen.
    { unfold d1. rewrite length_appendChild, length_app. simpl. lia. }
    rewrite Hlen. split.
    + rewrite parentNode_appendChild.
      * by rewrite decide_True.
      * rewrite length_app. simpl. lia.
    + rewrite node_markup_appendChild, <- Hlen.
      apply (node_markup_createNode_new {| mk_kind := ElementNode tag; mk_text := text |}).
  - exact div_contextStack.
Qed.

(** C3, witness: a [div] with a function child that makes a paragraph, on a
    ready engine with an empty stack, and a [div] with a string on the
    initial page. *)
Lemma div_pops_when_children_return_witness :
  (∃ r e', Engine_div (AndChild (ChildFunction (Then (CallElement "p" "hi") Done))
                                NoChildren) (Engine_new true) = Returned r e' ∧
           eng_contextStack e' = []) ∧
  (∃ el e', Engine_div (AndChild (ChildFunction (Then (CallElement "p" "hi") Done))
                                 NoChildren) (Engine_new true) = Returned (Some el) e' ∧
            parentNode (S el) (eng_document e') = Some el ∧
            node_markup (S el) (eng_document e')
              = Some {| mk_kind := ElementNode "p"; mk_text := "hi" |}) ∧
  0 < length (eng_contextStack (final (Engine_div throwing_child (Engine_new true)))) ∧
  contextStack (final (div [DivString "hi"] initial_page)) = [body].
Proof.
  split; [|split; [|split]].
  - apply (proj1 div_pops_when_children_return
             (AndChild (ChildFunction (Then (CallElement "p" "hi") Done)) NoChildren)
             (Engine_new true)). reflexivity.
  - apply (proj1 (proj2 div_pops_when_children_return) "p" "hi" (Engine_new true)).
    reflexivity.
  - apply (proj1 (proj2 (proj2 div_pops_when_children_return))
             throwing_child (Engine_new true) "boom"
             (final (Engine_div throwing_child (Engine_new true)))). reflexivity.
  - apply (proj2 (proj2 (proj2 div_pops_when_children_return))
             [DivString "hi"] initial_page). discriminate.
Defined.

(** C3, as stated, fails: [div({}, () => { throw new Error("boom") })] on a
    ready engine with an empty stack leaves the stack one deeper. *)
Lemma div_throw_skips_pop : ¬ div_always_restores_depth.
Proof.
  intros H. specialize (H throwing_child (Engine_new true)).
  vm_compute in H. discriminate H.
Qed.

End Composition.

(** ** Cells *)

Section Cells.
Implicit Types (w : Store) (s c : nat) (l : Listener) (v : Value).

(** *** [Set] *)

Lemma Set_add_elem {A} `{EqDecision A} (x y : A) (ls : list A) :
  y ∈ Set_add x ls ↔ y = x ∨ y ∈ ls.
Proof.
  unfold Set_add. case_decide as Hin.
  - split; [by right | intros [->|]; done].
  - rewrite elem_of_app, list_elem_of_singleton. tauto.
Qed.

Lemma Set_add_NoDup {A} `{EqDecision A} (x : A) (ls : list A) :
  NoDup ls → NoDup (Set_add x ls).
Proof.
  intros Hnd. unfold Set_add. case_decide as Hin; [done|].
  apply NoDup_app. split_and!; [done | | apply NoDup_singleton].
  intros y Hy Hy'. apply list_elem_of_singleton in Hy'. by subst.
Qed.

Lemma Set_add_idemp {A} `{EqDecision A} (x : A) (ls : list A) :
  Set_add x (Set_add x ls) = Set_add x ls.
Proof.
  unfold Set_add at 1. rewrite decide_True; [done|].
  apply Set_add_elem. by left.
Qed.

Lemma Set_delete_elem {A} `{EqDecision A} (x y : A) (ls : list A) :
  y ∈ Set_delete x ls ↔ y ≠ x ∧ y ∈ ls.
Proof. unfold Set_delete. by rewrite list_elem_of_filter. Qed.

Lemma Set_delete_NoDup {A} `{EqDecision A} (x : A) (ls : list A) :
  NoDup ls → NoDup (Set_delete x ls).
Proof. apply NoDup_filter. Qed.

Lemma Set_delete_absent {A} `{EqDecision A} (x : A) (ls : list A) :
  x ∉ ls → Set_delete x ls = ls.
Proof.
  intros Hnot. unfold Set_delete. induction ls as [|y ls IH]; [done|].
  rewrite filter_cons_True.
  - f_equal. apply IH. intros Hin. apply Hnot. by right.
  - intros ->. apply Hnot. by left.
Qed.

Lemma Set_delete_idemp {A} `{EqDecision A} (x : A) (ls : list A) :
  Set_delete x (Set_delete x ls) = Set_delete x ls.
Proof.
  apply Set_delete_absent. rewrite Set_delete_elem. by intros [? _].
Qed.

Lemma alter_id_at {A} (f : A → A) (i : nat) (xs : list A) :
  (∀ x, xs !! i = Some x → f x = x) → alter f i xs = xs.
Proof.
  intros Hf. apply list_eq. intros j. destruct (decide (i = j)) as [->|Hne].
  - rewrite list_lookup_alter_eq. destruct (xs !! j) as [x|] eqn:Hx; [|done].
    simpl. by rewrite Hf.
  - by rewrite list_lookup_alter_ne.
Qed.

(** *** Calls and the trace *)

Lemma snapshot_emit e w : snapshot (emit e w) = snapshot w.
Proof. done. Qed.

Lemma foldl_call src (get : Store → Value) ls w :
  (∀ e w, get (emit e w) = get w) →
  foldl (λ w l, call src l (get w) w) w ls =
  {| arrays := arrays w; states := states w; computeds := computeds w;
     trace := trace w ++ calls src (get w) (snapshot w) ls |}.
Proof.
  intros Hget. revert w. induction ls as [|l ls IH]; intros w; simpl.
  - rewrite app_nil_r. by destruct w.
  - rewrite IH. unfold call. rewrite Hget. simpl. by rewrite <- app_assoc.
Qed.

Lemma args_of_app src l evs1 evs2 :
  args_of src l (evs1 ++ evs2) = args_of src l evs1 ++ args_of src l evs2.
Proof. unfold args_of. apply omap_app. Qed.

Lemma recomputes_app evs1 evs2 :
  recomputes (evs1 ++ evs2) = recomputes evs1 ++ recomputes evs2.
Proof. unfold recomputes. apply omap_app. Qed.

Lemma recomputes_calls src v seen ls : recomputes (calls src v seen ls) = [].
Proof. induction ls as [|l ls IH]; [done|]. simpl. exact IH. Qed.

Lemma args_of_calls_other src src' l v seen ls :
  src' ≠ src → args_of src l (calls src' v seen ls) = [].
Proof.
  intros Hne. induction ls as [|l' ls IH]; [done|].
  simpl. unfold args_of in *. simpl. rewrite decide_False by (intros [? _]; done). exact IH.
Qed.

Lemma args_of_calls_absent src l v seen ls :
  l ∉ ls → args_of src l (calls src v seen ls) = [].
Proof.
  intros Hnot. induction ls as [|l' ls IH]; [done|].
  unfold args_of in *. simpl. rewrite decide_False.
  - apply IH. intros Hin. apply Hnot. by right.
  - intros [_ ->]. apply Hnot. by left.
Qed.

(** A listener of a set is called once for one pass over the set. *)
Lemma args_of_calls src l v seen ls :
  NoDup ls →
  args_of src l (calls src v seen ls) = if decide (l ∈ ls) then [v] else [].
Proof.
  intros Hnd. case_decide as Hin; [|by apply args_of_calls_absent].
  induction Hnd as [|l' ls Hnot Hnd IH]; [by apply elem_of_nil in Hin|].
  unfold args_of in *. simpl. destruct (decide (l' = l)) as [->|Hne].
  - rewrite decide_True by done. f_equal.
    by apply (args_of_calls_absent src l v seen ls).
  - rewrite decide_False by (intros [_ ?]; done). apply IH.
    apply elem_of_cons in Hin as [->|Hin]; done.
Qed.

Lemma args_of_from_computeds src l cs evs :
  (∀ c, src ≠ OfComputed c) → Forall (from_computeds cs) evs → args_of src l evs = [].
Proof.
  intros Hsrc Hall. induction Hall as [|e evs He Hall IH]; [done|].
  unfold args_of in *. simpl. destruct e as [src' l' arg seen|c']; [|exact IH].
  destruct He as (c & _ & Hc). simpl in Hc. subst src'.
  rewrite decide_False; [exact IH|]. intros [Heq _]. by apply (Hsrc c).
Qed.

(** *** [recompute()] *)

Lemma ComputedState_value_emit c e w :
  ComputedState_value c (emit e w) = ComputedState_value c w.
Proof. done. Qed.

Lemma State_value_emit s e w : State_value s (emit e w) = State_value s w.
Proof. done. Qed.

Lemma cs_set_value_same (x : ComputedState) : cs_set_value (cs_value x) x = x.
Proof. by destruct x. Qed.

Lemma strict_neq_false a b : strict_neq a b = false ↔ a = b.
Proof.
  unfold strict_neq, strict_eq. rewrite negb_false_iff. apply bool_decide_eq_true.
Qed.

Lemma strict_neq_true a b : strict_neq a b = true ↔ a ≠ b.
Proof.
  unfold strict_neq, strict_eq. rewrite negb_true_iff. apply bool_decide_eq_false.
Qed.

Lemma recompute_arrays c w : arrays (ComputedState_recompute c w) = arrays w.
Proof.
  unfold ComputedState_recompute. destruct (computeds w !! c) as [x|]; [|done].
  simpl. destruct (strict_neq _ _); [|done].
  by rewrite (foldl_call _ (ComputedState_value c)).
Qed.

Lemma recompute_states c w : states (ComputedState_recompute c w) = states w.
Proof.
  unfold ComputedState_recompute. destruct (computeds w !! c) as [x|]; [|done].
  simpl. destruct (strict_neq _ _); [|done].
  by rewrite (foldl_call _ (ComputedState_value c)).
Qed.

(** [recompute()] stores what [computeFn()] returns and touches no other
    cell. *)
Lemma recompute_computeds c w :
  computeds (ComputedState_recompute c w) =
  alter (λ x, cs_set_value (cs_computeFn x (snapshot w)) x) c (computeds w).
Proof.
  unfold ComputedState_recompute. destruct (computeds w !! c) as [x|] eqn:Hx.
  - simpl. rewrite snapshot_emit.
    destruct (strict_neq _ _) eqn:Hneq.
    + rewrite (foldl_call _ (ComputedState_value c)) by done. simpl.
      apply list_alter_ext; [|done]. intros y Hy. congruence.
    + simpl. apply strict_neq_false in Hneq. symmetry. apply alter_id_at.
      intros y Hy. assert (y = x) as -> by congruence.
      rewrite Hneq. apply cs_set_value_same.
  - symmetry. apply alter_id_at. intros y Hy. congruence.
Qed.

Lemma recompute_trace c w :
  trace (ComputedState_recompute c w) = trace w ++ recompute_events c w.
Proof.
  unfold ComputedState_recompute, recompute_events.
  destruct (computeds w !! c) as [x|] eqn:Hx; [|by rewrite app_nil_r].
  simpl. rewrite snapshot_emit. destruct (strict_neq _ _) eqn:Hneq; [|done].
  rewrite (foldl_call _ (ComputedState_value c)) by done. simpl.
  rewrite <- app_assoc. simpl. do 3 f_equal.
  unfold ComputedState_value. simpl. rewrite list_lookup_alter_eq, Hx. done.
Qed.

Lemma recompute_length c w :
  length (computeds (ComputedState_recompute c w)) = length (computeds w).
Proof. rewrite recompute_computeds. apply length_alter. Qed.

Lemma recompute_lookup_ne c c' w :
  c' ≠ c → computeds (ComputedState_recompute c w) !! c' = computeds w !! c'.
Proof. intros Hne. rewrite recompute_computeds. by apply list_lookup_alter_ne. Qed.


Lemma recompute_events_from c w : Forall (from_computed c) (recompute_events c w).
Proof.
  unfold recompute_events. destruct (computeds w !! c) as [x|]; [|constructor].
  simpl. constructor; [done|]. destruct (strict_neq _ _); [|constructor].
  unfold calls. apply Forall_fmap. apply Forall_forall. done.
Qed.

Lemma recomputes_recompute_events c w :
  c < length (computeds w) → recomputes (recompute_events c w) = [c].
Proof.
  intros Hc. unfold recompute_events.
  apply lookup_lt_is_Some_2 in Hc as [x ->]. simpl.
  destruct (strict_neq _ _); [|done]. unfold recomputes. simpl. f_equal.
  apply recomputes_calls.
Qed.

(** *** [computedStates.forEach(computed => computed.recompute())] *)

Lemma recompute_all_arrays cs w :
  arrays (foldl (λ w computed, ComputedState_recompute computed w) w cs) = arrays w.
Proof.
  revert w. induction cs as [|c cs IH]; intros w; [done|].
  simpl. by rewrite IH, recompute_arrays.
Qed.

Lemma recompute_all_states cs w :
  states (foldl (λ w computed, ComputedState_recompute computed w) w cs) = states w.
Proof.
  revert w. induction cs as [|c cs IH]; intros w; [done|].
  simpl. by rewrite IH, recompute_states.
Qed.

Lemma recompute_all_length cs w :
  length (computeds (foldl (λ w computed, ComputedState_recompute computed w) w cs))
  = length (computeds w).
Proof.
  revert w. induction cs as [|c cs IH]; intros w; [done|].
  simpl. by rewrite IH, recompute_length.
Qed.

Lemma recompute_all_trace cs w :
  trace (foldl (λ w computed, ComputedState_recompute computed w) w cs)
  = trace w ++ recompute_all_events cs w.
Proof.
  revert w. induction cs as [|c cs IH]; intros w; simpl.
  - by rewrite app_nil_r.
  - by rewrite IH, recompute_trace, <- app_assoc.
Qed.

Lemma recompute_all_events_recomputes cs w :
  (∀ c, c ∈ cs → c < length (computeds w)) →
  recomputes (recompute_all_events cs w) = cs.
Proof.
  revert w. induction cs as [|c cs IH]; intros w Hcs; [done|].
  simpl. rewrite recomputes_app, recomputes_recompute_events, IH.
  - done.
  - intros c' Hc'. rewrite recompute_length. apply Hcs. by right.
  - apply Hcs. by left.
Qed.

Lemma recompute_all_events_from cs w :
  Forall (from_computeds cs) (recompute_all_events cs w).
Proof.
  revert w. induction cs as [|c cs IH]; intros w; [constructor|].
  simpl. apply Forall_app. split.
  - eapply Forall_impl; [apply recompute_events_from|].
    intros e He. exists c. split; [by left | done].
  - eapply Forall_impl; [apply IH|].
    intros e (c' & Hc' & He). exists c'. split; [by right | done].
Qed.

Lemma recompute_all_lookup_other cs c w :
  c ∉ cs →
  computeds (foldl (λ w computed, ComputedState_recompute computed w) w cs) !! c
  = computeds w !! c.
Proof.
  revert w. induction cs as [|c' cs IH]; intros w Hnot; [done|].
  simpl. rewrite IH.
  - apply recompute_lookup_ne. intros ->. apply Hnot. by left.
  - intros Hin. apply Hnot. by right.
Qed.

(** *** [notify()] and the setter *)

Lemma State_notify_trace s st w :
  states w !! s = Some st →
  trace (State_notify s w) =
  trace w ++ calls (OfState s) (st_value st) (snapshot w) (st_listeners st)
          ++ recompute_all_events (st_computedStates st)
               {| arrays := arrays w; states := states w; computeds := computeds w;
                  trace := trace w ++ calls (OfState s) (st_value st) (snapshot w)
                                            (st_listeners st) |}.
Proof.
  intros Hst. unfold State_notify. rewrite Hst.
  rewrite (foldl_call _ (State_value s)) by done.
  rewrite recompute_all_trace. simpl. rewrite <- app_assoc.
  unfold State_value. by rewrite Hst.
Qed.

Lemma State_notify_states s w : states (State_notify s w) = states w.
Proof.
  unfold State_notify. destruct (states w !! s) as [st|]; [|done].
  rewrite recompute_all_states. by rewrite (foldl_call _ (State_value s)).
Qed.

Lemma State_notify_arrays s w : arrays (State_notify s w) = arrays w.
Proof.
  unfold State_notify. destruct (states w !! s) as [st|]; [|done].
  rewrite recompute_all_arrays. by rewrite (foldl_call _ (State_value s)).
Qed.

Lemma State_notify_length s w :
  length (computeds (State_notify s w)) = length (computeds w).
Proof.
  unfold State_notify. destruct (states w !! s) as [st|]; [|done].
  rewrite recompute_all_length. by rewrite (foldl_call _ (State_value s)).
Qed.

Lemma new_events_app w w' evs : trace w' = trace w ++ evs → new_events w w' = evs.
Proof. intros H. unfold new_events. rewrite H. apply drop_app_length. Qed.

(** *** The store stays well formed *)

Lemma lookup_alter_Some {A} (f : A → A) (i j : nat) (xs : list A) (y : A) :
  alter f i xs !! j = Some y →
  ∃ x, xs !! j = Some x ∧ y = if decide (i = j) then f x else x.
Proof.
  destruct (decide (i = j)) as [->|Hne].
  - rewrite list_lookup_alter_eq. destruct (xs !! j) as [x|]; [|done].
    simpl. intros [= <-]. eauto.
  - rewrite list_lookup_alter_ne by done. eauto.
Qed.

Lemma store_wf_empty : store_wf empty_store.
Proof. split; simpl; intros; by rewrite ?lookup_nil in *. Qed.

Lemma store_wf_emit e w : store_wf w → store_wf (emit e w).
Proof. intros [H1 H2 H3 H4]. split; simpl; eauto. Qed.

Lemma store_wf_Array_new items w : store_wf w → store_wf (Array_new items w).2.
Proof. intros [H1 H2 H3 H4]. split; simpl; eauto. Qed.

Lemma store_wf_with_arrays f w : store_wf w → store_wf (with_arrays f w).
Proof. intros [H1 H2 H3 H4]. split; simpl; eauto. Qed.

Lemma store_wf_State_new v w : store_wf w → store_wf (State_new v w).2.
Proof.
  intros [H1 H2 H3 H4]. split; simpl; [| | |done].
  - intros s st Hs. apply lookup_app_Some in Hs as [Hs|[_ Hs]]; [eauto|].
    apply list_lookup_singleton_Some in Hs as [_ <-]. simpl. constructor.
  - intros s st Hs. apply lookup_app_Some in Hs as [Hs|[_ Hs]]; [eauto|].
    apply list_lookup_singleton_Some in Hs as [_ <-]. simpl. constructor.
  - intros s st c Hs Hc. apply lookup_app_Some in Hs as [Hs|[_ Hs]]; [eauto|].
    apply list_lookup_singleton_Some in Hs as [_ <-]. simpl in Hc.
    by apply elem_of_nil in Hc.
Qed.

Lemma store_wf_State_listeners (f : list Listener → list Listener) s w :
  (∀ ls, NoDup ls → NoDup (f ls)) →
  store_wf w → store_wf (with_states (alter (st_set_listeners f) s) w).
Proof.
  intros Hf [H1 H2 H3 H4]. split; simpl; [| | |done].
  - intros s' st Hs. apply lookup_alter_Some in Hs as (st0 & Hs & ->).
    case_decide; simpl; eauto.
  - intros s' st Hs. apply lookup_alter_Some in Hs as (st0 & Hs & ->).
    case_decide; simpl; eauto.
  - intros s' st c Hs Hc. apply lookup_alter_Some in Hs as (st0 & Hs & ->).
    case_decide; simpl in Hc; eauto.
Qed.

Lemma store_wf_State_subscribe s l w : store_wf w → store_wf (State_subscribe s l w).
Proof. apply store_wf_State_listeners. intros ls. apply Set_add_NoDup. Qed.

Lemma store_wf_State_unsubscribe s l w : store_wf w → store_wf (State_unsubscribe s l w).
Proof. apply store_wf_State_listeners. intros ls. apply Set_delete_NoDup. Qed.

Lemma store_wf_State_value s v w :
  store_wf w → store_wf (with_states (alter (st_set_value v) s) w).
Proof.
  intros [H1 H2 H3 H4]. split; simpl; [| | |done].
  - intros s' st Hs. apply lookup_alter_Some in Hs as (st0 & Hs & ->).
    case_decide; simpl; eauto.
  - intros s' st Hs. apply lookup_alter_Some in Hs as (st0 & Hs & ->).
    case_decide; simpl; eauto.
  - intros s' st c Hs Hc. apply lookup_alter_Some in Hs as (st0 & Hs & ->).
    case_decide; simpl in Hc; eauto.
Qed.

Lemma store_wf_cs_listeners (f : list Listener → list Listener) c w :
  (∀ ls, NoDup ls → NoDup (f ls)) →
  store_wf w → store_wf (with_computeds (alter (cs_set_listeners f) c) w).
Proof.
  intros Hf [H1 H2 H3 H4]. split; simpl; [done | done | |].
  - intros s st c' Hs Hc. rewrite length_alter. eauto.
  - intros c' x Hx. apply lookup_alter_Some in Hx as (x0 & Hx & ->).
    case_decide; simpl; eauto.
Qed.

Lemma store_wf_ComputedState_subscribe c l w :
  store_wf w → store_wf (ComputedState_subscribe c l w).
Proof. apply store_wf_cs_listeners. intros ls. apply Set_add_NoDup. Qed.

Lemma store_wf_ComputedState_unsubscribe c l w :
  store_wf w → store_wf (ComputedState_unsubscribe c l w).
Proof. apply store_wf_cs_listeners. intros ls. apply Set_delete_NoDup. Qed.

Lemma store_wf_recompute c w : store_wf w → store_wf (ComputedState_recompute c w).
Proof.
  intros [H1 H2 H3 H4]. split.
  - intros s st. rewrite recompute_states. eauto.
  - intros s st. rewrite recompute_states. eauto.
  - intros s st c'. rewrite recompute_states, recompute_length. eauto.
  - intros c' x. rewrite recompute_computeds. intros Hx.
    apply lookup_alter_Some in Hx as (x0 & Hx & ->). case_decide; simpl; eauto.
Qed.

Lemma store_wf_recompute_all cs w :
  store_wf w → store_wf (foldl (λ w computed, ComputedState_recompute computed w) w cs).
Proof.
  revert w. induction cs as [|c cs IH]; intros w Hwf; [done|].
  simpl. apply IH. by apply store_wf_recompute.
Qed.

Lemma store_wf_State_notify s w : store_wf w → store_wf (State_notify s w).
Proof.
  intros Hwf. unfold State_notify. destruct (states w !! s) as [st|]; [|done].
  apply store_wf_recompute_all. rewrite (foldl_call _ (State_value s)) by done.
  destruct Hwf as [H1 H2 H3 H4]. split; simpl; eauto.
Qed.

Lemma store_wf_State_set_value s v w : store_wf w → store_wf (State_set_value s v w).
Proof.
  intros Hwf. unfold State_set_value. destruct (strict_neq _ _); [|done].
  by apply store_wf_State_notify, store_wf_State_value.
Qed.

Lemma store_wf_State_push s item w : store_wf w → store_wf (final (State_push s item w)).
Proof.
  intros Hwf. unfold State_push. destruct (State_value s w); simpl; try done.
  by apply store_wf_State_notify, store_wf_with_arrays.
Qed.

Lemma store_wf_register this deps w :
  this < length (computeds w) → store_wf w →
  store_wf (foldl (λ w dep, with_states (alter (st_set_computedStates (Set_add this)) dep) w)
                  w deps).
Proof.
  intros Hthis. revert w Hthis. induction deps as [|dep deps IH]; intros w Hthis Hwf; [done|].
  simpl. apply IH; [done|].
  destruct Hwf as [H1 H2 H3 H4]. split; simpl; [| | |done].
  - intros s st Hs. apply lookup_alter_Some in Hs as (st0 & Hs & ->).
    case_decide; simpl; eauto.
  - intros s st Hs. apply lookup_alter_Some in Hs as (st0 & Hs & ->).
    case_decide; simpl; eauto using Set_add_NoDup.
  - intros s st c Hs Hc. apply lookup_alter_Some in Hs as (st0 & Hs & ->).
    case_decide; simpl in Hc; eauto.
    apply Set_add_elem in Hc as [->|Hc]; eauto.
Qed.

Lemma store_wf_ComputedState_new computeFn deps w :
  store_wf w → store_wf (ComputedState_new computeFn deps w).2.
Proof.
  intros [H1 H2 H3 H4]. unfold ComputedState_new. simpl.
  apply store_wf_register.
  - simpl. rewrite length_app. simpl. lia.
  - split; simpl; [done | done | |].
    + intros s st c Hs Hc. rewrite length_app. simpl.
      specialize (H3 s st c Hs Hc). lia.
    + intros c x Hx. apply lookup_app_Some in Hx as [Hx|[_ Hx]]; [eauto|].
      apply list_lookup_singleton_Some in Hx as [_ <-]. simpl. constructor.
Qed.

Lemma store_wf_State_map s fn w : store_wf w → store_wf (State_map s fn w).2.
Proof. apply store_wf_ComputedState_new. Qed.

Lemma store_wf_ConditionalElement_new conditionFn elementFn deps w d :
  store_wf w → store_wf (ConditionalElement_new conditionFn elementFn deps w d).1.2.
Proof.
  intros Hwf. unfold ConditionalElement_new.
  destruct (ConditionalElement_update _ _) as [d' this]. simpl.
  generalize (imap pair deps) as kdeps. intros kdeps. revert w Hwf.
  induction kdeps as [|[k dep] kdeps IH]; intros w Hwf; [done|].
  simpl. by apply IH, store_wf_State_subscribe.
Qed.

Lemma store_wf_each items renderFn w d this w' d' :
  store_wf w → each items renderFn w d = Returned this (w', d') → store_wf w'.
Proof.
  intros Hwf. unfold each, IteratedElements_new.
  destruct (IteratedElements_render _ _) as [[] [d0 this0]|msg [d0 this0]]; [|done].
  destruct items as [a|s]; intros [= _ <- _]; [done|].
  by apply store_wf_State_subscribe.
Qed.

Lemma store_wf_mutate w m : store_wf w → store_wf (mutate w m).
Proof.
  destruct m; simpl; [apply store_wf_State_set_value | apply store_wf_State_push].
Qed.

(** *** The setter *)

(** The assignment when every function called returns and leaves the cells
    alone: every listener subscribed to the cell is called exactly once, with
    the new value and with the new value already stored, and after these calls
    [recompute()] is entered once on every registered computed cell, in the
    order of registration. *)
Lemma State_set_value_pass w s st v :
  store_wf w → states w !! s = Some st →
  (strict_neq v (st_value st) = true →
     let w' := State_set_value s v w in
     State_value s w' = v ∧
     ∃ seen rest,
       trace w' = trace w ++ calls (OfState s) v seen (st_listeners st) ++ rest ∧
       snap_states seen !! s = Some v ∧
       (∀ l, args_of (OfState s) l (new_events w w')
             = if decide (l ∈ st_listeners st) then [v] else []) ∧
       Forall (from_computeds (st_computedStates st)) rest ∧
       recomputes rest = st_computedStates st) ∧
  (strict_neq v (st_value st) = false → State_set_value s v w = w).
Proof.
  intros Hwf Hst.
  assert (State_value s w = st_value st) as Hval by (unfold State_value; by rewrite Hst).
  split; intros Hneq; unfold State_set_value; rewrite Hval, Hneq; [|done].
  set (w1 := with_states (alter (st_set_value v) s) w).
  assert (states w1 !! s = Some (st_set_value v st)) as Hst1.
  { unfold w1. simpl. by rewrite list_lookup_alter_eq, Hst. }
  cbv zeta. split.
  { unfold State_value. by rewrite State_notify_states, Hst1. }
  pose proof (State_notify_trace s _ w1 Hst1) as Htr. simpl in Htr.
  eexists _, _. split; [exact Htr|].
  split; [|split; [|split]].
  - simpl. rewrite list_lookup_fmap, list_lookup_alter_eq, Hst. done.
  - intros l. rewrite (new_events_app _ _ _ Htr), args_of_app.
    rewrite args_of_calls by (by eapply wf_listeners).
    rewrite (args_of_from_computeds _ _ (st_computedStates st)).
    + by rewrite app_nil_r.
    + done.
    + apply recompute_all_events_from.
  - apply recompute_all_events_from.
  - apply recompute_all_events_recomputes. simpl.
    intros c Hc. by eapply wf_registered.
Qed.

Lemma demo_store_wf : store_wf demo_store.
Proof.
  apply store_wf_ComputedState_subscribe, store_wf_State_subscribe,
    store_wf_State_subscribe, store_wf_State_map, store_wf_State_new, store_wf_empty.
Qed.


(** *** [map] *)






Lemma State_notify_unfold s st w :
  states w !! s = Some st →
  State_notify s w =
  foldl (λ w computed, ComputedState_recompute computed w)
        {| arrays := arrays w; states := states w; computeds := computeds w;
           trace := trace w ++ calls (OfState s) (st_value st) (snapshot w)
                                     (st_listeners st) |}
        (st_computedStates st).
Proof.
  intros Hst. unfold State_notify. rewrite Hst.
  rewrite (foldl_call _ (State_value s)) by done.
  unfold State_value. by rewrite Hst.
Qed.

Lemma register_computeds this deps w :
  computeds (foldl (λ w dep, with_states (alter (st_set_computedStates (Set_add this)) dep) w)
                   w deps) = computeds w.
Proof. revert w. induction deps as [|dep deps IH]; intros w; [done|]. simpl. by rewrite IH. Qed.







(** *** [push] and [filter] *)

(** [push] when every function called returns and leaves the cells alone:
    the item is appended in place, the stored reference is as it was, every
    subscriber is called once, with the same reference and with the item
    already appended, and then [recompute()] is entered on every registered
    computed cell.  Assigning that same reference with a plain [set] notifies
    nobody, before the push as after it. *)
Lemma State_push_pass w s st a items item :
  store_wf w → states w !! s = Some st → st_value st = VArr a →
  arrays w !! a = Some items →
  ∃ w', State_push s item w = Returned () w' ∧
    arrays w' !! a = Some (items ++ [item]) ∧
    State_value s w' = VArr a ∧
    (∃ seen rest,
       trace w' = trace w ++ calls (OfState s) (VArr a) seen (st_listeners st) ++ rest ∧
       snap_arrays seen !! a = Some (items ++ [item]) ∧
       (∀ l, args_of (OfState s) l (new_events w w')
             = if decide (l ∈ st_listeners st) then [VArr a] else []) ∧
       Forall (from_computeds (st_computedStates st)) rest ∧
       recomputes rest = st_computedStates st) ∧
    State_set_value s (VArr a) w = w ∧
    State_set_value s (VArr a) w' = w'.
Proof.
  intros Hwf Hst Hval Harr.
  assert (State_value s w = VArr a) as Hsv by (unfold State_value; by rewrite Hst).
  unfold State_push. rewrite Hsv.
  set (w1 := with_arrays (alter (λ items0, items0 ++ [item]) a) w).
  assert (states w1 !! s = Some st) as Hst1 by done.
  eexists. split; [reflexivity|].
  assert (State_value s (State_notify s w1) = VArr a) as Hsv'.
  { unfold State_value. rewrite State_notify_states, Hst1. simpl. by rewrite Hval. }
  pose proof (State_notify_trace s _ w1 Hst1) as Htr. simpl in Htr. rewrite Hval in Htr.
  split; [|split; [done|split; [|split]]].
  - rewrite State_notify_arrays. unfold w1. simpl. by rewrite list_lookup_alter_eq, Harr.
  - eexists _, _. split; [exact Htr|]. split; [|split; [|split]].
    + simpl. by rewrite list_lookup_alter_eq, Harr.
    + intros l. rewrite (new_events_app w _ _ Htr), args_of_app.
      rewrite args_of_calls by (by eapply wf_listeners).
      rewrite (args_of_from_computeds _ _ (st_computedStates st));
        [by rewrite app_nil_r | done | apply recompute_all_events_from].
    + apply recompute_all_events_from.
    + apply recompute_all_events_recomputes. simpl. intros c Hc. by eapply wf_registered.
  - unfold State_set_value. rewrite Hsv. unfold strict_neq, strict_eq.
    by rewrite bool_decide_eq_true_2.
  - unfold State_set_value. rewrite Hsv'. unfold strict_neq, strict_eq.
    by rewrite bool_decide_eq_true_2.
Qed.

Lemma todo_store_wf : store_wf todo_store.
Proof.
  apply store_wf_ComputedState_new, store_wf_State_subscribe, store_wf_State_new,
    store_wf_Array_new, store_wf_empty.
Qed.


(** C4, as the code has it.  On a cell that does not hold an array,
    [filter(predicate)] throws at once and [push(item)] returns without doing
    anything; in both cases the store is left as it was: the value stored is
    the same and nothing is added to the trace, so nobody is notified. *)
Theorem push_ignores_and_filter_rejects_non_arrays w s item predicate :
  Array_isArray (State_value s w) = false →
  State_push s item w = Returned () w ∧
  State_filter s predicate w = Thrown "filter() can only be used on array states" w.
Proof.
  intros Hna. unfold State_push, State_filter.
  by destruct (State_value s w).
Qed.

(** C4, witness: the cell [c = state(5)]. *)
Lemma push_ignores_and_filter_rejects_non_arrays_witness :
  State_push 0 (VNum 1) demo_store = Returned () demo_store ∧
  State_filter 0 (λ _, true) demo_store
    = Thrown "filter() can only be used on array states" demo_store.
Proof.
  apply (push_ignores_and_filter_rejects_non_arrays demo_store 0 (VNum 1) (λ _, true)).
  reflexivity.
Defined.

(** C4, as stated, fails: [c.push(1)] on [c = state(5)] returns normally. *)
Lemma push_on_non_array_returns : ¬ push_and_filter_throw_on_non_arrays.
Proof.
  intros H.
  destruct (H demo_store 0 (VNum 1) (λ _, true) eq_refl) as [[Hret _] _].
  vm_compute in Hret. discriminate Hret.
Qed.

(** *** [subscribe] and the function it returns *)

Lemma st_set_listeners_id (f : list Listener → list Listener) (st : State) :
  f (st_listeners st) = st_listeners st → st_set_listeners f st = st.
Proof. intros Hf. destruct st. unfold st_set_listeners. simpl in *. by rewrite Hf. Qed.

Lemma cs_set_listeners_id (f : list Listener → list Listener) (x : ComputedState) :
  f (cs_listeners x) = cs_listeners x → cs_set_listeners f x = x.
Proof. intros Hf. destruct x. unfold cs_set_listeners. simpl in *. by rewrite Hf. Qed.

Lemma with_states_idemp (f : State → State) s w :
  (∀ st, f (f st) = f st) →
  with_states (alter f s) (with_states (alter f s) w) = with_states (alter f s) w.
Proof.
  intros Hf. unfold with_states. simpl. f_equal.
  rewrite list_alter_alter_eq. apply list_alter_ext; [|done]. intros st _. apply Hf.
Qed.

Lemma with_computeds_idemp (f : ComputedState → ComputedState) c w :
  (∀ x, f (f x) = f x) →
  with_computeds (alter f c) (with_computeds (alter f c) w) = with_computeds (alter f c) w.
Proof.
  intros Hf. unfold with_computeds. simpl. f_equal.
  rewrite list_alter_alter_eq. apply list_alter_ext; [|done]. intros x _. apply Hf.
Qed.

Lemma State_listeners_alter (f : list Listener → list Listener) s s' w :
  f [] = [] →
  State_listeners s' (with_states (alter (st_set_listeners f) s) w)
  = if decide (s' = s) then f (State_listeners s w) else State_listeners s' w.
Proof.
  intros Hnil. unfold State_listeners. simpl. case_decide as Heq.
  - subst s'. rewrite list_lookup_alter_eq. by destruct (states w !! s).
  - by rewrite list_lookup_alter_ne.
Qed.

Lemma ComputedState_listeners_alter (f : list Listener → list Listener) c c' w :
  f [] = [] →
  ComputedState_listeners c' (with_computeds (alter (cs_set_listeners f) c) w)
  = if decide (c' = c) then f (ComputedState_listeners c w) else ComputedState_listeners c' w.
Proof.
  intros Hnil. unfold ComputedState_listeners. simpl. case_decide as Heq.
  - subst c'. rewrite list_lookup_alter_eq. by destruct (computeds w !! c).
  - by rewrite list_lookup_alter_ne.
Qed.

Lemma State_notify_args s st l w :
  store_wf w → states w !! s = Some st →
  args_of (OfState s) l (new_events w (State_notify s w))
  = if decide (l ∈ st_listeners st) then [st_value st] else [].
Proof.
  intros Hwf Hst. rewrite (new_events_app _ _ _ (State_notify_trace s st w Hst)).
  rewrite args_of_app, args_of_calls by (by eapply wf_listeners).
  rewrite (args_of_from_computeds _ _ (st_computedStates st));
    [by rewrite app_nil_r | done | apply recompute_all_events_from].
Qed.

Lemma recompute_args c x l w :
  store_wf w → computeds w !! c = Some x →
  args_of (OfComputed c) l (new_events w (ComputedState_recompute c w))
  = if strict_neq (cs_computeFn x (snapshot w)) (cs_value x)
    then if decide (l ∈ cs_listeners x) then [cs_computeFn x (snapshot w)] else []
    else [].
Proof.
  intros Hwf Hx. rewrite (new_events_app _ _ _ (recompute_trace c w)).
  unfold recompute_events. rewrite Hx. simpl.
  destruct (strict_neq _ _); [|done].
  apply args_of_calls. by eapply wf_cs_listeners.
Qed.

Lemma State_subscribe_twice s l w :
  State_subscribe s l (State_subscribe s l w) = State_subscribe s l w.
Proof.
  apply with_states_idemp. intros st. unfold st_set_listeners. simpl.
  by rewrite Set_add_idemp.
Qed.

Lemma ComputedState_subscribe_twice c l w :
  ComputedState_subscribe c l (ComputedState_subscribe c l w)
  = ComputedState_subscribe c l w.
Proof.
  apply with_computeds_idemp. intros x. unfold cs_set_listeners. simpl.
  by rewrite Set_add_idemp.
Qed.

(** C9.  For a value cell and for a computed cell alike: subscribing a
    listener that is already subscribed changes nothing, so that the next pass
    calls it exactly once; the function returned by [subscribe] can be called
    again, or when the listener is no longer subscribed, without any effect;
    and it removes no other listener, of this cell or of any other. *)
Theorem subscribe_once_unsubscribe_idempotent :
  (∀ w s l,
     State_subscribe s l (State_subscribe s l w) = State_subscribe s l w ∧
     State_unsubscribe s l (State_unsubscribe s l w) = State_unsubscribe s l w ∧
     (l ∉ State_listeners s w → State_unsubscribe s l w = w) ∧
     (∀ s' l', l' ≠ l →
        l' ∈ State_listeners s' (State_unsubscribe s l w) ↔ l' ∈ State_listeners s' w) ∧
     (∀ st, store_wf w → states w !! s = Some st →
        let w2 := State_subscribe s l (State_subscribe s l w) in
        args_of (OfState s) l (new_events w2 (State_notify s w2)) = [st_value st])) ∧
  (∀ w c l,
     ComputedState_subscribe c l (ComputedState_subscribe c l w)
       = ComputedState_subscribe c l w ∧
     ComputedState_unsubscribe c l (ComputedState_unsubscribe c l w)
       = ComputedState_unsubscribe c l w ∧
     (l ∉ ComputedState_listeners c w → ComputedState_unsubscribe c l w = w) ∧
     (∀ c' l', l' ≠ l →
        l' ∈ ComputedState_listeners c' (ComputedState_unsubscribe c l w)
        ↔ l' ∈ ComputedState_listeners c' w) ∧
     (∀ x, store_wf w → computeds w !! c = Some x →
        let w2 := ComputedState_subscribe c l (ComputedState_subscribe c l w) in
        let newValue := cs_computeFn x (snapshot w2) in
        strict_neq newValue (cs_value x) = true →
        args_of (OfComputed c) l (new_events w2 (ComputedState_recompute c w2)) = [newValue])).
Proof.
  split.
  - intros w s l. split_and!.
    + apply State_subscribe_twice.
    + apply with_states_idemp. intros st. unfold st_set_listeners. simpl.
      by rewrite Set_delete_idemp.
    + intros Hnot. unfold State_unsubscribe, with_states. destruct w as [h ss cs tr].
      simpl. f_equal. apply alter_id_at. intros st Hst.
      apply st_set_listeners_id, Set_delete_absent.
      unfold State_listeners in Hnot. simpl in Hnot. by rewrite Hst in Hnot.
    + intros s' l' Hne. unfold State_unsubscribe.
      rewrite State_listeners_alter by done. case_decide as Heq; [|done].
      subst s'. rewrite Set_delete_elem. tauto.
    + intros st Hwf Hst. cbv zeta.
      rewrite State_subscribe_twice.
      rewrite (State_notify_args s (st_set_listeners (Set_add l) st)).
      * rewrite decide_True; [done|]. simpl. apply Set_add_elem. by left.
      * by apply store_wf_State_subscribe.
      * unfold State_subscribe. simpl. by rewrite list_lookup_alter_eq, Hst.
  - intros w c l. split_and!.
    + apply ComputedState_subscribe_twice.
    + apply with_computeds_idemp. intros x. unfold cs_set_listeners. simpl.
      by rewrite Set_delete_idemp.
    + intros Hnot. unfold ComputedState_unsubscribe, with_computeds.
      destruct w as [h ss cs tr]. simpl. f_equal. apply alter_id_at. intros x Hx.
      apply cs_set_listeners_id, Set_delete_absent.
      unfold ComputedState_listeners in Hnot. simpl in Hnot. by rewrite Hx in Hnot.
    + intros c' l' Hne. unfold ComputedState_unsubscribe.
      rewrite ComputedState_listeners_alter by done. case_decide as Heq; [|done].
      subst c'. rewrite Set_delete_elem. tauto.
    + intros x Hwf Hx. cbv zeta.
      rewrite ComputedState_subscribe_twice.
      intros Hneq.
      rewrite (recompute_args c (cs_set_listeners (Set_add l) x)).
      * simpl. simpl in Hneq. rewrite Hneq.
        rewrite decide_True; [done|]. apply Set_add_elem. by left.
      * by apply store_wf_ComputedState_subscribe.
      * unfold ComputedState_subscribe. simpl. by rewrite list_lookup_alter_eq, Hx.
Qed.

(** C9, witness: the small program, with listener 1 subscribed again on the
    cell and listener 3 subscribed again on the computed cell. *)
Lemma subscribe_once_unsubscribe_idempotent_witness :
  (State_unsubscribe 0 (UserFn 9) demo_store = demo_store ∧
   (UserFn 2 ∈ State_listeners 0 (State_unsubscribe 0 (UserFn 1) demo_store)
    ↔ UserFn 2 ∈ State_listeners 0 demo_store) ∧
   let w2 := State_subscribe 0 (UserFn 1) (State_subscribe 0 (UserFn 1) demo_store) in
   args_of (OfState 0) (UserFn 1) (new_events w2 (State_notify 0 w2)) = [VNum 5]) ∧
  (ComputedState_unsubscribe 0 (UserFn 9) demo_store = demo_store ∧
   let w2 := ComputedState_subscribe 0 (UserFn 3)
               (ComputedState_subscribe 0 (UserFn 3) (State_set_value 0 (VNum 6) demo_store)) in
   let w3 := with_states (alter (st_set_value (VNum 8)) 0) w2 in
   args_of (OfComputed 0) (UserFn 3) (new_events w3 (ComputedState_recompute 0 w3))
     = [VNum 16]).
Proof.
  pose proof subscribe_once_unsubscribe_idempotent as [HS HC].
  split.
  - destruct (HS demo_store 0 (UserFn 9)) as (_ & _ & H3 & _).
    destruct (HS demo_store 0 (UserFn 1)) as (_ & _ & _ & H4 & H5).
    split; [|split].
    + apply H3. apply (bool_decide_unpack _). by vm_compute.
    + apply H4. discriminate.
    + exact (H5 _ demo_store_wf eq_refl).
  - destruct (HC demo_store 0 (UserFn 9)) as (_ & _ & H3 & _).
    split.
    + apply H3. apply (bool_decide_unpack _). by vm_compute.
    + cbv zeta.
      set (w := with_states (alter (st_set_value (VNum 8)) 0)
                  (State_set_value 0 (VNum 6) demo_store)).
      destruct (HC w 0 (UserFn 3)) as (_ & _ & _ & _ & H5).
      assert (store_wf w) as Hwf
        by apply store_wf_State_value, store_wf_State_set_value, demo_store_wf.
      exact (H5 _ Hwf eq_refl eq_refl).
Defined.

(** *** Who starts a recomputation *)

Lemma registered_states c w w' :
  (st_computedStates <$> states w') = (st_computedStates <$> states w) →
  registered c w' → registered c w.
Proof.
  intros Heq (s & st & Hst & Hc).
  assert ((st_computedStates <$> states w') !! s = Some (st_computedStates st)) as H
    by (by rewrite list_lookup_fmap, Hst).
  rewrite Heq, list_lookup_fmap in H.
  destruct (states w !! s) as [st0|] eqn:Hst0; [|done].
  simpl in H. injection H as H. exists s, st0. by rewrite H.
Qed.

Lemma fmap_alter_same {A B} (f : A → B) (g : A → A) (i : nat) (xs : list A) :
  (∀ x, f (g x) = f x) → f <$> alter g i xs = f <$> xs.
Proof.
  intros Hfg. apply list_eq. intros j. rewrite !list_lookup_fmap.
  destruct (decide (i = j)) as [->|Hne].
  - rewrite list_lookup_alter_eq. destruct (xs !! j); simpl; by rewrite ?Hfg.
  - by rewrite list_lookup_alter_ne.
Qed.

(** One mutation: what it adds to the trace comes from the cell itself or
    from computed cells registered with it, and it recomputes no other
    computed cell. *)
Lemma mutate_step w m :
  (st_computedStates <$> states (mutate w m)) = (st_computedStates <$> states w) ∧
  length (computeds (mutate w m)) = length (computeds w) ∧
  (∀ e, ¬ registered e w → computeds (mutate w m) !! e = computeds w !! e) ∧
  ∃ evs, trace (mutate w m) = trace w ++ evs ∧
         ∀ ev c, ev ∈ evs → from_computed c ev → registered c w.
Proof.
  assert (∀ s w1, (st_computedStates <$> states w1) = (st_computedStates <$> states w) →
            computeds w1 = computeds w → trace w1 = trace w →
            (st_computedStates <$> states (State_notify s w1))
              = (st_computedStates <$> states w) ∧
            length (computeds (State_notify s w1)) = length (computeds w) ∧
            (∀ e, ¬ registered e w →
                  computeds (State_notify s w1) !! e = computeds w !! e) ∧
            ∃ evs, trace (State_notify s w1) = trace w ++ evs ∧
                   ∀ ev c, ev ∈ evs → from_computed c ev → registered c w) as Hnotify.
  { intros s w1 Hreg Hcs Htr. split; [|split; [|split]].
    - by rewrite State_notify_states.
    - by rewrite State_notify_length, Hcs.
    - intros e Hne. destruct (states w1 !! s) as [st|] eqn:Hst.
      + rewrite (State_notify_unfold s st w1 Hst), recompute_all_lookup_other.
        * simpl. by rewrite Hcs.
        * intros Hin. apply Hne. apply (registered_states e w w1 Hreg). by exists s, st.
      + unfold State_notify. by rewrite Hst, Hcs.
    - destruct (states w1 !! s) as [st|] eqn:Hst.
      + eexists. split.
        * rewrite (State_notify_trace s st w1 Hst), Htr. reflexivity.
        * intros ev c Hin Hfrom. apply elem_of_app in Hin as [Hin|Hin].
          -- unfold calls in Hin. apply list_elem_of_fmap in Hin as (l & -> & _).
             simpl in Hfrom. discriminate.
          -- destruct (proj1 (Forall_forall _ _) (recompute_all_events_from _ _) _ Hin)
               as (c0 & Hc0 & Hev).
             assert (c = c0) as ->.
             { destruct ev; simpl in *; congruence. }
             apply (registered_states c0 w w1 Hreg). by exists s, st.
      + exists []. split; [|by intros ev c Hin; apply elem_of_nil in Hin].
        unfold State_notify. by rewrite Hst, Htr, app_nil_r. }
  assert ((st_computedStates <$> states w) = (st_computedStates <$> states w) ∧
          length (computeds w) = length (computeds w) ∧
          (∀ e, ¬ registered e w → computeds w !! e = computeds w !! e) ∧
          ∃ evs, trace w = trace w ++ evs ∧
                 ∀ ev c, ev ∈ evs → from_computed c ev → registered c w) as Hsame.
  { split_and!; try done. exists []. split; [by rewrite app_nil_r|].
    by intros ev c Hin; apply elem_of_nil in Hin. }
  destruct m as [s v|s item]; simpl.
  - unfold State_set_value. destruct (strict_neq _ _); [|exact Hsame].
    apply Hnotify; [|done|done]. simpl. by apply fmap_alter_same.
  - unfold State_push. destruct (State_value s w); simpl; try exact Hsame.
    by apply Hnotify.
Qed.

Lemma mutate_all w ms :
  (st_computedStates <$> states (foldl mutate w ms)) = (st_computedStates <$> states w) ∧
  (∀ e, ¬ registered e w → computeds (foldl mutate w ms) !! e = computeds w !! e) ∧
  ∃ evs, trace (foldl mutate w ms) = trace w ++ evs ∧
         ∀ ev c, ev ∈ evs → from_computed c ev → registered c w.
Proof.
  revert w. induction ms as [|m ms IH]; intros w.
  - simpl. split_and!; try done. exists []. split; [by rewrite app_nil_r|].
    by intros ev c Hin; apply elem_of_nil in Hin.
  - simpl. destruct (mutate_step w m) as (Hreg & _ & Hcs & evs1 & Htr1 & Hev1).
    destruct (IH (mutate w m)) as (Hreg' & Hcs' & evs2 & Htr2 & Hev2).
    split; [congruence|]. split.
    + intros e Hne. rewrite Hcs'; [by apply Hcs|].
      intros Hr. apply Hne. by apply (registered_states e w (mutate w m)).
    + exists (evs1 ++ evs2). split; [by rewrite Htr2, Htr1, app_assoc|].
      intros ev c Hin Hfrom. apply elem_of_app in Hin as [Hin|Hin]; [by eapply Hev1|].
      apply (registered_states c w (mutate w m) Hreg). by eapply Hev2.
Qed.

(** C8.  [recompute()] of a computed cell enters no other [recompute()]:
    all it adds to the trace is its own entry and calls to its own
    subscribers, and it changes no other cell.  Over any sequence of
    assignments and pushes on value cells, every recomputation and every call
    made by a computed cell belongs to a computed cell that some value cell
    has registered; a computed cell that no value cell has registered, such as
    one that reads another computed cell only, is never recomputed and keeps
    the value it was constructed with. *)
Theorem recompute_is_single_hop :
  (∀ c w,
     let w' := ComputedState_recompute c w in
     Forall (from_computed c) (new_events w w') ∧
     (∀ l v seen, EvCall (OfComputed c) l v seen ∈ new_events w w' →
                  l ∈ ComputedState_listeners c w) ∧
     (∀ c', c' ≠ c → computeds w' !! c' = computeds w !! c') ∧
     states w' = states w ∧ arrays w' = arrays w) ∧
  (∀ ms w,
     let w' := foldl mutate w ms in
     (∀ ev c, ev ∈ new_events w w' → from_computed c ev → registered c w) ∧
     (∀ e, ¬ registered e w → computeds w' !! e = computeds w !! e)).
Proof.
  split.
  - intros c w. cbv zeta.
    rewrite (new_events_app _ _ _ (recompute_trace c w)). split_and!.
    + apply recompute_events_from.
    + intros l v seen Hin. unfold recompute_events, ComputedState_listeners in *.
      destruct (computeds w !! c) as [x|]; [|by apply elem_of_nil in Hin].
      simpl in *. apply elem_of_cons in Hin as [Hin|Hin]; [done|].
      destruct (strict_neq _ _); [|by apply elem_of_nil in Hin].
      unfold calls in Hin. by apply list_elem_of_fmap in Hin as (l0 & [= -> _ _] & Hl0).
    + intros c' Hne. by apply recompute_lookup_ne.
    + apply recompute_states.
    + apply recompute_arrays.
  - intros ms w. cbv zeta. destruct (mutate_all w ms) as (_ & Hcs & evs & Htr & Hev).
    rewrite (new_events_app _ _ _ Htr). split; [exact Hev | exact Hcs].
Qed.

(** *** The cell that [map] made stays what it is

    What [mapped_from] needs of a store are the compute functions and the
    registrations.  Assignments, pushes and subscriptions keep both; new cells
    only add to them. *)

Lemma mapped_from_alt s fn c w :
  mapped_from s fn c w ↔
  (cs_computeFn <$> computeds w) !! c = Some (map_closure s fn) ∧
  ∃ cs, (st_computedStates <$> states w) !! s = Some cs ∧ c ∈ cs.
Proof.
  unfold mapped_from. rewrite !list_lookup_fmap. split.
  - intros [(x & -> & <-) (st & -> & Hc)]. split; [done|]. by eexists.
  - intros [Hx (cs & Hst & Hc)]. split.
    + destruct (computeds w !! c) as [x|]; [|done]. injection Hx as Hx. by exists x.
    + destruct (states w !! s) as [st|]; [|done]. injection Hst as <-. by exists st.
Qed.

Lemma mapped_from_same s fn c w w' :
  (cs_computeFn <$> computeds w') = (cs_computeFn <$> computeds w) →
  (st_computedStates <$> states w') = (st_computedStates <$> states w) →
  mapped_from s fn c w → mapped_from s fn c w'.
Proof. rewrite !mapped_from_alt. by intros -> ->. Qed.

Lemma recompute_computeFns c w :
  (cs_computeFn <$> computeds (ComputedState_recompute c w)) = (cs_computeFn <$> computeds w).
Proof. rewrite recompute_computeds. by apply fmap_alter_same. Qed.

Lemma recompute_all_computeFns cs w :
  (cs_computeFn <$> computeds (foldl (λ w computed, ComputedState_recompute computed w) w cs))
  = (cs_computeFn <$> computeds w).
Proof.
  revert w. induction cs as [|c cs IH]; intros w; [done|].
  simpl. by rewrite IH, recompute_computeFns.
Qed.

Lemma State_notify_computeFns s w :
  (cs_computeFn <$> computeds (State_notify s w)) = (cs_computeFn <$> computeds w).
Proof.
  unfold State_notify. destruct (states w !! s) as [st|]; [|done].
  rewrite recompute_all_computeFns. by rewrite (foldl_call _ (State_value s)).
Qed.

Lemma mutate_computeFns w m :
  (cs_computeFn <$> computeds (mutate w m)) = (cs_computeFn <$> computeds w).
Proof.
  destruct m as [s v|s item]; simpl.
  - unfold State_set_value. destruct (strict_neq _ _); [|done].
    by rewrite State_notify_computeFns.
  - unfold State_push. destruct (State_value s w); simpl; try done.
    by rewrite State_notify_computeFns.
Qed.

Lemma mapped_from_mutate s fn c w m :
  mapped_from s fn c w → mapped_from s fn c (mutate w m).
Proof.
  apply mapped_from_same; [apply mutate_computeFns | apply (proj1 (mutate_step w m))].
Qed.

Lemma mapped_from_State_subscribe s fn c s' l w :
  mapped_from s fn c w → mapped_from s fn c (State_subscribe s' l w).
Proof. apply mapped_from_same; [done|]. simpl. by apply fmap_alter_same. Qed.

Lemma mapped_from_State_unsubscribe s fn c s' l w :
  mapped_from s fn c w → mapped_from s fn c (State_unsubscribe s' l w).
Proof. apply mapped_from_same; [done|]. simpl. by apply fmap_alter_same. Qed.

Lemma mapped_from_ComputedState_subscribe s fn c c' l w :
  mapped_from s fn c w → mapped_from s fn c (ComputedState_subscribe c' l w).
Proof. apply mapped_from_same; [|done]. simpl. by apply fmap_alter_same. Qed.

Lemma mapped_from_ComputedState_unsubscribe s fn c c' l w :
  mapped_from s fn c w → mapped_from s fn c (ComputedState_unsubscribe c' l w).
Proof. apply mapped_from_same; [|done]. simpl. by apply fmap_alter_same. Qed.

Lemma mapped_from_State_new s fn c v w :
  mapped_from s fn c w → mapped_from s fn c (State_new v w).2.
Proof.
  intros [Hc (st & Hst & Hin)]. split; [done|].
  exists st. split; [|done]. simpl. by apply lookup_app_l_Some.
Qed.

Lemma register_keeps this deps s c w :
  (∃ st, states w !! s = Some st ∧ c ∈ st_computedStates st) →
  ∃ st, states (foldl (λ w dep,
                         with_states (alter (st_set_computedStates (Set_add this)) dep) w)
                      w deps) !! s = Some st ∧ c ∈ st_computedStates st.
Proof.
  revert w. induction deps as [|dep deps IH]; intros w Hreg; [done|].
  simpl. apply IH. destruct Hreg as (st & Hst & Hin). simpl.
  destruct (decide (dep = s)) as [->|Hne].
  - rewrite list_lookup_alter_eq, Hst. eexists. split; [done|].
    simpl. apply Set_add_elem. by right.
  - rewrite list_lookup_alter_ne by done. by exists st.
Qed.

Lemma mapped_from_ComputedState_new s fn c computeFn deps w :
  mapped_from s fn c w → mapped_from s fn c (ComputedState_new computeFn deps w).2.
Proof.
  intros [(x & Hx & Hfn) Hreg]. unfold ComputedState_new. cbn [snd]. split.
  - rewrite register_computeds. simpl. exists x. split; [|done].
    by apply lookup_app_l_Some.
  - by apply register_keeps.
Qed.

Lemma chain_store_unregistered : ¬ registered 1 chain_store.
Proof.
  intros (s & st & Hst & Hc). destruct s as [|s]; simpl in Hst; [|done].
  injection Hst as <-. simpl in Hc. apply list_elem_of_singleton in Hc. discriminate.
Qed.

(** C8, witness: [e], which reads the computed cell [d] only, keeps its
    value when [c.value = 7] recomputes [d]. *)
Lemma recompute_is_single_hop_witness :
  computeds (foldl mutate chain_store [MSet 0 (VNum 7)]) !! 1 = computeds chain_store !! 1.
Proof.
  apply (proj2 (proj2 recompute_is_single_hop [MSet 0 (VNum 7)] chain_store) 1).
  exact chain_store_unregistered.
Defined.

(** The values after [c.value = 7]: [d] is 14, [e] is still 11. *)
Example chain_is_stale :
  let w' := State_set_value 0 (VNum 7) chain_store in
  ComputedState_value 0 w' = VNum 14 ∧ ComputedState_value 1 w' = VNum 11.
Proof. by vm_compute. Qed.

(** Scenario A: [c = createCell(0)], a logger subscribed; [c.value = 1]
    calls it once with 1, [c.value = 1] again does not call it. *)
Example scenario_A :
  let w := State_subscribe 0 (UserFn 7) counter_store in
  let w1 := State_set_value 0 (VNum 1) w in
  let w2 := State_set_value 0 (VNum 1) w1 in
  args_of (OfState 0) (UserFn 7) (trace w1) = [VNum 1] ∧ w2 = w1.
Proof. by vm_compute. Qed.

(** Scenario B: [c = createCell(5)], [d = c.map(x => x * 2)]. *)
Example scenario_B :
  ComputedState_value 0 demo_mapped = VNum 10 ∧
  ComputedState_value 0 (State_set_value 0 (VNum 7) demo_mapped) = VNum 14.
Proof. by vm_compute. Qed.

End Cells.

(** ** Passes in which a function throws *)

Section Passes.
Implicit Types (w : Store) (s c : nat) (l : Listener) (v : Value).
Context (behaviour : Callee → Store → Behaviour).

Lemma Source_value_emit src e w : Source_value src (emit e w) = Source_value src w.
Proof. by destruct src. Qed.

Lemma notify_listeners_passive src ls w :
  (∀ l arg w', l ∈ ls → behaviour (CalleeListener src l arg) w' = Passive) →
  notify_listeners behaviour src ls w
  = Some (Returned () (foldl (λ w l, call src l (Source_value src w) w) w ls)).
Proof.
  revert w. induction ls as [|l ls IH]; intros w H; [done|].
  cbn [notify_listeners foldl]. rewrite H by apply list_elem_of_here.
  apply IH. intros l' arg w' Hl'. apply H. by apply list_elem_of_further.
Qed.

(** The listeners before the one that throws are called, it is called, and
    nobody after it. *)
Lemma notify_listeners_raises src before l after msg w :
  (∀ l' arg w', l' ∈ before → behaviour (CalleeListener src l' arg) w' = Passive) →
  (∀ w', behaviour (CalleeListener src l (Source_value src w)) w' = Raises msg) →
  notify_listeners behaviour src (before ++ l :: after) w
  = Some (Thrown msg (foldl (λ w l, call src l (Source_value src w) w) w (before ++ [l]))).
Proof.
  revert w. induction before as [|l0 before IH]; intros w Hp Hr.
  - cbn [app notify_listeners foldl]. by rewrite Hr.
  - cbn [app notify_listeners foldl]. rewrite Hp by apply list_elem_of_here.
    apply IH.
    + intros l' arg w' Hl'. apply Hp. by apply list_elem_of_further.
    + intros w'. unfold call. rewrite Source_value_emit. apply Hr.
Qed.

Lemma ComputedState_recompute_under_passive c w :
  (∀ w', behaviour (CalleeCompute c) w' = Passive) →
  (∀ l arg w', l ∈ ComputedState_listeners c w →
     behaviour (CalleeListener (OfComputed c) l arg) w' = Passive) →
  ComputedState_recompute_under behaviour c w
  = Some (Returned () (ComputedState_recompute c w)).
Proof.
  intros Hc Hl. unfold ComputedState_recompute_under, ComputedState_recompute.
  unfold ComputedState_listeners in Hl.
  destruct (computeds w !! c) as [x|]; [|done]. cbv zeta. rewrite Hc.
  destruct (strict_neq _ _); [|done]. by apply notify_listeners_passive.
Qed.

Lemma recompute_keeps_listeners c c' w :
  ComputedState_listeners c' (ComputedState_recompute c w) = ComputedState_listeners c' w.
Proof.
  unfold ComputedState_listeners. rewrite recompute_computeds.
  destruct (decide (c = c')) as [->|Hne].
  - rewrite list_lookup_alter_eq. by destruct (computeds w !! c').
  - by rewrite list_lookup_alter_ne.
Qed.

Lemma recompute_each_passive cs w :
  (∀ c w', c ∈ cs → behaviour (CalleeCompute c) w' = Passive) →
  (∀ c l arg w', c ∈ cs → l ∈ ComputedState_listeners c w →
     behaviour (CalleeListener (OfComputed c) l arg) w' = Passive) →
  recompute_each behaviour cs w
  = Some (Returned () (foldl (λ w computed, ComputedState_recompute computed w) w cs)).
Proof.
  revert w. induction cs as [|c cs IH]; intros w Hc Hl; [done|].
  cbn [recompute_each foldl]. rewrite ComputedState_recompute_under_passive.
  - apply IH.
    + intros c' w' Hc'. apply Hc. by apply list_elem_of_further.
    + intros c' l arg w' Hc' Hin. rewrite recompute_keeps_listeners in Hin.
      apply Hl; [by apply list_elem_of_further|done].
  - intros w'. apply Hc. apply list_elem_of_here.
  - intros l arg w' Hin. apply Hl; [apply list_elem_of_here|done].
Qed.

(** When every function called is passive, the pass is the one that
    [State_notify] describes. *)
Lemma State_notify_under_passive s w :
  passive_pass behaviour s w →
  State_notify_under behaviour s w = Some (Returned () (State_notify s w)).
Proof.
  intros Hp. unfold State_notify_under, State_notify.
  destruct (states w !! s) as [st|] eqn:Hst; [|done].
  assert (State_listeners s w = st_listeners st) as Hls
    by (unfold State_listeners; by rewrite Hst).
  assert (State_computedStates s w = st_computedStates st) as Hcs
    by (unfold State_computedStates; by rewrite Hst).
  rewrite notify_listeners_passive.
  - apply recompute_each_passive.
    + intros c w' Hc. apply Hp. simpl. by rewrite Hcs.
    + intros c l arg w' Hc Hl. apply Hp. simpl. rewrite Hcs. split; [done|].
      by rewrite (foldl_call _ (State_value s)) in Hl.
  - intros l arg w' Hl. apply Hp. simpl. by rewrite Hls.
Qed.

Lemma passive_pass_with_states s w f :
  (∀ st, st_listeners (f st) = st_listeners st ∧
         st_computedStates (f st) = st_computedStates st) →
  passive_pass behaviour s w → passive_pass behaviour s (with_states (alter f s) w).
Proof.
  intros Hf Hp g w' Hg. apply Hp.
  assert (State_listeners s (with_states (alter f s) w) = State_listeners s w) as Hls.
  { unfold State_listeners. simpl. rewrite list_lookup_alter_eq.
    destruct (states w !! s) as [st|]; [|done]. simpl. by destruct (Hf st) as [-> _]. }
  assert (State_computedStates s (with_states (alter f s) w) = State_computedStates s w)
    as Hcs.
  { unfold State_computedStates. simpl. rewrite list_lookup_alter_eq.
    destruct (states w !! s) as [st|]; [|done]. simpl. by destruct (Hf st) as [_ ->]. }
  destruct g as [[s'|c] l arg|c]; simpl in *.
  - by rewrite Hls in Hg.
  - by rewrite Hcs in Hg.
  - by rewrite Hcs in Hg.
Qed.

Lemma State_set_value_under_passive s v w :
  passive_pass behaviour s w →
  State_set_value_under behaviour s v w = Some (Returned () (State_set_value s v w)).
Proof.
  intros Hp. unfold State_set_value_under, State_set_value.
  destruct (strict_neq _ _); [|done]. apply State_notify_under_passive.
  by apply passive_pass_with_states.
Qed.

Lemma State_push_under_passive s item w :
  passive_pass behaviour s w →
  State_push_under behaviour s item w = Some (State_push s item w).
Proof.
  intros Hp. unfold State_push_under, State_push.
  destruct (State_value s w); try done. by apply State_notify_under_passive.
Qed.

(** A listener of the cell that throws ends the pass. *)
Lemma State_notify_under_raises s st before l after msg w :
  states w !! s = Some st → st_listeners st = before ++ l :: after →
  (∀ l' arg w', l' ∈ before → behaviour (CalleeListener (OfState s) l' arg) w' = Passive) →
  (∀ w', behaviour (CalleeListener (OfState s) l (st_value st)) w' = Raises msg) →
  ∃ w', State_notify_under behaviour s w = Some (Thrown msg w') ∧
    arrays w' = arrays w ∧ states w' = states w ∧ computeds w' = computeds w ∧
    trace w' = trace w ++ calls (OfState s) (st_value st) (snapshot w) (before ++ [l]).
Proof.
  intros Hst Hls Hp Hr. unfold State_notify_under. rewrite Hst, Hls.
  assert (State_value s w = st_value st) as Hv by (unfold State_value; by rewrite Hst).
  rewrite (notify_listeners_raises _ _ _ _ msg) by (done || (simpl; by rewrite Hv)).
  eexists. split; [reflexivity|].
  rewrite (foldl_call _ (Source_value (OfState s))) by done. simpl. by rewrite Hv.
Qed.

(** C1, as the code has it.  Assigning a value that is [!==] to the stored
    one stores it and enters the notify pass.  When every function that the
    pass calls returns and leaves the cells alone, the assignment returns:
    every listener subscribed to the cell has been called exactly once, with
    the new value and with the new value already stored, and after these calls
    [recompute()] has been entered once on every registered computed cell, in
    the order of registration.  When a listener of the cell throws, the pass
    ends there and the exception leaves the assignment, the new value stored:
    the listeners before it and the one that throws have been called, no other
    listener, and no [recompute()] has been entered.  Assigning a value that
    is [===] to the stored one changes nothing: no call, no recomputation. *)
Theorem State_set_value_notifies w s st v :
  store_wf w → states w !! s = Some st →
  (strict_neq v (st_value st) = true →
     (passive_pass behaviour s w →
        ∃ w', State_set_value_under behaviour s v w = Some (Returned () w') ∧
          State_value s w' = v ∧
          ∃ seen rest,
            trace w' = trace w ++ calls (OfState s) v seen (st_listeners st) ++ rest ∧
            snap_states seen !! s = Some v ∧
            (∀ l, args_of (OfState s) l (new_events w w')
                  = if decide (l ∈ st_listeners st) then [v] else []) ∧
            Forall (from_computeds (st_computedStates st)) rest ∧
            recomputes rest = st_computedStates st) ∧
     (∀ before l after msg,
        st_listeners st = before ++ l :: after →
        (∀ l' arg w', l' ∈ before →
           behaviour (CalleeListener (OfState s) l' arg) w' = Passive) →
        (∀ w', behaviour (CalleeListener (OfState s) l v) w' = Raises msg) →
        ∃ w' seen, State_set_value_under behaviour s v w = Some (Thrown msg w') ∧
          State_value s w' = v ∧
          snap_states seen !! s = Some v ∧
          new_events w w' = calls (OfState s) v seen (before ++ [l]))) ∧
  (strict_neq v (st_value st) = false →
     State_set_value_under behaviour s v w = Some (Returned () w)).
Proof.
  intros Hwf Hst.
  assert (State_value s w = st_value st) as Hval by (unfold State_value; by rewrite Hst).
  split; [intros Hneq; split|].
  - intros Hp. rewrite State_set_value_under_passive by done.
    eexists. split; [reflexivity|].
    exact (proj1 (State_set_value_pass w s st v Hwf Hst) Hneq).
  - intros before l after msg Hls Hbefore Hl.
    unfold State_set_value_under. rewrite Hval, Hneq.
    set (w1 := with_states (alter (st_set_value v) s) w).
    assert (states w1 !! s = Some (st_set_value v st)) as Hst1.
    { unfold w1. simpl. by rewrite list_lookup_alter_eq, Hst. }
    destruct (State_notify_under_raises s _ before l after msg w1 Hst1 Hls Hbefore Hl)
      as (w' & Hrun & Ha & Hs & Hc & Htr).
    exists w', (snapshot w1). split; [exact Hrun|]. split; [|split].
    + unfold State_value. by rewrite Hs, Hst1.
    + simpl. by rewrite list_lookup_fmap, list_lookup_alter_eq, Hst.
    + by apply new_events_app.
  - intros Heq. unfold State_set_value_under. by rewrite Hval, Heq.
Qed.

(** C7, as the code has it.  On a cell that holds an array, [push(item)]
    appends the item to that array in place, leaves the stored reference as it
    is, and enters the notify pass without comparing anything.  When every
    function that the pass calls returns and leaves the cells alone, [push]
    returns: every subscriber has been called once, with the same reference
    and with the item already appended, and then [recompute()] has been
    entered on every registered computed cell; assigning that same reference
    with a plain [set] notifies nobody, before the push as after it.  When a
    subscriber throws, the pass ends there and the exception leaves [push],
    the item appended: no later subscriber has been called and no
    [recompute()] has been entered. *)
Theorem State_push_notifies w s st a items item :
  store_wf w → states w !! s = Some st → st_value st = VArr a →
  arrays w !! a = Some items →
  (passive_pass behaviour s w →
     ∃ w', State_push_under behaviour s item w = Some (Returned () w') ∧
       arrays w' !! a = Some (items ++ [item]) ∧
       State_value s w' = VArr a ∧
       (∃ seen rest,
          trace w' = trace w ++ calls (OfState s) (VArr a) seen (st_listeners st) ++ rest ∧
          snap_arrays seen !! a = Some (items ++ [item]) ∧
          (∀ l, args_of (OfState s) l (new_events w w')
                = if decide (l ∈ st_listeners st) then [VArr a] else []) ∧
          Forall (from_computeds (st_computedStates st)) rest ∧
          recomputes rest = st_computedStates st) ∧
       State_set_value_under behaviour s (VArr a) w = Some (Returned () w) ∧
       State_set_value_under behaviour s (VArr a) w' = Some (Returned () w')) ∧
  (∀ before l after msg,
     st_listeners st = before ++ l :: after →
     (∀ l' arg w', l' ∈ before →
        behaviour (CalleeListener (OfState s) l' arg) w' = Passive) →
     (∀ w', behaviour (CalleeListener (OfState s) l (VArr a)) w' = Raises msg) →
     ∃ w' seen, State_push_under behaviour s item w = Some (Thrown msg w') ∧
       arrays w' !! a = Some (items ++ [item]) ∧
       State_value s w' = VArr a ∧
       snap_arrays seen !! a = Some (items ++ [item]) ∧
       new_events w w' = calls (OfState s) (VArr a) seen (before ++ [l])).
Proof.
  intros Hwf Hst Hval Harr.
  assert (State_value s w = VArr a) as Hsv by (unfold State_value; by rewrite Hst).
  split.
  - intros Hp. rewrite State_push_under_passive by done.
    destruct (State_push_pass w s st a items item Hwf Hst Hval Harr)
      as (w' & Hrun & H1 & H2 & H3 & H4 & H5).
    exists w'. rewrite Hrun. split; [done|]. split; [done|]. split; [done|].
    split; [done|].
    unfold State_set_value_under. rewrite Hsv, H2.
    unfold strict_neq, strict_eq. by rewrite bool_decide_eq_true_2.
  - intros before l after msg Hls Hbefore Hl.
    unfold State_push_under. rewrite Hsv.
    set (w1 := with_arrays (alter (λ items0, items0 ++ [item]) a) w).
    assert (states w1 !! s = Some st) as Hst1 by done.
    rewrite <- Hval in Hl.
    destruct (State_notify_under_raises s _ before l after msg w1 Hst1 Hls Hbefore Hl)
      as (w' & Hrun & Ha & Hs & Hc & Htr).
    exists w', (snapshot w1). split; [exact Hrun|]. rewrite Hval in Htr.
    split; [|split; [|split]].
    + rewrite Ha. unfold w1. simpl. by rewrite list_lookup_alter_eq, Harr.
    + unfold State_value. by rewrite Hs, Hst1, <- Hval.
    + simpl. by rewrite list_lookup_alter_eq, Harr.
    + by apply new_events_app.
Qed.

End Passes.

(** C1, witness: [c.value = 7] in the small program, with functions that
    all return. *)
Lemma State_set_value_notifies_witness :
  ∃ w', State_set_value_under all_passive 0 (VNum 7) demo_store = Some (Returned () w') ∧
    State_value 0 w' = VNum 7 ∧
    ∃ seen rest,
      trace w' = trace demo_store
                 ++ calls (OfState 0) (VNum 7) seen [UserFn 1; UserFn 2] ++ rest ∧
      snap_states seen !! 0 = Some (VNum 7) ∧
      (∀ l, args_of (OfState 0) l (new_events demo_store w')
            = if decide (l ∈ [UserFn 1; UserFn 2]) then [VNum 7] else []) ∧
      Forall (from_computeds [0]) rest ∧
      recomputes rest = [0].
Proof.
  apply (proj1 (proj1 (State_set_value_notifies all_passive demo_store 0
                         {| st_value := VNum 5; st_listeners := [UserFn 1; UserFn 2];
                            st_computedStates := [0] |} (VNum 7) demo_store_wf eq_refl)
                  eq_refl)).
  intros f w' _. reflexivity.
Defined.

(** C1, as stated, fails: when the first listener of [c] throws,
    [c.value = 7] calls neither the second listener nor [recompute()] of the
    computed cell. *)
Lemma throwing_listener_ends_pass : ¬ set_always_completes_pass.
Proof.
  intros H.
  destruct (State_set_value_under first_listener_throws 0 (VNum 7) demo_store)
    as [o|] eqn:Hrun; [|vm_compute in Hrun; discriminate Hrun].
  destruct (H first_listener_throws demo_store 0
              {| st_value := VNum 5; st_listeners := [UserFn 1; UserFn 2];
                 st_computedStates := [0] |} (VNum 7) o demo_store_wf eq_refl eq_refl Hrun)
    as [_ Hrec].
  vm_compute in Hrun. injection Hrun as <-. vm_compute in Hrec. discriminate Hrec.
Qed.

(** C7, witness: [todos.push("b")] on [todos = state(["a"])], with functions
    that all return. *)
Lemma State_push_notifies_witness :
  ∃ w', State_push_under all_passive 0 (VStr "b") todo_store = Some (Returned () w') ∧
    arrays w' !! 0 = Some ([VStr "a"] ++ [VStr "b"]) ∧
    State_value 0 w' = VArr 0 ∧
    (∃ seen rest,
       trace w' = trace todo_store ++ calls (OfState 0) (VArr 0) seen [UserFn 1] ++ rest ∧
       snap_arrays seen !! 0 = Some ([VStr "a"] ++ [VStr "b"]) ∧
       (∀ l, args_of (OfState 0) l (new_events todo_store w')
             = if decide (l ∈ [UserFn 1]) then [VArr 0] else []) ∧
       Forall (from_computeds [0]) rest ∧
       recomputes rest = [0]) ∧
    State_set_value_under all_passive 0 (VArr 0) todo_store = Some (Returned () todo_store) ∧
    State_set_value_under all_passive 0 (VArr 0) w' = Some (Returned () w').
Proof.
  apply (proj1 (State_push_notifies all_passive todo_store 0
                  {| st_value := VArr 0; st_listeners := [UserFn 1];
                     st_computedStates := [0] |}
                  0 [VStr "a"] (VStr "b") todo_store_wf eq_refl eq_refl eq_refl)).
  intros f w' _. reflexivity.
Defined.

(** C7, as stated, fails: when the listener of [todos] throws,
    [todos.push("b")] appends the item and never enters [recompute()] of the
    computed cell. *)
Lemma throwing_listener_ends_push : ¬ push_always_completes_pass.
Proof.
  intros H.
  destruct (State_push_under first_listener_throws 0 (VStr "b") todo_store)
    as [o|] eqn:Hrun; [|vm_compute in Hrun; discriminate Hrun].
  destruct (H first_listener_throws todo_store 0
              {| st_value := VArr 0; st_listeners := [UserFn 1];
                 st_computedStates := [0] |} 0 (VStr "b") o todo_store_wf eq_refl eq_refl Hrun)
    as [_ Hrec].
  vm_compute in Hrun. injection Hrun as <-. vm_compute in Hrec. discriminate Hrec.
Qed.

(** ** Bindings *)

Section Conditional.
Implicit Types (d : list Node) (this : ConditionalElement) (seen : Snapshot).

Lemma filter_ne_absent (x : nat) (l : list nat) : x ∉ l → filter (λ y, y ≠ x) l = l.
Proof. apply (Set_delete_absent x l). Qed.

Lemma filter_ne_middle (x : nat) (l1 l2 : list nat) :
  x ∉ l1 → x ∉ l2 → filter (λ y, y ≠ x) (l1 ++ x :: l2) = l1 ++ l2.
Proof.
  intros H1 H2. rewrite filter_app, filter_cons_False by (intros H; apply H; done).
  by rewrite !filter_ne_absent.
Qed.

Lemma NoDup_middle (x : nat) (l1 l2 : list nat) :
  NoDup (l1 ++ x :: l2) ↔ (x ∉ l1) ∧ (x ∉ l2) ∧ NoDup (l1 ++ l2).
Proof.
  rewrite <- Permutation_middle, NoDup_cons, elem_of_app. tauto.
Qed.

Lemma update_fields seen st :
  ce_placeholder (ConditionalElement_update seen st).2 = ce_placeholder st.2 ∧
  ce_conditionFn (ConditionalElement_update seen st).2 = ce_conditionFn st.2 ∧
  ce_elementFn (ConditionalElement_update seen st).2 = ce_elementFn st.2.
Proof.
  destruct st as [d this]. unfold ConditionalElement_update. simpl.
  destruct (ce_conditionFn this seen), (ce_currentElement this); done.
Qed.

(** Nothing to do: the condition holds and a node is mounted, or it fails
    and none is. *)
Lemma update_unchanged seen st :
  (ce_conditionFn st.2 seen = true ↔ is_Some (ce_currentElement st.2)) →
  ConditionalElement_update seen st = st.
Proof.
  destruct st as [d this]. unfold ConditionalElement_update. simpl. intros Hsync.
  destruct (ce_conditionFn this seen), (ce_currentElement this) as [el|]; try done.
  - destruct Hsync as [Hsync _]. destruct (Hsync eq_refl) as [? [=]].
  - destruct Hsync as [_ Hsync]. by specialize (Hsync (mk_is_Some _ _ eq_refl)).
Qed.

(** Mounting. *)
Lemma update_mounts before after seen d this :
  mounted_at before after (d, this) →
  ce_conditionFn this seen = true → ce_currentElement this = None →
  let st' := ConditionalElement_update seen (d, this) in
  ce_currentElement st'.2 = Some (length d) ∧
  length st'.1 = S (length d) ∧
  childNodes body st'.1 = before ++ length d :: ce_placeholder this :: after ∧
  node_markup (length d) st'.1 = Some (ce_elementFn this seen) ∧
  mounted_at before after st'.
Proof.
  intros (Hph & Hch & Hnd & Hlt & Hcur) Hcond Hnone. simpl in *.
  unfold ConditionalElement_update. rewrite Hcond, Hnone. simpl.
  set (ph := ce_placeholder this) in *.
  change (d ++ [_]) with (createNode (ce_elementFn this seen) d).2.
  set (d1 := (createNode (ce_elementFn this seen) d).2).
  rewrite Hnone in Hch. simpl in Hch.
  assert (parentNode ph d1 = Some body) as Hph1
    by (unfold d1; by rewrite (parentNode_createNode ph (ce_elementFn this seen) d)).
  assert (childNodes body d1 = before ++ ph :: after) as Hch1.
  { unfold d1. by rewrite (childNodes_createNode body (ce_elementFn this seen) d). }
  assert (parentNode (length d) d1 = None) as Hel1.
  { unfold d1. rewrite (parentNode_createNode _ (ce_elementFn this seen) d).
    by apply parentNode_out_of_range. }
  assert (length d1 = S (length d)) as Hlen1 by apply length_createNode.
  assert (ph ∈ childNodes body d1) as Href.
  { rewrite Hch1. apply elem_of_app. right. by left. }
  assert (ph < length d) as Hphlt.
  { apply Hlt. rewrite Hch. apply elem_of_app. right. by left. }
  rewrite Hch in Hnd. apply NoDup_middle in Hnd as (Hphb & Hpha & Hnd).
  assert (length d ∉ before ++ ph :: after) as Hfresh.
  { intros Hin. rewrite <- Hch in Hin. specialize (Hlt _ Hin). lia. }
  rewrite Hph1. simpl.
  assert (childNodes body (insertBefore body (length d) ph d1)
          = before ++ length d :: ph :: after) as Hch2.
  { rewrite (childNodes_insertBefore_detached body body) by done.
    rewrite decide_True by done. rewrite Hch1. by apply insert_before_middle. }
  split; [done|]. split; [by rewrite length_insertBefore|].
  split; [exact Hch2|]. split.
  { rewrite node_markup_insertBefore. unfold d1.
    apply (node_markup_createNode_new (ce_elementFn this seen) d). }
  unfold mounted_at. simpl. fold ph. split_and!.
  - rewrite parentNode_insertBefore by (done || lia).
    rewrite decide_False by lia. exact Hph1.
  - by rewrite Hch2.
  - rewrite Hch2. apply NoDup_middle. rewrite elem_of_app in Hfresh.
    split_and!; [tauto | tauto |]. by apply NoDup_middle.
  - intros n Hn. rewrite length_insertBefore, Hlen1. rewrite Hch2 in Hn.
    apply elem_of_app in Hn as [Hn|Hn].
    + assert (n < length d); [|lia]. apply Hlt. rewrite Hch. apply elem_of_app. by left.
    + apply elem_of_cons in Hn as [->|Hn]; [lia|].
      assert (n < length d); [|lia]. apply Hlt. rewrite Hch. apply elem_of_app. by right.
  - intros el [= <-]. rewrite parentNode_insertBefore by (done || lia).
    by rewrite decide_True.
Qed.

(** Unmounting. *)
Lemma update_unmounts before after seen d this el :
  mounted_at before after (d, this) →
  ce_conditionFn this seen = false → ce_currentElement this = Some el →
  let st' := ConditionalElement_update seen (d, this) in
  ce_currentElement st'.2 = None ∧
  length st'.1 = length d ∧
  childNodes body st'.1 = before ++ ce_placeholder this :: after ∧
  parentNode el st'.1 = None ∧
  mounted_at before after st'.
Proof.
  intros (Hph & Hch & Hnd & Hlt & Hcur) Hcond Hsome. simpl in *.
  unfold ConditionalElement_update. rewrite Hcond, Hsome. simpl.
  set (ph := ce_placeholder this) in *.
  rewrite Hsome in Hch. simpl in Hch.
  assert (parentNode el d = Some body) as Hel by (by apply Hcur).
  rewrite Hch in Hnd. apply NoDup_middle in Hnd as (Helb & Hela & Hnd).
  assert (el ≠ ph) as Helph by (intros ->; apply Hela; by left).
  assert (childNodes body (Node_remove el d) = before ++ ph :: after) as Hch2.
  { rewrite childNodes_Node_remove, decide_True by done. rewrite Hch.
    by apply filter_ne_middle. }
  split; [done|]. split; [apply length_Node_remove|]. split; [exact Hch2|].
  split; [by rewrite parentNode_Node_remove, decide_True|].
  unfold mounted_at. simpl. fold ph. split_and!.
  - rewrite parentNode_Node_remove, decide_False by congruence. exact Hph.
  - by rewrite Hch2.
  - by rewrite Hch2.
  - intros n Hn. rewrite length_Node_remove. apply Hlt. rewrite Hch. rewrite Hch2 in Hn.
    apply elem_of_app in Hn as [Hn|Hn]; apply elem_of_app; [by left|].
    right. by right.
  - intros el' [=].
Qed.

Lemma update_step before after seen st :
  mounted_at before after st →
  let st' := ConditionalElement_update seen st in
  mounted_at before after st' ∧
  (is_Some (ce_currentElement st'.2) ↔ ce_conditionFn st.2 seen = true).
Proof.
  destruct st as [d this]. intros Hinv. cbv zeta.
  destruct (ce_conditionFn this seen) eqn:Hcond,
           (ce_currentElement this) as [el|] eqn:Hcur.
  - rewrite update_unchanged; simpl; rewrite ?Hcond, ?Hcur; [done|].
    split; [by eexists | done].
  - pose proof (update_mounts before after seen d this Hinv Hcond Hcur) as H.
    cbv zeta in H. destruct H as (H1 & _ & _ & _ & H5).
    split; [exact H5|]. rewrite H1. simpl. rewrite Hcond. split; [done | by eexists].
  - pose proof (update_unmounts before after seen d this el Hinv Hcond Hcur) as H.
    cbv zeta in H. destruct H as (H1 & _ & _ & _ & H5).
    split; [exact H5|]. rewrite H1. simpl. rewrite Hcond.
    split; [by intros [? [=]] | done].
  - rewrite update_unchanged; simpl; rewrite ?Hcond, ?Hcur; [|done].
    split; [done|]. split; [by intros [? [=]] | done].
Qed.

Lemma ConditionalElement_init_mounted conditionFn elementFn dependencies d :
  body_ok d →
  mounted_at (childNodes body d) []
             (ConditionalElement_init conditionFn elementFn dependencies d).
Proof.
  intros (Hd & Hnd & Hlt). unfold ConditionalElement_init, mounted_at. simpl.
  change (d ++ [_])
    with (createNode {| mk_kind := CommentNode; mk_text := "conditional" |} d).2.
  set (mk := {| mk_kind := CommentNode; mk_text := "conditional" |}).
  set (d1 := (createNode mk d).2).
  assert (length d1 = S (length d)) as Hlen1 by apply length_createNode.
  assert (parentNode (length d) d1 = None) as Hfresh.
  { unfold d1. rewrite parentNode_createNode. by apply parentNode_out_of_range. }
  assert (childNodes body (appendChild body (length d) d1)
          = childNodes body d ++ [length d]) as Hch.
  { rewrite childNodes_appendChild_detached by (done || (unfold body; lia)).
    rewrite decide_True by done. unfold d1. by rewrite childNodes_createNode. }
  split_and!.
  - rewrite parentNode_appendChild by lia. by rewrite decide_True.
  - by rewrite Hch.
  - rewrite Hch. apply NoDup_app. split_and!; [done | | apply NoDup_singleton].
    intros x Hx Hx'. apply list_elem_of_singleton in Hx' as ->.
    specialize (Hlt _ Hx). lia.
  - intros n Hn. rewrite length_appendChild, Hlen1. rewrite Hch in Hn.
    apply elem_of_app in Hn as [Hn|Hn].
    + specialize (Hlt _ Hn). lia.
    + apply list_elem_of_singleton in Hn as ->. lia.
  - intros el [=].
Qed.

Lemma ConditionalElement_new_state conditionFn elementFn dependencies w d :
  let new := ConditionalElement_new conditionFn elementFn dependencies w d in
  (new.2, new.1.1) =
  ConditionalElement_update (snapshot w)
    (ConditionalElement_init conditionFn elementFn dependencies d).
Proof.
  cbv zeta. unfold ConditionalElement_new.
  by destruct (ConditionalElement_update _ _).
Qed.

(** What holds in every state the binding reaches. *)
Lemma ConditionalElement_reaches_inv conditionFn elementFn dependencies st last :
  ConditionalElement_reaches conditionFn elementFn dependencies st last →
  (∃ before after, mounted_at before after st) ∧
  ce_conditionFn st.2 = conditionFn ∧
  ce_elementFn st.2 = elementFn ∧
  (is_Some (ce_currentElement st.2) ↔ conditionFn last = true).
Proof.
  induction 1 as [d first Hok|st last seen Hreach (Hm & Hc & He & Hs)
                 |st last d' before after Hreach (Hm & Hc & He & Hs) Hm'].
  - pose proof (ConditionalElement_init_mounted conditionFn elementFn dependencies d Hok)
      as Hinit.
    destruct (update_step _ _ first _ Hinit) as [H1 H2].
    destruct (update_fields first
      (ConditionalElement_init conditionFn elementFn dependencies d)) as (_ & F2 & F3).
    split_and!; [by eexists _, _ | done | done | done].
  - destruct Hm as (before & after & Hm).
    destruct (update_step _ _ seen st Hm) as [H1 H2].
    destruct (update_fields seen st) as (_ & F2 & F3).
    rewrite Hc in H2. split_and!; [by eexists _, _ | congruence | congruence | done].
  - split_and!; [by eexists _, _ | done | done | done].
Qed.

(** The next notification, from a state in which the binding is mounted
    exactly when the condition held last. *)
Lemma update_next before after conditionFn elementFn (held : bool) seen d this :
  mounted_at before after (d, this) →
  ce_conditionFn this = conditionFn → ce_elementFn this = elementFn →
  (is_Some (ce_currentElement this) ↔ held = true) →
  let st' := ConditionalElement_update seen (d, this) in
  let ph := ce_placeholder this in
  mounted_at before after st' ∧
  ce_placeholder st'.2 = ph ∧
  (held = false → conditionFn seen = true →
     ce_currentElement this = None ∧
     ce_currentElement st'.2 = Some (length d) ∧
     length st'.1 = S (length d) ∧
     childNodes body st'.1 = before ++ length d :: ph :: after ∧
     node_markup (length d) st'.1 = Some (elementFn seen)) ∧
  (held = true → conditionFn seen = false →
     ∃ el, ce_currentElement this = Some el ∧
           ce_currentElement st'.2 = None ∧
           childNodes body st'.1 = before ++ ph :: after ∧
           parentNode el st'.1 = None) ∧
  (conditionFn seen = held → st' = (d, this)).
Proof.
  intros Hinv <- <- Hsync. cbv zeta.
  destruct (update_step _ _ seen (d, this) Hinv) as [U1 _].
  destruct (update_fields seen (d, this)) as (F1 & _ & _).
  split_and!; [exact U1 | exact F1 | | |].
  - intros -> Hnow.
    assert (ce_currentElement this = None) as Hcur.
    { destruct (ce_currentElement this) eqn:Hc; [|done].
      destruct Hsync as [Hsync _]. discriminate Hsync. by eexists. }
    pose proof (update_mounts _ _ seen d this Hinv Hnow Hcur) as M. cbv zeta in M.
    destruct M as (M1 & M2 & M3 & M4 & _). done.
  - intros -> Hnow.
    destruct Hsync as [_ Hsync]. destruct (Hsync eq_refl) as [el Hcur].
    pose proof (update_unmounts _ _ seen d this el Hinv Hnow Hcur) as M. cbv zeta in M.
    destruct M as (M1 & _ & M3 & M4 & _). exists el. done.
  - intros Hsame. apply update_unchanged. cbn [snd]. rewrite Hsame.
    split; apply Hsync.
Qed.

(** C5.  The states of a conditional binding are those it reaches by its
    construction, by notifications, and by changes that other code makes to
    the document without touching the placeholder or the mounted node.  In
    every such state the children of the body are some nodes [before], then
    the one node the binding has mounted, if it has one, then the
    placeholder, then some nodes [after]: at most one node is mounted, and it
    sits right before the placeholder.  A node is mounted exactly when the
    condition held at the last evaluation.  The next notification leaves
    [before], the placeholder and [after] as they are, and: if the condition
    was false and is true, one new node, made by the render function, is
    inserted right before the placeholder; if it was true and is false, the
    mounted node is removed and the reference cleared; if its truth value is
    the same, the document and the binding are left exactly as they were. *)
Theorem ConditionalElement_state_machine conditionFn elementFn dependencies st seen_last :
  ConditionalElement_reaches conditionFn elementFn dependencies st seen_last →
  ∃ before after,
    mounted_at before after st ∧
    (is_Some (ce_currentElement st.2) ↔ conditionFn seen_last = true) ∧
    ∀ seen,
      let st' := ConditionalElement_update seen st in
      let ph := ce_placeholder st.2 in
      mounted_at before after st' ∧
      ce_placeholder st'.2 = ph ∧
      (conditionFn seen_last = false → conditionFn seen = true →
         ce_currentElement st.2 = None ∧
         ce_currentElement st'.2 = Some (length st.1) ∧
         length st'.1 = S (length st.1) ∧
         childNodes body st'.1 = before ++ length st.1 :: ph :: after ∧
         node_markup (length st.1) st'.1 = Some (elementFn seen)) ∧
      (conditionFn seen_last = true → conditionFn seen = false →
         ∃ el, ce_currentElement st.2 = Some el ∧
               ce_currentElement st'.2 = None ∧
               childNodes body st'.1 = before ++ ph :: after ∧
               parentNode el st'.1 = None) ∧
      (conditionFn seen = conditionFn seen_last → st' = st).
Proof.
  intros Hreach.
  destruct (ConditionalElement_reaches_inv _ _ _ _ _ Hreach)
    as ((before & after & Hm) & Hc & He & Hs).
  exists before, after. split; [done|]. split; [done|].
  intros seen. destruct st as [d this]. by apply update_next.
Qed.

(** *** What other code may do

    Creating a node, appending or inserting a new node anywhere but right
    before the placeholder, and removing a node that is neither the
    placeholder nor the mounted node leave the binding in place.  The
    [update] of another conditional binding is made of such steps. *)

Lemma insert_before_absent (c ref : nat) (l : list nat) :
  ref ∉ l → insert_before c ref l = l.
Proof.
  induction l as [|x l IH]; intros Hnot; [done|]. simpl.
  rewrite decide_False by (intros ->; apply Hnot; left).
  f_equal. apply IH. intros Hin. apply Hnot. by right.
Qed.

Lemma insert_before_app_l (c ref : nat) (l1 l2 : list nat) :
  ref ∈ l1 → insert_before c ref (l1 ++ l2) = insert_before c ref l1 ++ l2.
Proof.
  induction l1 as [|x l1 IH]; intros Hin; [by apply elem_of_nil in Hin|]. simpl.
  case_decide; [done|]. simpl. f_equal. apply IH.
  apply elem_of_cons in Hin as [->|Hin]; done.
Qed.

Lemma insert_before_app_r (c ref : nat) (l1 l2 : list nat) :
  ref ∉ l1 → insert_before c ref (l1 ++ l2) = l1 ++ insert_before c ref l2.
Proof.
  induction l1 as [|x l1 IH]; intros Hnot; [done|]. simpl.
  rewrite decide_False by (intros ->; apply Hnot; left).
  f_equal. apply IH. intros Hin. apply Hnot. by right.
Qed.

Lemma insert_before_perm (c ref : nat) (l : list nat) :
  ref ∈ l → insert_before c ref l ≡ₚ c :: l.
Proof.
  induction l as [|x l IH]; intros Hin; [by apply elem_of_nil in Hin|]. simpl.
  case_decide as Heq; [done|].
  apply elem_of_cons in Hin as [->|Hin]; [done|].
  rewrite IH by done. apply Permutation_swap.
Qed.

(** Inserting before a reference that is not the placeholder keeps the
    shape of the list around the placeholder. *)
Lemma insert_before_shape (c ref ph : nat) (before after : list nat) (cur : option nat) :
  ref ≠ ph →
  ∃ before' after',
    insert_before c ref (before ++ option_list cur ++ ph :: after)
    = before' ++ option_list cur ++ ph :: after'.
Proof.
  intros Hne. destruct (decide (ref ∈ before)) as [Hin|Hnot].
  - rewrite insert_before_app_l by done. by eexists _, _.
  - rewrite insert_before_app_r by done. destruct cur as [el|]; simpl.
    + destruct (decide (el = ref)) as [->|Hne'].
      * exists (before ++ [c]), after. by rewrite <- app_assoc.
      * rewrite decide_False by congruence. by exists before, (insert_before c ref after).
    + rewrite decide_False by congruence. by exists before, (insert_before c ref after).
Qed.

Lemma filter_shape (n ph : nat) (before after : list nat) (cur : option nat) :
  n ≠ ph → cur ≠ Some n →
  filter (λ y, y ≠ n) (before ++ option_list cur ++ ph :: after)
  = filter (λ y, y ≠ n) before ++ option_list cur ++ ph :: filter (λ y, y ≠ n) after.
Proof.
  intros Hph Hcur. rewrite filter_app. f_equal. destruct cur as [el|]; simpl.
  - rewrite filter_cons_True by congruence. f_equal.
    by rewrite filter_cons_True by congruence.
  - by rewrite filter_cons_True by congruence.
Qed.

Lemma mounted_at_body before after d this :
  mounted_at before after (d, this) → body < length d.
Proof.
  intros (_ & Hch & _). simpl in Hch. destruct (decide (body < length d)); [done|].
  rewrite childNodes_out_of_range in Hch by lia.
  symmetry in Hch. apply app_eq_nil in Hch as [_ Hch].
  apply app_eq_nil in Hch as [_ Hch]. done.
Qed.

Lemma mounted_at_nodes before after d this :
  mounted_at before after (d, this) →
  ce_placeholder this < length d ∧
  ∀ el, ce_currentElement this = Some el → el < length d.
Proof.
  intros (_ & Hch & _ & Hlt & _). simpl in *. split.
  - apply Hlt. rewrite Hch. rewrite !elem_of_app. right. right. by left.
  - intros el Hel. apply Hlt. rewrite Hch, Hel. rewrite !elem_of_app. right. left. by left.
Qed.

Lemma createNode_undisturbs before after d this m :
  mounted_at before after (d, this) →
  mounted_at before after ((createNode m d).2, this).
Proof.
  intros (Hph & Hch & Hnd & Hlt & Hcur). unfold mounted_at. cbn [fst snd] in *.
  rewrite parentNode_createNode, childNodes_createNode, length_createNode.
  split_and!; try done.
  - intros n Hn. specialize (Hlt n Hn). lia.
  - intros el Hel. rewrite parentNode_createNode. by apply Hcur.
Qed.

Lemma append_fresh_undisturbs before after d this m p :
  mounted_at before after (d, this) → p < length d →
  ∃ after', mounted_at before after' (appendChild p (length d) (createNode m d).2, this).
Proof.
  intros Hm Hp. destruct (mounted_at_nodes _ _ _ _ Hm) as [Hphlt Hcurlt].
  destruct Hm as (Hph & Hch & Hnd & Hlt & Hcur). cbn [fst snd] in *.
  set (d1 := (createNode m d).2).
  assert (length d1 = S (length d)) as Hlen1 by apply length_createNode.
  assert (parentNode (length d) d1 = None) as Hfresh.
  { unfold d1. rewrite parentNode_createNode. by apply parentNode_out_of_range. }
  assert (length d ∉ childNodes body d) as Hnew.
  { intros Hin. specialize (Hlt _ Hin). lia. }
  assert (∀ q, childNodes q (appendChild p (length d) d1)
               = if decide (q = p) then childNodes p d ++ [length d] else childNodes q d)
    as Hchildren.
  { intros q. rewrite childNodes_appendChild_detached by (done || lia).
    unfold d1. by rewrite !childNodes_createNode. }
  assert (∀ n, n < length d → parentNode n (appendChild p (length d) d1) = parentNode n d)
    as Hparents.
  { intros n Hn. rewrite parentNode_appendChild by lia. rewrite decide_False by lia.
    unfold d1. by rewrite parentNode_createNode. }
  exists (if decide (body = p) then after ++ [length d] else after).
  unfold mounted_at. cbn [fst snd]. rewrite Hchildren, length_appendChild, Hlen1.
  rewrite Hparents by done. case_decide as Hbody.
  - subst p. rewrite Hch. split_and!.
    + done.
    + by rewrite <- !app_assoc.
    + rewrite <- Hch. apply NoDup_app. split_and!; [done | | apply NoDup_singleton].
      intros x Hx ->%list_elem_of_singleton. done.
    + intros n [Hn| ->%list_elem_of_singleton]%elem_of_app; [|lia].
      rewrite <- Hch in Hn. specialize (Hlt _ Hn). lia.
    + intros el Hel. rewrite Hparents by (by apply Hcurlt). by apply Hcur.
  - split_and!; try done.
    + intros n Hn. specialize (Hlt _ Hn). lia.
    + intros el Hel. rewrite Hparents by (by apply Hcurlt). by apply Hcur.
Qed.

Lemma insert_fresh_undisturbs before after d this m p ref :
  mounted_at before after (d, this) → ref ≠ ce_placeholder this →
  ∃ before' after',
    mounted_at before' after' (insertBefore p (length d) ref (createNode m d).2, this).
Proof.
  intros Hm Href. destruct (mounted_at_nodes _ _ _ _ Hm) as [Hphlt Hcurlt].
  pose proof (createNode_undisturbs _ _ _ _ m Hm) as Hm1.
  destruct Hm as (Hph & Hch & Hnd & Hlt & Hcur). cbn [fst snd] in *.
  set (d1 := (createNode m d).2) in *.
  destruct (decide (ref ∈ childNodes p d1)) as [Hin|Hnot].
  2:{ unfold insertBefore. rewrite decide_False by done. by exists before, after. }
  assert (length d1 = S (length d)) as Hlen1 by apply length_createNode.
  assert (parentNode (length d) d1 = None) as Hfresh.
  { unfold d1. rewrite parentNode_createNode. by apply parentNode_out_of_range. }
  assert (length d ∉ childNodes body d) as Hnew.
  { intros Hin'. specialize (Hlt _ Hin'). lia. }
  assert (∀ n, n < length d → parentNode n (insertBefore p (length d) ref d1)
                              = parentNode n d) as Hparents.
  { intros n Hn. rewrite parentNode_insertBefore by (done || lia).
    rewrite decide_False by lia. unfold d1. by rewrite parentNode_createNode. }
  assert (childNodes body (insertBefore p (length d) ref d1)
          = if decide (body = p) then insert_before (length d) ref (childNodes body d)
            else childNodes body d) as Hchildren.
  { rewrite childNodes_insertBefore_detached by done.
    case_decide as Hbody; [subst p|]; unfold d1; by rewrite childNodes_createNode. }
  destruct (decide (body = p)) as [<-|Hbody].
  - unfold d1 in Hin. rewrite childNodes_createNode in Hin.
    destruct (insert_before_shape (length d) ref (ce_placeholder this) before after
                (ce_currentElement this) Href) as (before' & after' & Hshape).
    rewrite <- Hch in Hshape.
    exists before', after'. unfold mounted_at. cbn [fst snd].
    rewrite Hchildren, length_insertBefore, Hlen1, Hparents by done.
    split_and!.
    + done.
    + done.
    + rewrite insert_before_perm by done. by apply NoDup_cons.
    + intros n Hn. rewrite insert_before_perm in Hn by done.
      apply elem_of_cons in Hn as [->|Hn]; [lia|]. specialize (Hlt _ Hn). lia.
    + intros el Hel. rewrite Hparents by (by apply Hcurlt). by apply Hcur.
  - exists before, after. unfold mounted_at. cbn [fst snd].
    rewrite Hchildren, length_insertBefore, Hlen1, Hparents by done.
    split_and!; try done.
    + intros n Hn. specialize (Hlt _ Hn). lia.
    + intros el Hel. rewrite Hparents by (by apply Hcurlt). by apply Hcur.
Qed.

Lemma remove_undisturbs before after d this n :
  mounted_at before after (d, this) →
  n ≠ ce_placeholder this → ce_currentElement this ≠ Some n →
  ∃ before' after', mounted_at before' after' (Node_remove n d, this).
Proof.
  intros (Hph & Hch & Hnd & Hlt & Hcur) Hnph Hncur. cbn [fst snd] in *.
  assert (∀ q, q ≠ n → parentNode q (Node_remove n d) = parentNode q d) as Hparents.
  { intros q Hq. by rewrite parentNode_Node_remove, decide_False. }
  exists (if decide (parentNode n d = Some body) then filter (λ y, y ≠ n) before else before),
         (if decide (parentNode n d = Some body) then filter (λ y, y ≠ n) after else after).
  unfold mounted_at. cbn [fst snd].
  rewrite childNodes_Node_remove, length_Node_remove, Hparents by congruence.
  case_decide as Hpar.
  - split_and!.
    + done.
    + rewrite Hch. by apply filter_shape.
    + by apply NoDup_filter.
    + intros x [_ Hx]%list_elem_of_filter. by apply Hlt.
    + intros el Hel. rewrite Hparents by congruence. by apply Hcur.
  - split_and!; try done.
    intros el Hel. rewrite Hparents by congruence. by apply Hcur.
Qed.

(** The [update] of another conditional binding. *)
Lemma other_update_undisturbs before after d this other seen :
  mounted_at before after (d, this) →
  ce_placeholder other ≠ ce_placeholder this →
  ce_currentElement other ≠ Some (ce_placeholder this) →
  (∀ el, ce_currentElement other = Some el → ce_currentElement this ≠ Some el) →
  ∃ before' after',
    mounted_at before' after' ((ConditionalElement_update seen (d, other)).1, this).
Proof.
  intros Hm Hph Hcurph Hcur. unfold ConditionalElement_update, createNode.
  destruct (ce_conditionFn other seen), (ce_currentElement other) as [el|] eqn:Hel;
    cbn [fst snd]; try by exists before, after.
  - change (d ++ [_]) with (createNode (ce_elementFn other seen) d).2.
    destruct (parentNode (ce_placeholder other) (createNode (ce_elementFn other seen) d).2)
      as [p|].
    + by apply (insert_fresh_undisturbs before after).
    + exists before, after. by apply createNode_undisturbs.
  - apply (remove_undisturbs before after); [done | congruence | by apply Hcur].
Qed.

Lemma body_ok_empty_document : body_ok empty_document.
Proof.
  split_and!; [simpl; lia | constructor | by intros n ?%elem_of_nil].
Qed.

(** The binding that [new ConditionalElement] returns, and what it becomes
    under notifications, are reached states. *)
Lemma ConditionalElement_run_reaches conditionFn elementFn dependencies d
    (notifications : list Snapshot) (first seen_last : Snapshot) :
  body_ok d →
  last (first :: notifications) = Some seen_last →
  ConditionalElement_reaches conditionFn elementFn dependencies
    (ConditionalElement_run notifications
       (ConditionalElement_update first
          (ConditionalElement_init conditionFn elementFn dependencies d)))
    seen_last.
Proof.
  intros Hok. revert seen_last.
  induction notifications as [|seen notifications IH] using rev_ind; intros seen_last Hlast.
  - simpl in Hlast. injection Hlast as <-. by apply ce_constructed.
  - rewrite app_comm_cons, last_snoc in Hlast. injection Hlast as <-.
    unfold ConditionalElement_run. rewrite foldl_snoc.
    destruct (last (first :: notifications)) as [prev|] eqn:Hprev.
    2:{ apply last_None in Hprev. done. }
    eapply ce_notified. by apply IH.
Qed.

Lemma ConditionalElement_new_reaches conditionFn elementFn dependencies w d :
  body_ok d →
  let new := ConditionalElement_new conditionFn elementFn dependencies w d in
  ConditionalElement_reaches conditionFn elementFn dependencies
    (new.2, new.1.1) (snapshot w).
Proof.
  intros Hok. cbv zeta. rewrite ConditionalElement_new_state. by apply ce_constructed.
Qed.

(** C5, witness: [c.when(c => c > 5, () => p("big"))] on [c = state(0)],
    then the notification of [c.value = 10]. *)
Lemma ConditionalElement_state_machine_witness :
  let seen10 := snapshot (State_set_value 0 (VNum 10) counter_binding.1.2) in
  let st := ConditionalElement_update seen10 (counter_binding.2, counter_binding.1.1) in
  ∃ before after, mounted_at before after st ∧ is_Some (ce_currentElement st.2).
Proof.
  intros seen10 st.
  destruct (ConditionalElement_state_machine
              (λ seen, greater_than_5 (default VUndefined (snap_states seen !! 0)))
              (paragraph "big") [0] st seen10) as (before & after & H1 & H2 & _).
  - apply ce_notified with (last := snapshot counter_store).
    apply (ConditionalElement_new_reaches _ _ [0] counter_store empty_document
             body_ok_empty_document).
  - exists before, after. split; [exact H1 | by apply H2].
Defined.


(** Delivering recorded calls to the binding is running [update] on some of
    them: what the binding does with a trace is a sequence of notifications. *)
Lemma ConditionalElement_deliver_run (evs : list Event) st :
  ∃ notifications,
    foldl ConditionalElement_deliver st evs = ConditionalElement_run notifications st.
Proof.
  revert st. induction evs as [|e evs IH]; intros st; [by exists []|].
  simpl. destruct (IH (ConditionalElement_deliver st e)) as [ns Hns]. rewrite Hns.
  destruct e as [src [name|ph k|c] arg seen|c]; simpl; try by exists ns.
  case_decide; [by exists (seen :: ns) | by exists ns].
Qed.

(** Scenario D: condition [c.value > 5] on [c = 0] starts unmounted;
    [c.value = 10] mounts the node right before the placeholder;
    [c.value = 3] unmounts it and leaves the placeholder. *)
Example scenario_D :
  let '(binding, w, d) := counter_binding in
  let w1 := State_set_value 0 (VNum 10) w in
  let st1 := foldl ConditionalElement_deliver (d, binding) (new_events w w1) in
  let w2 := State_set_value 0 (VNum 3) w1 in
  let st2 := foldl ConditionalElement_deliver st1 (new_events w1 w2) in
  (ce_currentElement binding = None ∧ childNodes body d = [1]) ∧
  (ce_currentElement st1.2 = Some 2 ∧ childNodes body st1.1 = [2; 1]) ∧
  (ce_currentElement st2.2 = None ∧ childNodes body st2.1 = [1] ∧
   parentNode 2 st2.1 = None).
Proof. by vm_compute. Qed.

End Conditional.


Section Iterated.
Implicit Types (d : list Node) (this : IteratedElements) (seen : Snapshot).

Lemma filter_not_in_self (l : list nat) : filter (λ x, x ∉ l) l = [].
Proof.
  assert (∀ l', l' ⊆ l → filter (λ x, x ∉ l) l' = []) as H.
  { induction l' as [|x l' IH]; intros Hsub; [done|].
    rewrite filter_cons_False.
    - apply IH. intros y Hy. apply Hsub. by right.
    - intros Hnot. apply Hnot, Hsub. by left. }
  by apply H.
Qed.

Lemma filter_filter_not_in (x : nat) (els l : list nat) :
  filter (λ y, y ∉ els) (filter (λ y, y ≠ x) l) = filter (λ y, y ∉ x :: els) l.
Proof.
  induction l as [|y l IH]; [done|].
  destruct (decide (y = x)) as [->|Hne].
  - rewrite (filter_cons_False (λ y, y ≠ x)) by (intros H; by apply H).
    rewrite (filter_cons_False (λ y, y ∉ x :: els)) by (intros H; apply H; by left).
    exact IH.
  - rewrite (filter_cons_True (λ y, y ≠ x)) by done.
    destruct (decide (y ∈ els)) as [Hin|Hnin].
    + rewrite (filter_cons_False (λ y, y ∉ els)) by (intros H; by apply H).
      rewrite (filter_cons_False (λ y, y ∉ x :: els)) by (intros H; apply H; by right).
      exact IH.
    + rewrite (filter_cons_True (λ y, y ∉ els)) by done.
      rewrite (filter_cons_True (λ y, y ∉ x :: els)).
      * by rewrite IH.
      * intros [?|?]%elem_of_cons; done.
Qed.

(** [this.elements.forEach(el => el.remove())] *)
Lemma remove_all c (els : list nat) d :
  NoDup els → (∀ el, el ∈ els → parentNode el d = Some c) →
  let d' := foldl (λ d el, Node_remove el d) d els in
  length d' = length d ∧
  childNodes c d' = filter (λ x, x ∉ els) (childNodes c d) ∧
  (∀ el, el ∈ els → parentNode el d' = None) ∧
  (∀ n, n ∉ els → parentNode n d' = parentNode n d) ∧
  (∀ n, node_markup n d' = node_markup n d).
Proof.
  intros Hnd. revert d. induction Hnd as [|el els Hnot Hnd IH]; intros d Hpar; cbv zeta.
  { simpl. split_and!; try done.
    - induction (childNodes c d) as [|x l IHl]; [done|].
      rewrite filter_cons_True by (by intros ?%elem_of_nil). by f_equal.
    - by intros el ?%elem_of_nil. }
  simpl.
  assert (parentNode el d = Some c) as Hel by (apply Hpar; by left).
  destruct (IH (Node_remove el d)) as (I1 & I2 & I3 & I4 & I5).
  { intros el' Hin. rewrite parentNode_Node_remove, decide_False.
    - apply Hpar. by right.
    - intros ->. done. }
  split_and!.
  - by rewrite I1, length_Node_remove.
  - rewrite I2, childNodes_Node_remove, decide_True by done.
    apply filter_filter_not_in.
  - intros el' [->|Hin]%elem_of_cons; [|by apply I3].
    rewrite I4 by done. by rewrite parentNode_Node_remove, decide_True.
  - intros n Hn. rewrite I4.
    + rewrite parentNode_Node_remove, decide_False; [done|].
      intros ->. apply Hn. by left.
    + intros Hin. apply Hn. by right.
  - intros n. by rewrite I5, node_markup_Node_remove.
Qed.

(** [currentItems.forEach((item, index) => ...)] *)
Lemma render_items_spec renderFn c (items : list Value) index d (acc : list nat) :
  c < length d →
  let r := render_items renderFn c index items (d, acc) in
  length r.1 = length d + length items ∧
  r.2 = acc ++ seq (length d) (length items) ∧
  childNodes c r.1 = childNodes c d ++ seq (length d) (length items) ∧
  (∀ i item, items !! i = Some item →
     node_markup (length d + i) r.1 = Some (renderFn item (index + i)) ∧
     parentNode (length d + i) r.1 = Some c) ∧
  (∀ n, n < length d → parentNode n r.1 = parentNode n d).
Proof.
  revert index d acc. induction items as [|item items IH]; intros index d acc Hc; cbv zeta.
  { simpl. rewrite !app_nil_r. split_and!; try done; lia. }
  simpl.
  change (d ++ [_]) with (createNode (renderFn item index) d).2.
  set (d1 := (createNode (renderFn item index) d).2).
  set (d2 := appendChild c (length d) d1).
  assert (length d1 = S (length d)) as Hlen1 by apply length_createNode.
  assert (length d2 = S (length d)) as Hlen2 by (unfold d2; by rewrite length_appendChild).
  assert (parentNode (length d) d1 = None) as Hfresh.
  { unfold d1. rewrite parentNode_createNode. by apply parentNode_out_of_range. }
  assert (childNodes c d2 = childNodes c d ++ [length d]) as Hch2.
  { unfold d2. rewrite childNodes_appendChild_detached by (done || lia).
    rewrite decide_True by done. unfold d1. by rewrite childNodes_createNode. }
  assert (∀ n, parentNode n d2 = if decide (n = length d) then Some c else parentNode n d)
    as Hpar2.
  { intros n. unfold d2. rewrite parentNode_appendChild by lia.
    case_decide; [done|]. unfold d1. by rewrite parentNode_createNode. }
  assert (node_markup (length d) d2 = Some (renderFn item index)) as Hmk2.
  { unfold d2. rewrite node_markup_appendChild. apply node_markup_createNode_new. }
  destruct (IH (S index) d2 (acc ++ [length d])) as (I1 & I2 & I3 & I4 & I5); [lia|].
  rewrite Hlen2 in I1, I2, I3, I4.
  assert (∀ n, n < length d2 →
            node_markup n (render_items renderFn c (S index) items
                             (d2, acc ++ [length d])).1 = node_markup n d2) as Hmk.
  { clear. generalize (S index) as k. generalize (acc ++ [length d]) as acc'.
    generalize d2 as d0. induction items as [|it items IHi]; intros d0 acc' k n Hn; [done|].
    simpl. rewrite IHi.
    - rewrite node_markup_appendChild.
      by apply (node_markup_createNode_old n (renderFn it k) d0).
    - rewrite length_appendChild, length_app. simpl. lia. }
  split_and!.
  - rewrite I1. lia.
  - rewrite I2, <- app_assoc. done.
  - rewrite I3, Hch2, <- app_assoc. done.
  - intros i it Hit. destruct i as [|i]; simpl in Hit.
    + injection Hit as <-. rewrite !Nat.add_0_r. split.
      * rewrite Hmk by lia. exact Hmk2.
      * rewrite I5 by lia. rewrite Hpar2. by rewrite decide_True.
    + destruct (I4 i it Hit) as [J1 J2].
      replace (length d + S i) with (S (length d) + i) by lia.
      replace (index + S i) with (S index + i) by lia. done.
  - intros n Hn. rewrite I5 by lia. rewrite Hpar2. rewrite decide_False by lia. done.
Qed.

(** One render pass from a state in which the tracked elements are the
    children of the container. *)
Lemma render_spec seen d this (its : list Value) :
  list_mounted (d, this) →
  currentItems (ie_items this) seen = Some its →
  ∃ st', IteratedElements_render seen (d, this) = Returned () st' ∧
    ie_elements st'.2 = seq (length d) (length its) ∧
    length st'.1 = length d + length its ∧
    (∀ i item, its !! i = Some item →
       node_markup (length d + i) st'.1 = Some (ie_renderFn this item i) ∧
       parentNode (length d + i) st'.1 = Some (ie_container this)) ∧
    childNodes (ie_container this) st'.1 = ie_elements st'.2 ∧
    (∀ el, el ∈ ie_elements this → parentNode el st'.1 = None) ∧
    ie_container st'.2 = ie_container this ∧
    ie_items st'.2 = ie_items this ∧
    ie_renderFn st'.2 = ie_renderFn this.
Proof.
  intros (Hc & Hch & Hnd & Hels) Hits. simpl in *.
  unfold IteratedElements_render. simpl. rewrite Hits.
  set (c := ie_container this) in *.
  pose proof (remove_all c (ie_elements this) d Hnd (λ el Hin, proj2 (Hels el Hin))) as R.
  cbv zeta in R. destruct R as (R1 & R2 & R3 & R4 & R5).
  set (d1 := foldl (λ d el, Node_remove el d) d (ie_elements this)) in *.
  rewrite Hch, filter_not_in_self in R2.
  pose proof (render_items_spec (ie_renderFn this) c its 0 d1 []) as S.
  cbv zeta in S. destruct S as (S1 & S2 & S3 & S4 & S5); [lia|].
  destruct (render_items (ie_renderFn this) c 0 its (d1, [])) as [d2 els2] eqn:Hr.
  simpl in *. rewrite R1 in *. rewrite R2 in S3. simpl in S3.
  eexists. split; [reflexivity|]. simpl. split_and!; try done.
  - by rewrite S3.
  - intros el Hel. destruct (Hels el Hel) as [Hlt _].
    rewrite S5 by done. by apply R3.
Qed.

Lemma render_mounted seen d this (its : list Value) st' :
  list_mounted (d, this) →
  currentItems (ie_items this) seen = Some its →
  IteratedElements_render seen (d, this) = Returned () st' →
  list_mounted st'.
Proof.
  intros Hinv Hits Hr.
  destruct (render_spec seen d this its Hinv Hits)
    as (st0 & Hr0 & E1 & E2 & E3 & E4 & E5 & E6 & _).
  assert (st0 = st') as -> by congruence.
  destruct Hinv as (Hc & _). simpl in Hc.
  unfold list_mounted. rewrite E6, E1, E2. split_and!.
  - lia.
  - by rewrite E4, E1.
  - apply NoDup_seq.
  - intros el Hel. apply elem_of_seq in Hel as [Hge Hlt]. split; [lia|].
    destruct (its !! (el - length d)) as [item|] eqn:Hitem.
    + destruct (E3 _ _ Hitem) as [_ Hp].
      by replace (length d + (el - length d)) with el in Hp by lia.
    + apply lookup_ge_None in Hitem. lia.
Qed.

Lemma IteratedElements_init_mounted items renderFn d :
  body_ok d →
  list_mounted (IteratedElements_init items renderFn d) ∧
  ie_items (IteratedElements_init items renderFn d).2 = items ∧
  ie_renderFn (IteratedElements_init items renderFn d).2 = renderFn.
Proof.
  intros (Hd & _ & _). unfold IteratedElements_init, list_mounted. simpl.
  change (d ++ [_])
    with (createNode {| mk_kind := ElementNode "div"; mk_text := "" |} d).2.
  set (d1 := (createNode _ d).2).
  assert (length d1 = S (length d)) as Hlen1 by apply length_createNode.
  assert (parentNode (length d) d1 = None) as Hfresh.
  { unfold d1. rewrite parentNode_createNode. by apply parentNode_out_of_range. }
  split_and!; try done.
  - rewrite length_appendChild. lia.
  - rewrite childNodes_appendChild_detached by (done || (unfold body; lia)).
    rewrite decide_False by (unfold body; lia).
    unfold d1. rewrite childNodes_createNode. by apply childNodes_out_of_range.
  - constructor.
  - by intros el ?%elem_of_nil.
Qed.

Lemma render_returns seen st st' :
  IteratedElements_render seen st = Returned () st' →
  ∃ its, currentItems (ie_items st.2) seen = Some its.
Proof.
  destruct st as [d this]. unfold IteratedElements_render. simpl.
  destruct (currentItems (ie_items this) seen) as [its|]; [by eexists | done].
Qed.

Lemma IteratedElements_reaches_inv items renderFn st :
  IteratedElements_reaches items renderFn st →
  list_mounted st ∧ ie_items st.2 = items ∧ ie_renderFn st.2 = renderFn.
Proof.
  induction 1 as [d Hok|[d this] seen st' Hreach (Hinv & Hitems & Hfn) Hr
                 |st d' Hreach (Hinv & Hitems & Hfn) Hm]; [| |done].
  - by apply IteratedElements_init_mounted.
  - destruct (render_returns _ _ _ Hr) as [its Hits]. simpl in Hits, Hitems, Hfn.
    destruct (render_spec seen d this its Hinv Hits)
      as (st0 & Hr0 & _ & _ & _ & _ & _ & _ & E7 & E8).
    pose proof (render_mounted seen d this its st' Hinv Hits Hr) as Hm.
    assert (st0 = st') as -> by congruence.
    split_and!; [done | congruence | congruence].
Qed.

(** C6.  In every state of a list binding, just created, left by an
    earlier render pass, or changed by other code that keeps its hands off the
    container's children, a render pass over a source that is an array
    returns normally, and afterwards: the tracked list has as many entries as
    the source; its i-th entry is the node that this pass created from
    [render(source[i], i)], a node that did not exist before the pass; the
    tracked nodes are the children of the container, in source order; and
    every node that was tracked before the pass has been removed from the
    tree and is not tracked any more. *)
Theorem IteratedElements_render_rebuilds items renderFn st seen (source : list Value) :
  IteratedElements_reaches items renderFn st →
  currentItems items seen = Some source →
  ∃ st', IteratedElements_render seen st = Returned () st' ∧
    length (ie_elements st'.2) = length source ∧
    (∀ i item, source !! i = Some item →
       ∃ el, ie_elements st'.2 !! i = Some el ∧
             length st.1 ≤ el ∧
             node_markup el st'.1 = Some (renderFn item i) ∧
             parentNode el st'.1 = Some (ie_container st.2)) ∧
    childNodes (ie_container st.2) st'.1 = ie_elements st'.2 ∧
    (∀ el, el ∈ ie_elements st.2 →
           parentNode el st'.1 = None ∧
           (el ∉ childNodes (ie_container st.2) st'.1) ∧
           (el ∉ ie_elements st'.2)) ∧
    IteratedElements_reaches items renderFn st'.
Proof.
  intros Hreach Hsrc.
  destruct (IteratedElements_reaches_inv _ _ _ Hreach) as (Hinv & Hitems & Hfn).
  destruct st as [d this]. simpl in *. subst items renderFn.
  destruct (render_spec seen d this source Hinv Hsrc)
    as (st' & Hr & E1 & E2 & E3 & E4 & E5 & E6 & E7 & E8).
  exists st'. split; [exact Hr|]. split_and!.
  - by rewrite E1, length_seq.
  - intros i item Hitem. exists (length d + i).
    destruct (E3 i item Hitem) as [M1 M2]. split_and!; [|lia|done|done].
    rewrite E1. apply lookup_seq_lt. by apply lookup_lt_Some in Hitem.
  - exact E4.
  - intros el Hel. destruct Hinv as (_ & _ & _ & Hels). simpl in Hels.
    destruct (Hels el Hel) as [Hlt _].
    assert (el ∉ ie_elements st'.2) as Hnot.
    { rewrite E1. rewrite elem_of_seq. lia. }
    split_and!; [by apply E5 | by rewrite E4 | done].
  - by eapply reaches_render.
Qed.

(** *** What other code may do

    Creating a node, appending or inserting a new node under another parent,
    and removing a node that is not tracked leave the list binding as it is;
    so does the [update] of a conditional binding whose placeholder is not in
    the container.  In the other direction, a render pass of a list binding
    leaves a conditional binding in place. *)

Lemma list_createNode_undisturbs d this m :
  list_mounted (d, this) → list_mounted ((createNode m d).2, this).
Proof.
  intros (Hc & Hch & Hnd & Hels). unfold list_mounted. cbn [fst snd] in *.
  rewrite length_createNode, childNodes_createNode. split_and!; [lia | done | done |].
  intros el Hel. destruct (Hels el Hel) as [Hlt Hp].
  rewrite parentNode_createNode. split; [lia | done].
Qed.

Lemma list_append_elsewhere d this m p :
  list_mounted (d, this) → p ≠ ie_container this → p < length d →
  list_mounted (appendChild p (length d) (createNode m d).2, this).
Proof.
  intros (Hc & Hch & Hnd & Hels) Hp Hplt. unfold list_mounted. cbn [fst snd] in *.
  assert (parentNode (length d) (createNode m d).2 = None) as Hfresh.
  { rewrite parentNode_createNode. by apply parentNode_out_of_range. }
  rewrite length_appendChild, length_createNode.
  rewrite childNodes_appendChild_detached by (done || (rewrite length_createNode; lia)).
  rewrite decide_False by done. rewrite childNodes_createNode.
  split_and!; [lia | done | done |].
  intros el Hel. destruct (Hels el Hel) as [Hlt Hpar]. split; [lia|].
  rewrite parentNode_appendChild by (rewrite length_createNode; lia).
  rewrite decide_False by lia. by rewrite parentNode_createNode.
Qed.

Lemma list_insert_elsewhere d this m p ref :
  list_mounted (d, this) → p ≠ ie_container this →
  list_mounted (insertBefore p (length d) ref (createNode m d).2, this).
Proof.
  intros Hm Hp. pose proof (list_createNode_undisturbs d this m Hm) as Hm1.
  destruct (decide (ref ∈ childNodes p (createNode m d).2)) as [Hin|Hnot].
  2:{ unfold insertBefore. by rewrite decide_False. }
  destruct Hm as (Hc & Hch & Hnd & Hels). unfold list_mounted. cbn [fst snd] in *.
  assert (parentNode (length d) (createNode m d).2 = None) as Hfresh.
  { rewrite parentNode_createNode. by apply parentNode_out_of_range. }
  rewrite length_insertBefore, length_createNode.
  rewrite childNodes_insertBefore_detached by done.
  rewrite decide_False by done. rewrite childNodes_createNode.
  split_and!; [lia | done | done |].
  intros el Hel. destruct (Hels el Hel) as [Hlt Hpar]. split; [lia|].
  rewrite parentNode_insertBefore by (done || (rewrite length_createNode; lia)).
  rewrite decide_False by lia. by rewrite parentNode_createNode.
Qed.

Lemma list_remove_foreign d this n :
  list_mounted (d, this) → n ∉ ie_elements this →
  list_mounted (Node_remove n d, this).
Proof.
  intros (Hc & Hch & Hnd & Hels) Hn. unfold list_mounted. cbn [fst snd] in *.
  rewrite length_Node_remove, childNodes_Node_remove. split_and!; [done | | done |].
  - case_decide; [|done]. rewrite Hch. by apply (Set_delete_absent n).
  - intros el Hel. destruct (Hels el Hel) as [Hlt Hpar]. split; [done|].
    rewrite parentNode_Node_remove, decide_False; [done|]. intros ->. done.
Qed.

Lemma conditional_update_undisturbs_list d this (other : ConditionalElement) seen :
  list_mounted (d, this) →
  parentNode (ce_placeholder other) d ≠ Some (ie_container this) →
  (∀ el, ce_currentElement other = Some el → el ∉ ie_elements this) →
  list_mounted ((ConditionalElement_update seen (d, other)).1, this).
Proof.
  intros Hm Hph Hcur. unfold ConditionalElement_update, createNode.
  destruct (ce_conditionFn other seen), (ce_currentElement other) as [el|] eqn:Hel;
    cbn [fst snd]; try done.
  - change (d ++ [_]) with (createNode (ce_elementFn other seen) d).2.
    rewrite parentNode_createNode.
    destruct (parentNode (ce_placeholder other) d) as [p|] eqn:Hp.
    + apply list_insert_elsewhere; [done | congruence].
    + by apply list_createNode_undisturbs.
  - apply list_remove_foreign; [done | by apply Hcur].
Qed.

Lemma remove_all_undisturbs before after (els : list nat) d (other : ConditionalElement) :
  mounted_at before after (d, other) →
  ce_placeholder other ∉ els →
  (∀ el, ce_currentElement other = Some el → el ∉ els) →
  ∃ before' after',
    mounted_at before' after' (foldl (λ d el, Node_remove el d) d els, other).
Proof.
  revert before after d. induction els as [|x els IH]; intros before after d Hm Hph Hcur.
  { by exists before, after. }
  simpl. destruct (remove_undisturbs before after d other x Hm) as (b1 & a1 & Hm1).
  - intros ->. apply Hph. by left.
  - intros Heq. apply (Hcur x Heq). by left.
  - apply (IH b1 a1); [done | |].
    + intros Hin. apply Hph. by right.
    + intros el Hel Hin. apply (Hcur el Hel). by right.
Qed.

Lemma render_items_undisturbs renderFn c (items : list Value) index before after d
    (acc : list nat) (other : ConditionalElement) :
  mounted_at before after (d, other) → c < length d →
  ∃ after',
    mounted_at before after' ((render_items renderFn c index items (d, acc)).1, other).
Proof.
  revert index after d acc.
  induction items as [|item items IH]; intros index after d acc Hm Hc.
  { by exists after. }
  simpl. change (d ++ [_]) with (createNode (renderFn item index) d).2.
  destruct (append_fresh_undisturbs before after d other (renderFn item index) c Hm Hc)
    as (a1 & Hm1).
  apply (IH (S index) a1); [done|].
  rewrite length_appendChild, length_createNode. lia.
Qed.

(** A render pass of a list binding leaves a conditional binding in
    place. *)
Lemma render_undisturbs_conditional before after seen d this (other : ConditionalElement) st' :
  mounted_at before after (d, other) → list_mounted (d, this) →
  ce_placeholder other ∉ ie_elements this →
  (∀ el, ce_currentElement other = Some el → el ∉ ie_elements this) →
  IteratedElements_render seen (d, this) = Returned () st' →
  ∃ before' after', mounted_at before' after' (st'.1, other).
Proof.
  intros Hm (Hc & _) Hph Hcur. cbn [fst snd] in Hc.
  unfold IteratedElements_render. cbn [fst snd].
  destruct (currentItems _ seen) as [its|]; [|done].
  destruct (remove_all_undisturbs before after (ie_elements this) d other Hm Hph Hcur)
    as (b1 & a1 & Hm1).
  set (d1 := foldl (λ d el, Node_remove el d) d (ie_elements this)) in *.
  assert (length d1 = length d) as Hlen.
  { unfold d1. generalize (ie_elements this) as els. clear. intros els. revert d.
    induction els as [|x els IH]; intros d; [done|]. simpl.
    by rewrite IH, length_Node_remove. }
  destruct (render_items_undisturbs (ie_renderFn (ie_set_elements [] this))
              (ie_container (ie_set_elements [] this)) its 0 b1 a1 d1 [] other Hm1)
    as (a2 & Hm2); [simpl; lia|].
  destruct (render_items _ _ 0 its (d1, [])) as [d2 els2].
  intros [= <-]. by exists b1, a2.
Qed.

(** C6, witness: the first render pass of [each(todos, item => textNode(item))]
    over [todos = state(["a"])]. *)
Lemma IteratedElements_render_rebuilds_witness :
  ∃ st', IteratedElements_render (snapshot todo_store)
           (IteratedElements_init (CellArray 0) item_text empty_document) = Returned () st' ∧
         length (ie_elements st'.2) = 1 ∧
         childNodes 1 st'.1 = ie_elements st'.2.
Proof.
  destruct (IteratedElements_render_rebuilds (CellArray 0) item_text
              (IteratedElements_init (CellArray 0) item_text empty_document)
              (snapshot todo_store) [VStr "a"]
              (reaches_init _ _ _ body_ok_empty_document) eq_refl)
    as (st' & H1 & H2 & _ & H4 & _).
  exists st'. split; [exact H1|]. split; [exact H2 | exact H4].
Defined.


Lemma each_static_subscribes_nothing renderFn a w d this w' d' :
  each (PlainArray a) renderFn w d = Returned this (w', d') → w' = w.
Proof.
  unfold each, IteratedElements_new.
  destruct (IteratedElements_render _ _) as [[] [d0 this0]|msg [d0 this0]]; [|done].
  by intros [= _ <- _].
Qed.

(** What [each] returns is a reached state, and so is what a delivered call
    leaves. *)
Lemma each_reaches items renderFn w d this w' d' :
  body_ok d →
  each items renderFn w d = Returned this (w', d') →
  IteratedElements_reaches items renderFn (d', this).
Proof.
  intros Hok. unfold each, IteratedElements_new.
  destruct (IteratedElements_render _ _) as [[] [d0 this0]|msg [d0 this0]] eqn:Hr; [|done].
  intros Heq.
  assert (d0 = d' ∧ this0 = this) as [-> ->] by (destruct items; by injection Heq).
  eapply reaches_render; [by apply reaches_init | exact Hr].
Qed.

Lemma IteratedElements_deliver_reaches items renderFn st e st' :
  IteratedElements_reaches items renderFn st →
  IteratedElements_deliver st e = Returned () st' →
  IteratedElements_reaches items renderFn st'.
Proof.
  intros Hreach. destruct e as [src [name|ph k|c] arg seen|c]; simpl;
    try (by intros [= <-]).
  case_decide; [|by intros [= <-]]. intros Hr. by eapply reaches_render.
Qed.

(** Scenario C: [each(["1", "2", "3"], item => textNode(item))] makes three
    text nodes "1", "2", "3", in that order, in the container. *)
Example scenario_C :
  ∃ this d, each (PlainArray 0) item_text static_store empty_document
              = Returned this (static_store, d) ∧
            ie_elements this = [2; 3; 4] ∧
            childNodes (ie_container this) d = [2; 3; 4] ∧
            (nd_text <$> d !! 2) = Some "1" ∧ (nd_text <$> d !! 3) = Some "2" ∧
            (nd_text <$> d !! 4) = Some "3".
Proof. eexists _, _. by vm_compute. Qed.

(** A list binding over a cell, re-rendered by the notification of a
    [push]: the old node is gone, two new ones are mounted. *)
Example push_rerenders :
  ∃ this w d, each (CellArray 0) item_text todo_store empty_document = Returned this (w, d) ∧
    ie_elements this = [2] ∧
    let w1 := final (State_push 0 (VStr "b") w) in
    ∃ st1, foldl (λ o e, IteratedElements_deliver (final o) e) (Returned () (d, this))
                 (new_events w w1) = Returned () st1 ∧
           ie_elements st1.2 = [3; 4] ∧ childNodes 1 st1.1 = [3; 4] ∧
           parentNode 2 st1.1 = None.
Proof. eexists _, _, _. split; [by vm_compute|]. split; [done|]. eexists. by vm_compute. Qed.

End Iterated.

Section MoreCells.


Lemma State_value_notify s s' w : State_value s' (State_notify s w) = State_value s' w.
Proof. unfold State_value. by rewrite State_notify_states. Qed.

(** X1: after [push(item)] on a cell holding an array, [filter(predicate)]
    on that cell returns what it returned before, followed by the item when
    the predicate accepts it; [filter] itself leaves the store as it is. *)
Theorem filter_after_push w s a items item predicate :
  State_value s w = VArr a → arrays w !! a = Some items →
  State_filter s predicate w
    = Returned (filter (λ x, predicate x = true) items) w ∧
  let w' := final (State_push s item w) in
  State_filter s predicate w'
    = Returned (filter (λ x, predicate x = true) items
                ++ (if predicate item then [item] else [])) w'.
Proof.
  intros Hv Ha. split.
  - unfold State_filter. by rewrite Hv, Ha.
  - unfold State_push. rewrite Hv. simpl.
    unfold State_filter. rewrite State_value_notify.
    change (State_value s (with_arrays _ w)) with (State_value s w). rewrite Hv.
    rewrite State_notify_arrays. simpl.
    rewrite list_lookup_alter_eq, Ha. simpl.
    rewrite filter_app. do 2 f_equal.
    rewrite filter_cons, filter_nil. destruct (predicate item); by case_decide.
Qed.

Lemma filter_after_push_witness :
  State_filter 0 (λ v, bool_decide (v = VStr "b")) (final (State_push 0 (VStr "b") todo_store))
  = Returned ([] ++ [VStr "b"]) (final (State_push 0 (VStr "b") todo_store)).
Proof.
  exact (proj2 (filter_after_push todo_store 0 0 [VStr "a"] (VStr "b")
                  (λ v, bool_decide (v = VStr "b")) eq_refl eq_refl)).
Defined.


Lemma recompute_events_callee c w src l arg seen :
  EvCall src l arg seen ∈ recompute_events c w →
  src = OfComputed c ∧ l ∈ ComputedState_listeners c w.
Proof.
  unfold recompute_events, ComputedState_listeners.
  destruct (computeds w !! c) as [x|]; [|by intros H%elem_of_nil].
  intros [H|H]%elem_of_cons; [done|]. destruct (strict_neq _ _); [|by apply elem_of_nil in H].
  unfold calls in H. apply list_elem_of_fmap in H as (l' & [= -> -> _ _] & Hl'). done.
Qed.

(** The calls of [computedStates.forEach(computed => computed.recompute())]
    go to listeners of the computed cells of the set. *)
Lemma recompute_all_events_callee cs w src l arg seen :
  EvCall src l arg seen ∈ recompute_all_events cs w →
  ∃ c, c ∈ cs ∧ src = OfComputed c ∧ l ∈ ComputedState_listeners c w.
Proof.
  revert w. induction cs as [|c cs IH]; intros w H; [by apply elem_of_nil in H|].
  cbn [recompute_all_events] in H. apply elem_of_app in H as [H|H].
  - apply recompute_events_callee in H as [-> Hl]. exists c. split; [apply list_elem_of_here|done].
  - apply IH in H as (c' & Hc' & -> & Hl). rewrite recompute_keeps_listeners in Hl.
    exists c'. split; [by apply list_elem_of_further|done].
Qed.

(** X2: a push through one cell does not run the notify pass of another
    cell that holds the same array.  The other cell calls nobody; a function
    that is subscribed neither to the pushing cell nor to a computed cell
    registered with it is not called at all, whatever else it is subscribed
    to; only the computed cells registered with the pushing cell are
    recomputed, the others keep their cache; and yet the other cell reads the
    longer array. *)
Theorem push_is_silent_for_aliases w s s' st a items item predicate :
  store_wf w → states w !! s = Some st → st_value st = VArr a →
  s' ≠ s → State_value s' w = VArr a → arrays w !! a = Some items →
  let w' := final (State_push s item w) in
  (∀ l, args_of (OfState s') l (new_events w w') = []) ∧
  (∀ l, l ∉ st_listeners st →
        (∀ c, c ∈ st_computedStates st → l ∉ ComputedState_listeners c w) →
        ∀ src arg seen, EvCall src l arg seen ∉ new_events w w') ∧
  recomputes (new_events w w') = st_computedStates st ∧
  (∀ c, c ∉ st_computedStates st → computeds w' !! c = computeds w !! c) ∧
  State_filter s' predicate w'
    = Returned (filter (λ x, predicate x = true) (items ++ [item])) w'.
Proof.
  intros Hwf Hst Hval Hne Hv' Ha.
  assert (State_value s w = VArr a) as Hsv by (unfold State_value; by rewrite Hst).
  unfold State_push. rewrite Hsv. simpl.
  set (w1 := with_arrays (alter (λ items0, items0 ++ [item]) a) w).
  assert (states w1 !! s = Some st) as Hst1 by done.
  pose proof (State_notify_trace s _ w1 Hst1) as Htr.
  change (trace w1) with (trace w) in Htr.
  rewrite (new_events_app w _ _ Htr).
  split; [|split; [|split; [|split]]].
  - intros l. rewrite args_of_app, args_of_calls_other by congruence.
    apply (args_of_from_computeds _ _ (st_computedStates st)); [done|].
    apply recompute_all_events_from.
  - intros l Hl Hcl src arg seen [Hin|Hin]%elem_of_app.
    + unfold calls in Hin. apply list_elem_of_fmap in Hin as (l' & [= _ -> _ _] & Hl').
      done.
    + apply recompute_all_events_callee in Hin as (c & Hc & _ & Hin).
      by apply (Hcl c).
  - rewrite recomputes_app, recomputes_calls. simpl.
    apply recompute_all_events_recomputes. simpl. intros c Hc. by eapply wf_registered.
  - intros c Hc. rewrite (State_notify_unfold s st w1 Hst1).
    by rewrite recompute_all_lookup_other.
  - unfold State_filter. rewrite State_value_notify.
    change (State_value s' w1) with (State_value s' w). rewrite Hv'.
    rewrite State_notify_arrays. unfold w1. simpl.
    by rewrite list_lookup_alter_eq, Ha.
Qed.

Lemma alias_store_wf : store_wf alias_store.
Proof.
  apply store_wf_State_subscribe, store_wf_State_new, store_wf_State_new,
    store_wf_Array_new, store_wf_empty.
Qed.

Lemma push_is_silent_for_aliases_witness :
  let w' := final (State_push 0 (VStr "b") alias_store) in
  (∀ l, args_of (OfState 1) l (new_events alias_store w') = []) ∧
  (∀ l, l ∉ [] →
        (∀ c, c ∈ [] → l ∉ ComputedState_listeners c alias_store) →
        ∀ src arg seen, EvCall src l arg seen ∉ new_events alias_store w') ∧
  recomputes (new_events alias_store w') = [] ∧
  (∀ c, c ∉ [] → computeds w' !! c = computeds alias_store !! c) ∧
  State_filter 1 (λ _, true) w'
    = Returned (filter (λ x, true = true) ([VStr "a"] ++ [VStr "b"])) w'.
Proof.
  apply (push_is_silent_for_aliases alias_store 0 1
           {| st_value := VArr 0; st_listeners := []; st_computedStates := [] |}
           0 [VStr "a"] (VStr "b") (λ _, true) alias_store_wf eq_refl eq_refl).
  - lia.
  - reflexivity.
  - reflexivity.
Defined.

Lemma Set_delete_add {A} `{EqDecision A} (x : A) (ls : list A) :
  x ∉ ls → Set_delete x (Set_add x ls) = ls.
Proof.
  intros Hx. unfold Set_add. rewrite decide_False by done.
  unfold Set_delete. rewrite filter_app, filter_cons, filter_nil.
  rewrite decide_False by (intros H'; by apply H').
  rewrite app_nil_r. by apply Set_delete_absent.
Qed.

Lemma Set_delete_not_elem {A} `{EqDecision A} (x : A) (ls : list A) :
  x ∉ Set_delete x ls.
Proof. rewrite Set_delete_elem. by intros [? _]. Qed.

Lemma with_states_alter_alter (f g : State → State) s w :
  with_states (alter f s) (with_states (alter g s) w) = with_states (alter (f ∘ g) s) w.
Proof. unfold with_states. simpl. by rewrite list_alter_alter_eq. Qed.

Lemma with_computeds_alter_alter (f g : ComputedState → ComputedState) c w :
  with_computeds (alter f c) (with_computeds (alter g c) w)
  = with_computeds (alter (f ∘ g) c) w.
Proof. unfold with_computeds. simpl. by rewrite list_alter_alter_eq. Qed.

Lemma with_states_id (f : State → State) s w :
  (∀ st, states w !! s = Some st → f st = st) → with_states (alter f s) w = w.
Proof. intros H. destruct w. unfold with_states. simpl in *. by rewrite alter_id_at. Qed.

Lemma with_computeds_id (f : ComputedState → ComputedState) c w :
  (∀ x, computeds w !! c = Some x → f x = x) → with_computeds (alter f c) w = w.
Proof. intros H. destruct w. unfold with_computeds. simpl in *. by rewrite alter_id_at. Qed.

Lemma State_listeners_unsub_sub s l w :
  l ∉ State_listeners s (State_unsubscribe s l (State_subscribe s l w)).
Proof.
  unfold State_unsubscribe, State_subscribe. rewrite with_states_alter_alter.
  unfold State_listeners. simpl. rewrite list_lookup_alter_eq.
  destruct (states w !! s) as [st|]; simpl; [|apply not_elem_of_nil].
  apply Set_delete_not_elem.
Qed.

Lemma ComputedState_listeners_unsub_sub c l w :
  l ∉ ComputedState_listeners c (ComputedState_unsubscribe c l (ComputedState_subscribe c l w)).
Proof.
  unfold ComputedState_unsubscribe, ComputedState_subscribe.
  rewrite with_computeds_alter_alter.
  unfold ComputedState_listeners. simpl. rewrite list_lookup_alter_eq.
  destruct (computeds w !! c) as [x|]; simpl; [|apply not_elem_of_nil].
  apply Set_delete_not_elem.
Qed.

(** X3: the function that [subscribe] returns undoes the subscription: for
    a listener that was not subscribed before, the cell is again exactly as it
    was.  For a listener that was subscribed already it does more: the
    listener is gone, and the next notify pass does not call it. *)
Theorem unsubscribe_undoes_subscribe :
  (∀ w s l,
     (l ∉ State_listeners s w → State_unsubscribe s l (State_subscribe s l w) = w) ∧
     (l ∉ State_listeners s (State_unsubscribe s l (State_subscribe s l w))) ∧
     (∀ st, store_wf w → states w !! s = Some st →
        let w2 := State_unsubscribe s l (State_subscribe s l w) in
        args_of (OfState s) l (new_events w2 (State_notify s w2)) = [])) ∧
  (∀ w c l,
     (l ∉ ComputedState_listeners c w →
        ComputedState_unsubscribe c l (ComputedState_subscribe c l w) = w) ∧
     (l ∉ ComputedState_listeners c
            (ComputedState_unsubscribe c l (ComputedState_subscribe c l w)))).
Proof.
  split.
  - intros w s l. split; [|split].
    + intros Hl. unfold State_unsubscribe, State_subscribe.
      rewrite with_states_alter_alter. apply with_states_id.
      intros st Hst. destruct st as [v ls cs]. unfold st_set_listeners. simpl. f_equal.
      apply Set_delete_add. unfold State_listeners in Hl. by rewrite Hst in Hl.
    + apply State_listeners_unsub_sub.
    + intros st Hwf Hst w2.
      assert (store_wf w2) as Hwf2
        by (by apply store_wf_State_unsubscribe, store_wf_State_subscribe).
      pose proof (State_listeners_unsub_sub s l w) as Hl. fold w2 in Hl.
      unfold State_listeners in Hl.
      destruct (states w2 !! s) as [st2|] eqn:Hst2.
      * rewrite (State_notify_args s st2 l w2 Hwf2 Hst2).
        simpl in Hl. by rewrite decide_False.
      * unfold State_notify. rewrite Hst2. unfold new_events. by rewrite drop_all.
  - intros w c l. split.
    + intros Hl. unfold ComputedState_unsubscribe, ComputedState_subscribe.
      rewrite with_computeds_alter_alter. apply with_computeds_id.
      intros x Hx. destruct x as [v f deps ls]. unfold cs_set_listeners. simpl. f_equal.
      apply Set_delete_add. unfold ComputedState_listeners in Hl. by rewrite Hx in Hl.
    + apply ComputedState_listeners_unsub_sub.
Qed.

Lemma unsubscribe_undoes_subscribe_witness :
  State_unsubscribe 0 (UserFn 9) (State_subscribe 0 (UserFn 9) demo_store) = demo_store ∧
  (let w2 := State_unsubscribe 0 (UserFn 1) (State_subscribe 0 (UserFn 1) demo_store) in
   args_of (OfState 0) (UserFn 1) (new_events w2 (State_notify 0 w2)) = []) ∧
  ComputedState_unsubscribe 0 (UserFn 9) (ComputedState_subscribe 0 (UserFn 9) demo_store)
  = demo_store.
Proof.
  split; [|split].
  - apply (proj1 (proj1 unsubscribe_undoes_subscribe demo_store 0 (UserFn 9))).
    vm_compute. intros H. by repeat (apply elem_of_cons in H as [H|H]; [discriminate H|]);
      apply elem_of_nil in H.
  - apply (proj2 (proj2 (proj1 unsubscribe_undoes_subscribe demo_store 0 (UserFn 1)))
             {| st_value := VNum 5; st_listeners := [UserFn 1; UserFn 2];
                st_computedStates := [0] |} demo_store_wf eq_refl).
  - apply (proj1 (proj2 unsubscribe_undoes_subscribe demo_store 0 (UserFn 9))).
    vm_compute. intros H. by repeat (apply elem_of_cons in H as [H|H]; [discriminate H|]);
      apply elem_of_nil in H.
Defined.


(** *** The constructor of [ComputedState] *)






(** *** Computed cells over several dependencies *)






End MoreCells.

Section Text.
Context (JS_String : list (list Value) → Value → string) (textFn : Listener) (textNode : nat).







































End Text.

Section TextTheorems.









End TextTheorems.

Section Events.











End Events.

Section WhenFollows.









(** A push through another cell that holds the same array is not followed:
    with [a = ["a"]; x = state(a); y = state(a)] and
    [y.when(list => list.length > 1, () => p("big"))], after [x.push("b")] the
    condition holds of what [y] holds and nothing is mounted. *)
Example when_misses_alias_push :
  let new := State_when 1 longer_than_1 (paragraph "big") alias_store empty_document in
  let w2 := mutate new.1.2 (MPush 0 (VStr "b")) in
  let st2 := foldl ConditionalElement_deliver (new.2, new.1.1) (new_events new.1.2 w2) in
  longer_than_1 (snapshot w2) (State_value 1 w2) = true ∧
  ce_currentElement st2.2 = None.
Proof. by vm_compute. Qed.

End WhenFollows.

Section EachFollows.











End EachFollows.

Section Deferral.

Lemma Engine_ready_kept :
  (∀ c e, eng_ready (final (Engine_call c e)) = eng_ready e) ∧
  (∀ cs el e, eng_ready (final (Engine_children el cs e)) = eng_ready e) ∧
  (∀ ch el e, eng_ready (final (Engine_child el ch e)) = eng_ready e) ∧
  (∀ b e, eng_ready (final (Engine_body b e)) = eng_ready e).
Proof.
  destruct Engine_stack_kept as (H1 & H2 & H3 & H4).
  split_and!; intros; [apply H1|apply H2|apply H3|apply H4].
Qed.

(** A ready engine neither reads nor writes its queue. *)
Lemma Engine_queue_frame q :
  (∀ c e, eng_ready e = true →
     Engine_call c (eng_with_queue (λ _, q) e)
     = on_final (eng_with_queue (λ _, q)) (Engine_call c e)) ∧
  (∀ cs el e, eng_ready e = true →
     Engine_children el cs (eng_with_queue (λ _, q) e)
     = on_final (eng_with_queue (λ _, q)) (Engine_children el cs e)) ∧
  (∀ ch el e, eng_ready e = true →
     Engine_child el ch (eng_with_queue (λ _, q) e)
     = on_final (eng_with_queue (λ _, q)) (Engine_child el ch e)) ∧
  (∀ b e, eng_ready e = true →
     Engine_body b (eng_with_queue (λ _, q) e)
     = on_final (eng_with_queue (λ _, q)) (Engine_body b e)).
Proof.
  destruct Engine_ready_kept as (R1 & R2 & R3 & R4).
  apply Call_mutind.
  - intros tag text e Hr. simpl. by rewrite Hr.
  - intros children IH e Hr. simpl. rewrite Hr.
    match goal with |- context [on_final _ (match Engine_children ?el children ?e1 with _ => _ end)] =>
      specialize (IH el e1 Hr);
      change (Engine_children el children (eng_with_queue (λ _, q) e1)
              = on_final (eng_with_queue (λ _, q)) (Engine_children el children e1)) in IH;
      change (match Engine_children el children (eng_with_queue (λ _, q) e1) with
              | Returned _ e0 => Returned (Some el) (eng_with_stack Array_pop e0)
              | Thrown msg e0 => Thrown msg e0
              end = on_final (eng_with_queue (λ _, q))
                      (match Engine_children el children e1 with
                       | Returned _ e0 => Returned (Some el) (eng_with_stack Array_pop e0)
                       | Thrown msg e0 => Thrown msg e0
                       end));
      rewrite IH; by destruct (Engine_children el children e1)
    end.
  - intros msg e Hr. done.
  - intros el e Hr. done.
  - intros child IHc rest IHr el e Hr. simpl. rewrite (IHc el e Hr).
    pose proof (R3 child el e) as Hr1.
    destruct (Engine_child el child e) as [[] e1|msg e1]; simpl in *; [|done].
    apply IHr. congruence.
  - intros s el e Hr. done.
  - intros n el e Hr. simpl. destruct (is_element n (eng_document e)); [|done].
    by destruct (Node_appendChild el n (eng_document e)).
  - intros body IH el e Hr. simpl. by apply IH.
  - intros el e Hr. done.
  - intros e Hr. done.
  - intros c IHc rest IHr e Hr. simpl. rewrite (IHc e Hr).
    pose proof (R1 c e) as Hr1.
    destruct (Engine_call c e) as [r e1|msg e1]; simpl in *; [|done].
    apply IHr. congruence.
  - intros block IHb rest IHr e Hr. simpl. rewrite (IHb e Hr).
    pose proof (R4 block e) as Hr1.
    destruct (Engine_body block e) as [[] e1|msg e1]; simpl in *; apply IHr; congruence.
Qed.

Lemma Engine_run_queue_frame q queue e :
  eng_ready e = true →
  Engine_run_queue queue (eng_with_queue (λ _, q) e)
  = on_final (eng_with_queue (λ _, q)) (Engine_run_queue queue e).
Proof.
  revert e. induction queue as [|c queue IH]; intros e Hr; [done|].
  simpl. rewrite (proj1 (Engine_queue_frame q) c e Hr).
  pose proof (proj1 Engine_ready_kept c e) as Hr1.
  destruct (Engine_call c e) as [r e1|msg e1]; simpl in *; [|done].
  apply IH. congruence.
Qed.

Lemma eng_with_queue_same e : eng_with_queue (λ _, eng_queue e) e = e.
Proof. by destruct e. Qed.

Lemma Engine_run_queue_queue queue e :
  eng_ready e = true →
  eng_queue (final (Engine_run_queue queue e)) = eng_queue e.
Proof.
  intros Hr. rewrite <- (eng_with_queue_same e) at 1.
  rewrite Engine_run_queue_frame by done.
  by destruct (Engine_run_queue queue e).
Qed.

Lemma Engine_call_deferred c e :
  is_factory_call c → eng_ready e = false →
  Engine_call c e = Returned None (eng_enqueue c e).
Proof. intros Hc Hr. destruct c; simpl; by rewrite ?Hr. Qed.

Lemma Engine_script_deferred cs e :
  eng_ready e = false → Forall is_factory_call cs →
  foldl (λ e c, final (Engine_call c e)) e cs = eng_with_queue (λ q, q ++ cs) e.
Proof.
  revert e. induction cs as [|c cs IH]; intros e Hr Hcs.
  - simpl. unfold eng_with_queue. rewrite app_nil_r. by destruct e.
  - apply Forall_cons in Hcs as [Hc Hcs]. cbn [foldl].
    rewrite (Engine_call_deferred c e Hc Hr). cbn [final].
    rewrite IH by done. unfold eng_with_queue, eng_enqueue. simpl.
    by rewrite <- app_assoc.
Qed.

(** X10: calls made while the page is loading are deferred.  Each returns
    [null] and changes nothing but the queue, which takes the calls in the
    order they were made; when the page has loaded, the engine runs them in
    that order, and what results is what the same calls give on an engine that
    was ready from the start: the same document and stack, and the same error
    if one of them throws.  The queue is emptied when all of them have
    returned, and is kept when one throws. *)
Theorem deferred_calls_run_on_load cs e :
  eng_ready e = false → Forall is_factory_call cs →
  let e1 := foldl (λ e c, final (Engine_call c e)) e cs in
  let queue := eng_queue e ++ cs in
  Forall (λ c, ∀ e', eng_ready e' = false →
            Engine_call c e' = Returned None (eng_enqueue c e')) cs ∧
  e1 = eng_with_queue (λ _, queue) e ∧
  Engine_loaded e1
  = match Engine_run_queue queue (eng_with_queue (λ _, []) (eng_with_ready true e)) with
    | Returned r e2 => Returned r e2
    | Thrown msg e2 => Thrown msg (eng_with_queue (λ _, queue) e2)
    end.
Proof.
  intros Hr Hcs e1 queue. split; [|split].
  - eapply Forall_impl; [exact Hcs|]. intros c Hc e' Hr'. by apply Engine_call_deferred.
  - unfold e1. by rewrite Engine_script_deferred.
  - unfold e1. rewrite Engine_script_deferred by done.
    unfold Engine_loaded, Engine_flushQueue. cbn [eng_with_queue eng_queue
      eng_contextStack eng_document eng_ready]. fold queue.
    set (e0 := eng_with_queue (λ _, []) (eng_with_ready true e)).
    change {| eng_contextStack := eng_contextStack e; eng_ready := true;
              eng_queue := queue; eng_document := eng_document e |}
      with (eng_with_queue (λ _, queue) e0).
    rewrite (Engine_run_queue_frame queue queue e0) by done.
    pose proof (Engine_run_queue_queue queue e0 eq_refl) as Hq.
    destruct (Engine_run_queue queue e0) as [[] e2|msg e2]; simpl in *; [|done].
    f_equal. destruct e2. simpl in *. by subst.
Qed.

Lemma deferred_calls_run_on_load_witness :
  Engine_loaded (foldl (λ e c, final (Engine_call c e)) (Engine_new false)
                       [CallElement "h1" "Hi"; CallElement "p" "there"])
  = Engine_run_queue [CallElement "h1" "Hi"; CallElement "p" "there"] (Engine_new true).
Proof.
  exact (proj2 (proj2 (deferred_calls_run_on_load
                         [CallElement "h1" "Hi"; CallElement "p" "there"] (Engine_new false)
                         eq_refl
                         (Forall_cons_2 is_factory_call (CallElement "h1" "Hi") _ I
                            (Forall_cons_2 is_factory_call (CallElement "p" "there") _ I
                               (Forall_nil_2 _)))))).
Defined.

End Deferral.

Section EngineTree.

Lemma same_nodes_weaken lo hi lo' hi' d d' :
  lo ≤ lo' → hi' ≤ hi → same_nodes lo hi d d' → same_nodes lo' hi' d d'.
Proof. intros H1 H2 H m Hm. apply H. lia. Qed.

(** A subtree is read off its own nodes only. *)
Lemma tree_same_nodes d d' :
  (∀ c n parent, same_nodes n (n + size_call c) d d' →
     tree_call c n parent d → tree_call c n parent d') ∧
  (∀ cs n parent, same_nodes n (n + size_children cs) d d' →
     tree_children cs n parent d → tree_children cs n parent d') ∧
  (∀ ch n parent, same_nodes n (n + size_child ch) d d' →
     tree_child ch n parent d → tree_child ch n parent d') ∧
  (∀ b n parent, same_nodes n (n + size_body b) d d' →
     tree_body b n parent d → tree_body b n parent d').
Proof.
  apply Call_mutind.
  - intros tag text n parent Hs (H1 & H2 & H3). simpl in *.
    destruct (Hs n) as (E1 & E2 & E3); [lia|]. by rewrite E1, E2, E3.
  - intros children IH n parent Hs (H1 & H2 & H3 & H4). simpl in *.
    destruct (Hs n) as (E1 & E2 & E3); [lia|]. rewrite E1, E2, E3.
    split_and!; try done. apply IH; [|done].
    eapply same_nodes_weaken; [| |exact Hs]; lia.
  - done.
  - done.
  - intros child IHc rest IHr n parent Hs [H1 H2]. simpl in *. split.
    + apply IHc; [|done]. eapply same_nodes_weaken; [| |exact Hs]; lia.
    + apply IHr; [|done]. eapply same_nodes_weaken; [| |exact Hs]; lia.
  - intros s n parent Hs (H1 & H2 & H3). simpl in *.
    destruct (Hs n) as (E1 & E2 & E3); [lia|]. by rewrite E1, E2, E3.
  - done.
  - intros body IH n parent Hs H. simpl in *. by apply IH.
  - done.
  - done.
  - intros c IHc rest IHr n parent Hs [H1 H2]. simpl in *. split.
    + apply IHc; [|done]. eapply same_nodes_weaken; [| |exact Hs]; lia.
    + apply IHr; [|done]. eapply same_nodes_weaken; [| |exact Hs]; lia.
  - intros block IHb rest IHr n parent Hs [H1 H2]. simpl in *. split.
    + apply IHb; [|done]. eapply same_nodes_weaken; [| |exact Hs]; lia.
    + apply IHr; [|done]. eapply same_nodes_weaken; [| |exact Hs]; lia.
Qed.

(** [parent.appendChild(document.createElement(...))] *)
Lemma create_append mk p d :
  p < length d →
  let d' := appendChild p (length d) (createNode mk d).2 in
  length d' = S (length d) ∧
  childNodes p d' = childNodes p d ++ [length d] ∧
  childNodes (length d) d' = [] ∧
  parentNode (length d) d' = Some p ∧
  node_markup (length d) d' = Some mk ∧
  (∀ m, m < length d → m ≠ p → childNodes m d' = childNodes m d) ∧
  (∀ m, m < length d → parentNode m d' = parentNode m d ∧ node_markup m d' = node_markup m d).
Proof.
  intros Hp d'. unfold d'.
  assert (length (createNode mk d).2 = S (length d)) as Hlen by apply length_createNode.
  assert (parentNode (length d) (createNode mk d).2 = None) as Hfresh.
  { rewrite parentNode_createNode. by apply parentNode_out_of_range. }
  split_and!.
  - by rewrite length_appendChild.
  - rewrite childNodes_appendChild_detached by (done || lia).
    by rewrite decide_True, childNodes_createNode.
  - rewrite childNodes_appendChild_detached by (done || lia).
    rewrite decide_False by lia. rewrite childNodes_createNode.
    by apply childNodes_out_of_range.
  - rewrite parentNode_appendChild by lia. by rewrite decide_True.
  - rewrite node_markup_appendChild. apply node_markup_createNode_new.
  - intros m Hm Hne. rewrite childNodes_appendChild_detached by (done || lia).
    rewrite decide_False by done. apply childNodes_createNode.
  - intros m Hm. split.
    + rewrite parentNode_appendChild by lia. rewrite decide_False by lia.
      apply parentNode_createNode.
    + rewrite node_markup_appendChild. by apply node_markup_createNode_old.
Qed.

Lemma currentContext_ok e : engine_ok e → currentContext e < length (eng_document e).
Proof.
  intros [Hd Hst]. unfold currentContext.
  destruct (eng_contextStack e !! _) as [n|] eqn:Hn; simpl; [|unfold body; lia].
  by eapply (proj1 (Forall_lookup _ _) Hst).
Qed.

Lemma currentContext_push st el e :
  eng_contextStack e = st ++ [el] → currentContext e = el.
Proof.
  intros Hst. unfold currentContext. rewrite Hst, length_app. simpl.
  replace (length st + 1 - 1) with (length st) by lia.
  by rewrite list_lookup_middle.
Qed.

Lemma currentContext_same e e' :
  eng_contextStack e' = eng_contextStack e → currentContext e' = currentContext e.
Proof. intros H. unfold currentContext. by rewrite H. Qed.

Lemma built_ok e ctx size roots e' : engine_ok e → built e ctx size roots e' → engine_ok e'.
Proof.
  intros [Hd Hst] (Hs & _ & Hlen & _). split; [lia|]. rewrite Hs.
  eapply Forall_impl; [exact Hst|]. simpl. intros n Hn. lia.
Qed.

Lemma built_nothing e ctx : built e ctx 0 [] e.
Proof. unfold built. rewrite app_nil_r. split_and!; try done; lia. Qed.

(** One program after the other. *)
Lemma built_then e e1 e2 ctx size1 size2 roots1 roots2 :
  ctx < length (eng_document e) →
  built e ctx size1 roots1 e1 → built e1 ctx size2 roots2 e2 →
  built e ctx (size1 + size2) (roots1 ++ roots2) e2 ∧
  same_nodes (length (eng_document e)) (length (eng_document e) + size1)
             (eng_document e1) (eng_document e2).
Proof.
  intros Hctx (A1 & A2 & A3 & A4 & A5 & A6) (B1 & B2 & B3 & B4 & B5 & B6). split.
  - unfold built. split_and!.
    + congruence.
    + congruence.
    + lia.
    + by rewrite B4, A4, app_assoc.
    + intros m Hm Hne. rewrite B5 by lia. by apply A5.
    + intros m Hm. destruct (B6 m) as [-> ->]; [lia|]. by apply A6.
  - intros m Hm. destruct (B6 m) as [-> ->]; [lia|]. rewrite B5 by lia. done.
Qed.

Lemma Engine_builds :
  (∀ c e, plain_call c → eng_ready e = true → engine_ok e →
     ∃ e', Engine_call c e = Returned (Some (length (eng_document e))) e' ∧
       built e (currentContext e) (size_call c) [length (eng_document e)] e' ∧
       tree_call c (length (eng_document e)) (currentContext e) (eng_document e')) ∧
  (∀ cs el e, plain_children cs → eng_ready e = true → engine_ok e →
     currentContext e = el →
     ∃ e', Engine_children el cs e = Returned () e' ∧
       built e el (size_children cs) (roots_children cs (length (eng_document e))) e' ∧
       tree_children cs (length (eng_document e)) el (eng_document e')) ∧
  (∀ ch el e, plain_child ch → eng_ready e = true → engine_ok e →
     currentContext e = el →
     ∃ e', Engine_child el ch e = Returned () e' ∧
       built e el (size_child ch) (roots_child ch (length (eng_document e))) e' ∧
       tree_child ch (length (eng_document e)) el (eng_document e')) ∧
  (∀ b e, plain_body b → eng_ready e = true → engine_ok e →
     ∃ e', Engine_body b e = Returned () e' ∧
       built e (currentContext e) (size_body b) (roots_body b (length (eng_document e))) e' ∧
       tree_body b (length (eng_document e)) (currentContext e) (eng_document e')).
Proof.
  apply Call_mutind.
  - (* an element factory *)
    intros tag text e _ Hr Hok. simpl. rewrite Hr.
    pose proof (currentContext_ok e Hok) as Hctx.
    pose proof (create_append {| mk_kind := ElementNode tag; mk_text := text |}
                  (currentContext e) (eng_document e) Hctx) as H.
    cbv zeta in H. destruct H as (C1 & C2 & C3 & C4 & C5 & C6 & C7).
    eexists. split; [reflexivity|]. split.
    + unfold built. simpl.
      change (eng_document e ++ [_])
        with (createNode {| mk_kind := ElementNode tag; mk_text := text |}
                (eng_document e)).2.
      split_and!; try done; lia.
    + simpl.
      change (eng_document e ++ [_])
        with (createNode {| mk_kind := ElementNode tag; mk_text := text |}
                (eng_document e)).2.
      done.
  - (* div *)
    intros children IH e Hp Hr Hok. simpl in Hp. simpl. rewrite Hr.
    pose proof (currentContext_ok e Hok) as Hctx.
    pose proof (create_append {| mk_kind := ElementNode "div"; mk_text := "" |}
                  (currentContext e) (eng_document e) Hctx) as H.
    cbv zeta in H. destruct H as (C1 & C2 & C3 & C4 & C5 & C6 & C7).
    change (eng_document e ++ [_])
      with (createNode {| mk_kind := ElementNode "div"; mk_text := "" |}
              (eng_document e)).2.
    set (el := length (eng_document e)) in *.
    set (d1 := appendChild (currentContext e) el (createNode _ (eng_document e)).2) in *.
    match goal with |- context [Engine_children el children ?e1] => set (e2 := e1) end.
    assert (engine_ok e2) as Hok2.
    { destruct Hok as [Hd Hst]. split; simpl; [lia|].
      apply Forall_app. split.
      - eapply Forall_impl; [exact Hst|]. simpl. intros n Hn. lia.
      - apply Forall_singleton. lia. }
    assert (currentContext e2 = el) as Hctx2
      by (by apply (currentContext_push (eng_contextStack e))).
    destruct (IH el e2 Hp Hr Hok2 Hctx2) as (e3 & Hrun & Hb & Ht).
    rewrite Hrun. eexists. split; [reflexivity|].
    destruct Hb as (B1 & B2 & B3 & B4 & B5 & B6). simpl in B1, B2, B3, B4, B5, B6.
    split.
    + unfold built. simpl. split_and!.
      * rewrite B1. apply Array_pop_app.
      * done.
      * lia.
      * rewrite B5 by (fold el; lia). done.
      * intros m Hm Hne. rewrite B5 by (fold el; lia). by apply C6.
      * intros m Hm. destruct (B6 m) as [-> ->]; [lia|]. by apply C7.
    + simpl. destruct (B6 el) as [-> ->]; [lia|]. split_and!; try done.
      * rewrite B4, C3. simpl. by rewrite C1.
      * change (eng_document e2) with d1 in Ht. by rewrite C1 in Ht.
  - (* throw *)
    intros msg e Hp. done.
  - (* no children *)
    intros el e _ Hr Hok Hctx. simpl. eexists. split; [reflexivity|].
    split; [apply built_nothing|done].
  - (* children.forEach *)
    intros child IHc rest IHr el e [Hp1 Hp2] Hr Hok Hctx. simpl.
    destruct (IHc el e Hp1 Hr Hok Hctx) as (e1 & Hrun1 & Hb1 & Ht1). rewrite Hrun1.
    pose proof (built_ok _ _ _ _ _ Hok Hb1) as Hok1.
    pose proof Hb1 as (S1 & R1 & L1 & _).
    assert (currentContext e1 = el) as Hctx1 by (by rewrite (currentContext_same e e1)).
    destruct (IHr el e1 Hp2 ltac:(congruence) Hok1 Hctx1) as (e2 & Hrun2 & Hb2 & Ht2).
    rewrite Hrun2. exists e2. split; [done|].
    assert (el < length (eng_document e)) as Hel
      by (rewrite <- Hctx; by apply currentContext_ok).
    rewrite L1 in Hb2, Ht2.
    destruct (built_then e e1 e2 el _ _ _ _ Hel Hb1 Hb2) as [Hb Hsame].
    split; [exact Hb|]. split; [|exact Ht2].
    by apply (proj1 (proj2 (proj2 (tree_same_nodes (eng_document e1) (eng_document e2))))).
  - (* a string *)
    intros s el e _ Hr Hok Hctx. simpl.
    assert (el < length (eng_document e)) as Hel
      by (rewrite <- Hctx; by apply currentContext_ok).
    pose proof (create_append {| mk_kind := TextNode; mk_text := s |}
                  el (eng_document e) Hel) as H.
    cbv zeta in H. destruct H as (C1 & C2 & C3 & C4 & C5 & C6 & C7).
    eexists. split; [reflexivity|]. split.
    + unfold built. simpl.
      change (eng_document e ++ [_])
        with (createNode {| mk_kind := TextNode; mk_text := s |} (eng_document e)).2.
      split_and!; try done; lia.
    + simpl.
      change (eng_document e ++ [_])
        with (createNode {| mk_kind := TextNode; mk_text := s |} (eng_document e)).2.
      done.
  - (* an element *)
    intros n el e Hp. done.
  - (* a function *)
    intros body IH el e Hp Hr Hok Hctx. simpl. rewrite <- Hctx. by apply IH.
  - (* anything else *)
    intros el e _ Hr Hok Hctx. simpl. eexists. split; [reflexivity|].
    split; [apply built_nothing|done].
  - (* the end of a function body *)
    intros e _ Hr Hok. simpl. eexists. split; [reflexivity|].
    split; [apply built_nothing|done].
  - (* a function body, statement by statement *)
    intros c IHc rest IHr e [Hp1 Hp2] Hr Hok. simpl.
    destruct (IHc e Hp1 Hr Hok) as (e1 & Hrun1 & Hb1 & Ht1). rewrite Hrun1.
    pose proof (built_ok _ _ _ _ _ Hok Hb1) as Hok1.
    pose proof Hb1 as (S1 & R1 & L1 & _).
    destruct (IHr e1 Hp2 ltac:(congruence) Hok1) as (e2 & Hrun2 & Hb2 & Ht2).
    rewrite Hrun2. exists e2. split; [done|].
    rewrite (currentContext_same e e1 S1), L1 in Hb2, Ht2.
    pose proof (currentContext_ok e Hok) as Hctx.
    destruct (built_then e e1 e2 _ _ _ _ _ Hctx Hb1 Hb2) as [Hb Hsame].
    split; [exact Hb|]. split; [|exact Ht2].
    by apply (proj1 (tree_same_nodes (eng_document e1) (eng_document e2))).
  - (* try *)
    intros block _ rest _ e Hp. destruct Hp.
Qed.


(** X11: on a ready engine, a program of element factory calls and [div]
    calls with string and function arguments returns and builds the tree that
    it spells out.  The call returns the node it has created and appended as
    the last child of the current context; a [div] has as children, in the
    order of its arguments, a text node for each string and the nodes created
    by the statements of each function, which are built in the same way
    under it; the stack is the stack of before, and every node that was in
    the document before keeps its parent, kind and text, and, the context
    apart, its children. *)
Theorem Engine_call_builds_tree c e :
  plain_call c → eng_ready e = true → engine_ok e →
  let d := eng_document e in
  let ctx := currentContext e in
  ∃ e', Engine_call c e = Returned (Some (length d)) e' ∧
    eng_contextStack e' = eng_contextStack e ∧
    length (eng_document e') = length d + size_call c ∧
    childNodes ctx (eng_document e') = childNodes ctx d ++ [length d] ∧
    tree_call c (length d) ctx (eng_document e') ∧
    (∀ m, m < length d → m ≠ ctx → childNodes m (eng_document e') = childNodes m d) ∧
    (∀ m, m < length d →
       parentNode m (eng_document e') = parentNode m d ∧
       node_markup m (eng_document e') = node_markup m d).
Proof.
  intros Hp Hr Hok d ctx.
  destruct (proj1 Engine_builds c e Hp Hr Hok) as (e' & Hrun & Hb & Ht).
  destruct Hb as (B1 & B2 & B3 & B4 & B5 & B6).
  exists e'. split_and!; done.
Qed.

Lemma Engine_call_builds_tree_witness :
  ∃ e', Engine_call page_program (Engine_new true) = Returned (Some 1) e' ∧
    eng_contextStack e' = [] ∧
    length (eng_document e') = 1 + size_call page_program ∧
    childNodes 0 (eng_document e') = [] ++ [1] ∧
    tree_call page_program 1 0 (eng_document e') ∧
    (∀ m, m < 1 → m ≠ 0 → childNodes m (eng_document e') = childNodes m empty_document) ∧
    (∀ m, m < 1 →
       parentNode m (eng_document e') = parentNode m empty_document ∧
       node_markup m (eng_document e') = node_markup m empty_document).
Proof.
  apply (Engine_call_builds_tree page_program (Engine_new true)).
  - repeat split.
  - reflexivity.
  - split; [simpl; lia|constructor].
Defined.

End EngineTree.

Section Stranded.

Lemma strands_then {A B} (e : Engine) (o1 : Outcome Engine A) (o2 : Outcome Engine B) :
  strands e o1 → strands (final o1) o2 → strands e o2.
Proof.
  intros (L1 & p1 & S1 & F1) (L2 & p2 & S2 & F2). split; [lia|].
  exists (p1 ++ p2). split; [by rewrite S2, S1, app_assoc|].
  apply Forall_app. split.
  - eapply Forall_impl; [exact F1|]. simpl. intros n Hn. lia.
  - eapply Forall_impl; [exact F2|]. simpl. intros n Hn. lia.
Qed.

Lemma strands_same {A} (e e' : Engine) (o : Outcome Engine A) :
  final o = e' → eng_contextStack e' = eng_contextStack e →
  length (eng_document e) ≤ length (eng_document e') → strands e o.
Proof.
  intros H S L. unfold strands. rewrite H. split; [done|].
  exists []. split; [by rewrite app_nil_r|constructor].
Qed.

Lemma Array_pop_app_cons {A} (st : list A) x l :
  Array_pop (st ++ x :: l) = st ++ Array_pop (x :: l).
Proof.
  unfold Array_pop. rewrite length_app. simpl.
  replace (length st + S (length l) - 1) with (length st + length l) by lia.
  rewrite take_app_add. by rewrite Nat.sub_0_r.
Qed.

Lemma Engine_strands :
  (∀ c e, strands e (Engine_call c e)) ∧
  (∀ cs el e, strands e (Engine_children el cs e)) ∧
  (∀ ch el e, strands e (Engine_child el ch e)) ∧
  (∀ b e, strands e (Engine_body b e)).
Proof.
  apply Call_mutind.
  - intros tag text e. simpl. destruct (eng_ready e); eapply strands_same; try done.
    simpl. rewrite length_appendChild, length_app. simpl. lia.
  - intros children IH e. simpl. destruct (eng_ready e); [|by eapply strands_same].
    match goal with |- context [Engine_children ?el children ?e1] =>
      specialize (IH el e1); destruct (Engine_children el children e1) as [[] e2|msg e2]
    end; destruct IH as (Hlen & pushed & Hs & Hall); simpl in *;
      rewrite length_appendChild, length_app in Hlen, Hall; simpl in Hlen, Hall;
      rewrite <- app_assoc in Hs; simpl in Hs.
    + split; simpl; [lia|]. exists (Array_pop (length (eng_document e) :: pushed)).
      split; [by rewrite Hs, Array_pop_app_cons|].
      apply Forall_take. constructor; [lia|].
      eapply Forall_impl; [exact Hall|]. simpl. intros n Hn. lia.
    + split; simpl; [lia|]. exists (length (eng_document e) :: pushed).
      split; [done|]. constructor; [lia|].
      eapply Forall_impl; [exact Hall|]. simpl. intros n Hn. lia.
  - intros msg e. by eapply strands_same.
  - intros el e. by eapply strands_same.
  - intros child IHc rest IHr el e. simpl.
    specialize (IHc el e).
    destruct (Engine_child el child e) as [[] e1|msg e1]; [|done].
    eapply strands_then; [exact IHc|apply IHr].
  - intros s el e. eapply strands_same; try done.
    simpl. rewrite length_appendChild, length_app. simpl. lia.
  - intros n el e. simpl. destruct (is_element n (eng_document e)); [|by eapply strands_same].
    pose proof (final_Node_appendChild el n (eng_document e)) as Hl.
    destruct (Node_appendChild el n (eng_document e)); eapply strands_same; try done.
    simpl in *. lia.
  - intros body IH el e. simpl. apply IH.
  - intros el e. by eapply strands_same.
  - intros e. by eapply strands_same.
  - intros c IHc rest IHr e. simpl.
    specialize (IHc e).
    destruct (Engine_call c e) as [r e1|msg e1]; [|done].
    eapply strands_then; [exact IHc|apply IHr].
  - intros block IHb rest IHr e. simpl.
    specialize (IHb e).
    destruct (Engine_body block e) as [[] e1|msg e1];
      (eapply strands_then; [exact IHb|apply IHr]).
Qed.

Lemma currentContext_last st pushed el e :
  eng_contextStack e = st ++ el :: pushed →
  currentContext e ∈ el :: pushed.
Proof.
  intros Hst. unfold currentContext. rewrite Hst.
  destruct (lookup_lt_is_Some_2 (st ++ el :: pushed) (length (st ++ el :: pushed) - 1))
    as [x Hx]; [rewrite length_app; simpl; lia|].
  rewrite Hx. simpl.
  rewrite lookup_app_r in Hx by (rewrite length_app; simpl; lia).
  by eapply list_elem_of_lookup_2.
Qed.

(** X12: when a child of [div] throws, the engine is left with a context
    that the failed call created.  There is no handler that pops: the current
    context after the exception is a node created during the call, and the
    next element made on the engine is appended to that node, not to the
    context of before. *)
Theorem throw_strands_context children e msg e' :
  Engine_div children e = Thrown msg e' →
  length (eng_document e) ≤ currentContext e' < length (eng_document e') ∧
  ∀ tag text,
    ∃ e'', Engine_call (CallElement tag text) e'
             = Returned (Some (length (eng_document e'))) e'' ∧
           parentNode (length (eng_document e')) (eng_document e'')
             = Some (currentContext e').
Proof.
  intros Hdiv.
  assert (eng_ready e = true) as Hr.
  { unfold Engine_div in Hdiv. simpl in Hdiv. by destruct (eng_ready e). }
  assert (eng_ready e' = true) as Hr'.
  { pose proof (proj1 Engine_ready_kept (CallDiv children) e) as H.
    unfold Engine_div in Hdiv. rewrite Hdiv in H. simpl in H. congruence. }
  split.
  - unfold Engine_div in Hdiv. simpl in Hdiv. rewrite Hr in Hdiv.
    match type of Hdiv with context [Engine_children ?el children ?e1] =>
      pose proof (proj1 (proj2 Engine_strands) children el e1) as (Hlen & pushed & Hs & Hall);
      destruct (Engine_children el children e1) as [[] e2|msg2 e2]; [done|]
    end.
    injection Hdiv as -> ->. simpl in *.
    rewrite length_appendChild, length_app in Hlen. simpl in Hlen.
    rewrite length_appendChild, length_app in Hall. simpl in Hall.
    rewrite <- app_assoc in Hs. simpl in Hs.
    pose proof (currentContext_last _ _ _ _ Hs) as Hin.
    apply elem_of_cons in Hin as [->|Hin]; [lia|].
    pose proof (proj1 (Forall_forall _ _) Hall _ Hin) as H. simpl in H. lia.
  - intros tag text. simpl. rewrite Hr'. eexists. split; [reflexivity|]. simpl.
    rewrite parentNode_appendChild by (rewrite length_app; simpl; lia).
    by rewrite decide_True.
Qed.

Lemma throw_strands_context_witness :
  ∃ e', Engine_div throwing_child (Engine_new true) = Thrown "boom" e' ∧
    (length (eng_document (Engine_new true)) ≤ currentContext e' < length (eng_document e')) ∧
    ∀ tag text,
      ∃ e'', Engine_call (CallElement tag text) e'
               = Returned (Some (length (eng_document e'))) e'' ∧
             parentNode (length (eng_document e')) (eng_document e'')
               = Some (currentContext e').
Proof.
  eexists. split; [reflexivity|].
  apply (throw_strands_context throwing_child (Engine_new true) "boom"). reflexivity.
Defined.

End Stranded.

Section PageTree.

(** [p.appendChild(c)] for a child [c] of another node [p0]: [c] moves. *)
Lemma move_child p0 p c d :
  parentNode c d = Some p0 → p0 ≠ p → p < length d → c < length d →
  let d' := appendChild p c d in
  length d' = length d ∧
  childNodes p d' = childNodes p d ++ [c] ∧
  childNodes p0 d' = filter (λ x, x ≠ c) (childNodes p0 d) ∧
  (∀ m, m ≠ p → m ≠ p0 → childNodes m d' = childNodes m d) ∧
  parentNode c d' = Some p ∧
  (∀ m, m ≠ c → parentNode m d' = parentNode m d) ∧
  (∀ m, node_markup m d' = node_markup m d).
Proof.
  intros Hc Hne Hp Hlt d'.
  assert (∀ q, childNodes q d'
               = if decide (q = p) then childNodes p (Node_remove c d) ++ [c]
                 else childNodes q (Node_remove c d)) as Hch.
  { intros q. unfold d', appendChild.
    rewrite childNodes_set_parent, childNodes_set_children, length_Node_remove.
    repeat case_decide; try done; intuition (congruence || lia). }
  split_and!.
  - apply length_appendChild.
  - rewrite Hch, decide_True by done. rewrite childNodes_Node_remove.
    rewrite decide_False by congruence. done.
  - rewrite Hch, decide_False by done. rewrite childNodes_Node_remove.
    by rewrite decide_True.
  - intros m Hm1 Hm2. rewrite Hch, decide_False by done.
    rewrite childNodes_Node_remove. rewrite decide_False by congruence. done.
  - unfold d'. rewrite parentNode_appendChild by done. by rewrite decide_True.
  - intros m Hm. unfold d'. rewrite parentNode_appendChild by done.
    by rewrite decide_False.
  - intros m. apply node_markup_appendChild.
Qed.

Lemma children_placed_same children t parent d d' :
  (∀ c, c ∈ child_nodes children t →
        node_markup c d' = node_markup c d ∧ parentNode c d' = parentNode c d ∧
        childNodes c d' = childNodes c d) →
  children_placed children t parent d → children_placed children t parent d'.
Proof.
  revert t. induction children as [|[s|c] children IH]; intros t Hsame; [done| |].
  - intros [(H1 & H2 & H3) H4]. simpl.
    destruct (Hsame t) as (E1 & E2 & E3); [apply list_elem_of_here|].
    rewrite E1, E2, E3. split; [done|]. apply IH; [|done].
    intros c Hc. apply Hsame. simpl. by apply list_elem_of_further.
  - intros [H1 H2]. simpl.
    destruct (Hsame c) as (E1 & E2 & E3); [apply list_elem_of_here|].
    rewrite E2. split; [done|]. apply IH; [|done].
    intros c' Hc'. apply Hsame. simpl. by apply list_elem_of_further.
Qed.

Lemma child_nodes_range children t c :
  c ∈ child_nodes children t → c ∈ child_elements children ∨ t ≤ c.
Proof.
  revert t. induction children as [|[s|c0] children IH]; intros t Hc; simpl in *.
  - by apply elem_of_nil in Hc.
  - apply elem_of_cons in Hc as [->|Hc]; [right; lia|].
    destruct (IH _ Hc) as [H|H]; [by left|right; lia].
  - apply elem_of_cons in Hc as [->|Hc]; [left; apply list_elem_of_here|].
    destruct (IH _ Hc) as [H|H]; [left; by apply list_elem_of_further|by right].
Qed.


Lemma child_elements_cons_string s children :
  child_elements (DivString s :: children) = child_elements children.
Proof. done. Qed.

Lemma child_elements_cons_element c children :
  child_elements (DivElement c :: children) = c :: child_elements children.
Proof. done. Qed.

(** The body of [div]: [children.forEach(child => ...)], for children that
    are strings and elements under the body, when no node from [lo] on holds
    the new element. *)
Lemma div_children_placed lo el cs0 children pg :
  body < length (document pg) → el < length (document pg) → el ≠ body →
  childNodes body (document pg) = cs0 ++ child_elements children →
  NoDup (childNodes body (document pg)) →
  (∀ c, c ∈ child_elements children →
        c < length (document pg) ∧ c ≠ el ∧ c ≠ body ∧
        parentNode c (document pg) = Some body ∧ lo ≤ c) →
  body < lo → lo ≤ el → above lo (document pg) →
  (∀ m, lo ≤ m → el ∉ childNodes m (document pg)) →
  let d := document pg in
  ∃ pg', div_children el children pg = Returned () pg' ∧
    contextStack pg' = contextStack pg ∧
    let d' := document pg' in
    length d' = length d + child_strings children ∧
    childNodes body d' = cs0 ∧
    childNodes el d' = childNodes el d ++ child_nodes children (length d) ∧
    children_placed children (length d) el d' ∧
    (∀ m, m < length d → m ≠ body → m ≠ el → childNodes m d' = childNodes m d) ∧
    (∀ m, m < length d → m ∉ child_elements children → parentNode m d' = parentNode m d) ∧
    (∀ m, m < length d → node_markup m d' = node_markup m d) ∧
    above lo d'.
Proof.
  revert pg. induction children as [|[s|c] children IH];
    intros pg Hb Hel Hne Hbody Hnd Hcs Hlo1 Hlo2 Habove Horphan.
  - exists pg. simpl in *. rewrite app_nil_r in *. split_and!; try done; lia.
  - (* a string *)
    cbn [div_children div_child]. rewrite child_elements_cons_string in *.
    destruct pg as [st d]. cbn [document contextStack with_document createNode] in *.
    set (mk := {| mk_kind := TextNode; mk_text := s |}).
    change (d ++ [_]) with (createNode mk d).2.
    pose proof (create_append mk el d Hel) as H. cbv zeta in H.
    destruct H as (C1 & C2 & C3 & C4 & C5 & C6 & C7).
    set (d1 := appendChild el (length d) (createNode mk d).2) in *.
    set (pg1 := {| contextStack := st; document := d1 |}).
    change (with_document (λ _, d1) {| contextStack := st; document := d |}) with pg1.
    destruct (IH pg1) as (pg' & Hrun & Hst' & I1 & I2 & I3 & I4 & I5 & I6 & I7 & I8); simpl.
    + lia.
    + lia.
    + done.
    + rewrite C6 by (done || lia). done.
    + rewrite C6 by (done || lia). done.
    + intros c Hc. destruct (Hcs c Hc) as (H1 & H2 & H3 & H4 & H5).
      split_and!; try done; [lia|]. destruct (C7 c H1) as [-> _]. done.
    + done.
    + done.
    + unfold d1. apply above_appendChild; [by apply above_createNode|].
      intros _. rewrite length_createNode. lia.
    + intros m Hm Hin. unfold d1 in Hin.
      apply childNodes_appendChild_elem in Hin as [Hin|[_ Heq]]; [|lia].
      rewrite childNodes_createNode in Hin. by apply (Horphan m).
    + exists pg'. split; [exact Hrun|]. split; [exact Hst'|].
      simpl in I1, I2, I3, I4, I5, I6, I7, I8. rewrite C1 in *.
      refine (conj _ (conj _ (conj _ (conj _ (conj _ (conj _ (conj _ _))))))).
      * simpl. lia.
      * done.
      * rewrite I3, C2. by rewrite <- app_assoc.
      * simpl. split; [|done].
        assert (length d ∉ child_elements children) as Hnot.
        { intros Hin. destruct (Hcs _ Hin) as [? _]. lia. }
        split_and!.
        -- rewrite I7 by lia. exact C5.
        -- rewrite I6 by (done || lia). exact C4.
        -- rewrite I5 by lia. exact C3.
      * intros m Hm1 Hm2 Hm3. rewrite I5 by lia. by apply C6.
      * intros m Hm1 Hm2. rewrite I6 by (done || lia). by apply C7.
      * intros m Hm. rewrite I7 by lia. by apply C7.
      * done.
  - (* an element *)
    cbn [div_children div_child]. rewrite child_elements_cons_element in *.
    destruct pg as [st d]. cbn [document contextStack with_document] in *.
    destruct (Hcs c) as (Hc1 & Hc2 & Hc3 & Hc4 & Hc5); [apply list_elem_of_here|].
    rewrite (Node_appendChild_ok el c d Hc1)
      by (apply (descends_orphan lo); [done|done|done|by intros ->]).
    pose proof (move_child body el c d Hc4 ltac:(congruence) Hel Hc1) as H. cbv zeta in H.
    destruct H as (M1 & M2 & M3 & M4 & M5 & M6 & M7).
    set (d1 := appendChild el c d) in *.
    set (pg1 := {| contextStack := st; document := d1 |}).
    change (with_document (λ _, d1) {| contextStack := st; document := d |})
      with pg1.
    rewrite Hbody in Hnd. apply NoDup_middle in Hnd as (Hn1 & Hn2 & Hn3).
    destruct (IH pg1) as (pg' & Hrun & Hst' & I1 & I2 & I3 & I4 & I5 & I6 & I7 & I8); simpl.
    + lia.
    + lia.
    + done.
    + rewrite M3, Hbody. by apply filter_ne_middle.
    + rewrite M3, Hbody. by rewrite filter_ne_middle.
    + intros c' Hc'. destruct (Hcs c') as (H1 & H2 & H3 & H4 & H5);
        [by apply list_elem_of_further|].
      split_and!; try done; [lia|]. rewrite M6; [done|]. by intros ->.
    + done.
    + done.
    + unfold d1. apply above_appendChild; [done|]. intros _. lia.
    + intros m Hm Hin. unfold d1 in Hin.
      apply childNodes_appendChild_elem in Hin as [Hin|[_ Heq]]; [|done].
      by apply (Horphan m).
    + exists pg'. split; [exact Hrun|]. split; [exact Hst'|].
      simpl in I1, I2, I3, I4, I5, I6, I7, I8. rewrite M1 in *.
      refine (conj _ (conj _ (conj _ (conj _ (conj _ (conj _ (conj _ _))))))).
      * simpl. lia.
      * done.
      * rewrite I3, M2. by rewrite <- app_assoc.
      * simpl. split; [|done]. rewrite I6; done.
      * intros m Hm1 Hm2 Hm3. rewrite I5 by done. by apply M4.
      * intros m Hm1 Hm2. apply not_elem_of_cons in Hm2 as [Hm2 Hm3].
        rewrite I6 by done. by apply M6.
      * intros m Hm. rewrite I7 by done. apply M7.
      * done.
Qed.

Lemma no_children (children : list DivChild) : length children = 0 → children = [].
Proof. by destruct children. Qed.

(** [div(props, ...children)] between two calls, for children that are
    strings and elements under the body which hold only nodes from [lo]
    on. *)
Lemma div_spec lo cs0 children pg :
  contextStack pg = [body] → body < length (document pg) →
  childNodes body (document pg) = cs0 ++ child_elements children →
  NoDup (childNodes body (document pg)) →
  (∀ c, c ∈ child_elements children →
        c < length (document pg) ∧ c ≠ body ∧ parentNode c (document pg) = Some body ∧
        lo ≤ c) →
  body < lo → lo ≤ length (document pg) → above lo (document pg) →
  let d := document pg in
  let el := length d in
  ∃ pg', div children pg = Returned el pg' ∧
    contextStack pg' = [body] ∧
    length (document pg') = S el + child_strings children ∧
    childNodes body (document pg') = cs0 ++ [el] ∧
    node_markup el (document pg') = Some {| mk_kind := ElementNode "div"; mk_text := "" |} ∧
    parentNode el (document pg') = Some body ∧
    childNodes el (document pg') = child_nodes children (S el) ∧
    children_placed children (S el) el (document pg') ∧
    (∀ m, m < el → m ≠ body → childNodes m (document pg') = childNodes m d) ∧
    (∀ m, m < el → m ∉ child_elements children →
          parentNode m (document pg') = parentNode m d) ∧
    (∀ m, m < el → node_markup m (document pg') = node_markup m d) ∧
    above lo (document pg').
Proof.
  intros Hst Hb Hbody Hnd Hcs Hlo1 Hlo2 Habove d el. unfold div.
  destruct pg as [st d0]. cbn [document contextStack with_document createNode] in *.
  subst st. subst d.
  set (mk := {| mk_kind := ElementNode "div"; mk_text := "" |}).
  change (d0 ++ [_]) with (createNode mk d0).2.
  set (d1 := (createNode mk d0).2).
  set (pg1 := {| contextStack := [body]; document := d1 |}).
  change (with_document (λ _, d1) {| contextStack := [body]; document := d0 |}) with pg1.
  assert (length d1 = S el) as Hlen1 by apply length_createNode.
  assert (parentNode el d1 = None) as Hfresh.
  { unfold d1. rewrite parentNode_createNode. by apply parentNode_out_of_range. }
  assert (childNodes el d1 = []) as Hnone.
  { unfold d1. rewrite childNodes_createNode. by apply childNodes_out_of_range. }
  pose proof (div_children_placed lo el cs0 children (pushContext el pg1)) as H.
  change (document (pushContext el pg1)) with d1 in H. cbv zeta in H.
  destruct H as (pg2 & Hrun & Hst2 & F1 & F2 & F3 & F4 & F5 & F6 & F7 & F8).
  { lia. } { lia. } { unfold el. lia. }
  { unfold d1. by rewrite childNodes_createNode. }
  { unfold d1. by rewrite childNodes_createNode. }
  { intros c Hc. destruct (Hcs c Hc) as (H1 & H2 & H3 & H4). split_and!; try done.
    - lia.
    - unfold el. lia.
    - unfold d1. by rewrite parentNode_createNode. }
  { done. } { done. } { unfold d1. by apply above_createNode. }
  { intros m Hm Hin. unfold d1 in Hin. rewrite childNodes_createNode in Hin.
    apply (Habove m _ Hm) in Hin. unfold el in Hin. lia. }
  change (contextStack (pushContext el pg1)) with ([body] ++ [el]) in Hst2.
  set (d2 := document pg2) in *.
  match goal with |- ∃ pg', ?X = _ ∧ _ =>
    assert (X = div_append el {| contextStack := [body]; document := d2 |}) as ->
  end.
  { fold el. case_decide as Hlen.
    - rewrite Hrun. f_equal. unfold popContext.
      rewrite decide_True by (rewrite Hst2; simpl; lia). by rewrite Hst2.
    - assert (children = []) as -> by (apply no_children; lia).
      simpl in Hrun. injection Hrun as <-. done. }
  rewrite Hlen1 in *.
  assert (parentNode el d2 = None) as Hdetached.
  { rewrite F6; [done|lia|]. intros Hin. destruct (Hcs _ Hin) as [? _]. unfold el in *. lia. }
  assert (body < length d2) as Hb2 by lia.
  assert (el < length d2) as Hel2 by lia.
  unfold div_append, getCurrentContext. cbn [contextStack document length]. simpl lookup.
  cbv beta iota.
  rewrite (Node_appendChild_ok body el d2 Hel2)
    by (apply (Node_contains_above lo); [done|done|done]).
  eexists. split; [reflexivity|]. cbn [document contextStack with_document].
  rewrite Hnone in F3. simpl in F3. unfold d1 in F5, F6, F7.
  refine (conj _ (conj _ (conj _ (conj _ (conj _ (conj _ (conj _ (conj _ (conj _
            (conj _ _)))))))))).
  - done.
  - rewrite length_appendChild. lia.
  - rewrite childNodes_appendChild_detached by done. by rewrite decide_True, F2.
  - rewrite node_markup_appendChild, F7 by lia. apply node_markup_createNode_new.
  - rewrite parentNode_appendChild by done. by rewrite decide_True.
  - rewrite childNodes_appendChild_detached by done.
    rewrite decide_False by (unfold el; lia). done.
  - eapply children_placed_same; [|exact F4].
    intros c Hc. split_and!.
    + apply node_markup_appendChild.
    + rewrite parentNode_appendChild by done. rewrite decide_False; [done|].
      intros ->. apply child_nodes_range in Hc as [Hc|Hc]; [|lia].
      destruct (Hcs _ Hc) as [? _]. unfold el in *. lia.
    + rewrite childNodes_appendChild_detached by done. rewrite decide_False; [done|].
      intros ->. apply child_nodes_range in Hc as [Hc|Hc]; [|unfold el in *; lia].
      by destruct (Hcs _ Hc) as (_ & ? & _).
  - intros m Hm1 Hm2. rewrite childNodes_appendChild_detached by done.
    rewrite decide_False by done. rewrite F5 by lia. apply childNodes_createNode.
  - intros m Hm1 Hm2. rewrite parentNode_appendChild by done.
    rewrite decide_False by lia. rewrite F6 by (done || lia). apply parentNode_createNode.
  - intros m Hm. rewrite node_markup_appendChild, F7 by lia.
    by apply node_markup_createNode_old.
  - apply above_appendChild; [done|]. unfold body in *. lia.
Qed.


Lemma root_expr_range e n : n ≤ root_expr e n < n + nodes_expr e.
Proof. destruct e; simpl; lia. Qed.

Lemma arg_roots_range args n c :
  c ∈ child_elements (values_args args n) → n ≤ c < n + nodes_args args.
Proof.
  revert n. induction args as [|s rest IH|e rest IH]; intros n Hc;
    cbn [values_args nodes_args] in *.
  - by apply elem_of_nil in Hc.
  - rewrite child_elements_cons_string in Hc. by apply IH.
  - rewrite child_elements_cons_element in Hc. apply elem_of_cons in Hc as [->|Hc].
    + pose proof (root_expr_range e n). lia.
    + apply IH in Hc. lia.
Qed.

Lemma arg_roots_NoDup args n : NoDup (child_elements (values_args args n)).
Proof.
  revert n. induction args as [|s rest IH|e rest IH]; intros n; cbn [values_args].
  - constructor.
  - rewrite child_elements_cons_string. apply IH.
  - rewrite child_elements_cons_element. constructor; [|apply IH].
    intros Hin. apply arg_roots_range in Hin. pose proof (root_expr_range e n). lia.
Qed.

Lemma child_strings_values args n : child_strings (values_args args n) = strings_args args.
Proof.
  revert n. induction args as [|s rest IH|e rest IH]; intros n; simpl; by rewrite ?IH.
Qed.

Lemma tree_expr_parent e n parent d :
  tree_expr e n parent d → parentNode (root_expr e n) d = Some parent.
Proof. destruct e; simpl; by intros (_ & ? & _). Qed.

Lemma trees_args_roots args n parent d c :
  trees_args args n parent d → c ∈ child_elements (values_args args n) →
  parentNode c d = Some parent.
Proof.
  revert n. induction args as [|s rest IH|e rest IH]; intros n Ht Hc;
    cbn [values_args trees_args] in *.
  - by apply elem_of_nil in Hc.
  - rewrite child_elements_cons_string in Hc. by eapply IH.
  - destruct Ht as [Ht1 Ht2]. rewrite child_elements_cons_element in Hc.
    apply elem_of_cons in Hc as [->|Hc]; [by apply tree_expr_parent|by eapply IH].
Qed.

(** A subtree is read off its own nodes, and stays a subtree when its root
    is given another parent. *)
Lemma tree_moved d d' :
  (∀ e n parent parent',
     (∀ m, n ≤ m < n + nodes_expr e →
        childNodes m d' = childNodes m d ∧ node_markup m d' = node_markup m d ∧
        (m ≠ root_expr e n → parentNode m d' = parentNode m d)) →
     parentNode (root_expr e n) d' = Some parent' →
     tree_expr e n parent d → tree_expr e n parent' d') ∧
  (∀ args n t parent,
     same_nodes n (n + nodes_args args) d d' →
     same_nodes t (t + strings_args args) d d' →
     tree_args args n t parent d → tree_args args n t parent d').
Proof.
  apply Expr_mutind.
  - intros tag text n parent parent' Hs Hp (H1 & H2 & H3). simpl in *.
    destruct (Hs n) as (E1 & E2 & _); [lia|]. by rewrite E1, E2.
  - intros args IH n parent parent' Hs Hp (H1 & H2 & H3 & H4). simpl in *.
    destruct (Hs (n + nodes_args args)) as (E1 & E2 & _); [lia|]. rewrite E1, E2.
    refine (conj H1 (conj Hp (conj H3 _))). apply (IH n _ _); [| |done].
    + intros m Hm. destruct (Hs m) as (F1 & F2 & F3); [lia|].
      split; [done|]. split; [apply F3; lia|done].
    + intros m Hm. destruct (Hs m) as (F1 & F2 & F3); [lia|].
      split; [done|]. split; [apply F3; lia|done].
  - done.
  - intros s rest IH n t parent Hs1 Hs2 [(H1 & H2 & H3) H4]. simpl in *.
    destruct (Hs2 t) as (E1 & E2 & E3); [lia|]. rewrite E1, E2, E3.
    split; [done|]. apply IH; [done| |done].
    eapply same_nodes_weaken; [| |exact Hs2]; lia.
  - intros e IHe rest IHr n t parent Hs1 Hs2 [H1 H2]. simpl in *. split.
    + apply (IHe n parent parent); [| |done].
      * intros m Hm. destruct (Hs1 m) as (F1 & F2 & F3); [lia|]. done.
      * pose proof (root_expr_range e n).
        destruct (Hs1 (root_expr e n)) as (_ & -> & _); [lia|].
        by apply tree_expr_parent.
    + apply IHr; [|done|done]. eapply same_nodes_weaken; [| |exact Hs1]; lia.
Qed.

Lemma tree_expr_same e n parent d d' :
  same_nodes n (n + nodes_expr e) d d' → tree_expr e n parent d → tree_expr e n parent d'.
Proof.
  intros Hs Ht. apply (proj1 (tree_moved d d') e n parent parent); [| |done].
  - intros m Hm. destruct (Hs m Hm) as (F1 & F2 & F3). done.
  - pose proof (root_expr_range e n).
    destruct (Hs (root_expr e n)) as (_ & -> & _); [lia|]. by apply tree_expr_parent.
Qed.

Lemma trees_args_same args n parent d d' :
  same_nodes n (n + nodes_args args) d d' →
  trees_args args n parent d → trees_args args n parent d'.
Proof.
  revert n. induction args as [|s rest IH|e rest IH]; intros n Hs Ht; simpl in *.
  - done.
  - by apply IH.
  - destruct Ht as [Ht1 Ht2]. split.
    + apply (tree_expr_same e n parent d); [|done].
      eapply same_nodes_weaken; [| |exact Hs]; lia.
    + apply IH; [|done]. eapply same_nodes_weaken; [| |exact Hs]; lia.
Qed.

(** When [div] has placed its children, the subtrees of its arguments are
    subtrees under its element. *)
Lemma trees_to_tree args n t el parent d d' :
  (∀ m, n ≤ m < n + nodes_args args →
     childNodes m d' = childNodes m d ∧ node_markup m d' = node_markup m d) →
  (∀ m, n ≤ m < n + nodes_args args → m ∉ child_elements (values_args args n) →
     parentNode m d' = parentNode m d) →
  children_placed (values_args args n) t el d' →
  trees_args args n parent d → tree_args args n t el d'.
Proof.
  revert n t. induction args as [|s rest IH|e rest IH]; intros n t Hs Hp Hpl Ht;
    cbn [values_args nodes_args trees_args tree_args children_placed] in *.
  - done.
  - destruct Hpl as [Hpl1 Hpl2]. split; [done|].
    rewrite child_elements_cons_string in Hp. by apply IH.
  - destruct Hpl as [Hpl1 Hpl2]. destruct Ht as [Ht1 Ht2].
    rewrite child_elements_cons_element in Hp.
    pose proof (root_expr_range e n) as Hroot. split.
    + apply (proj1 (tree_moved d d') e n parent el); [|done|done].
      intros m Hm. destruct (Hs m) as [F1 F2]; [lia|]. split; [done|]. split; [done|].
      intros Hne. apply Hp; [lia|]. apply not_elem_of_cons. split; [done|].
      intros Hin. apply arg_roots_range in Hin. lia.
    + apply IH; [| |done|done].
      * intros m Hm. apply Hs. lia.
      * intros m Hm Hnot. apply Hp; [lia|]. apply not_elem_of_cons. split; [lia|done].
Qed.

Lemma grown_ok d size roots d' :
  body_ok d → grown d size roots d' → NoDup roots →
  (∀ r, r ∈ roots → length d ≤ r < length d + size) →
  body_ok d'.
Proof.
  intros (Hd & Hnd & Hlt) (G1 & G2 & _) Hroots Hrange. unfold body_ok.
  rewrite G1, G2. split_and!.
  - lia.
  - apply NoDup_app. split; [done|]. split; [|done].
    intros x Hx Hx'. apply Hlt in Hx. apply Hrange in Hx'. lia.
  - intros x [Hx|Hx]%elem_of_app; [apply Hlt in Hx|apply Hrange in Hx]; lia.
Qed.

Lemma grown_then d d1 d2 size1 size2 roots1 roots2 :
  grown d size1 roots1 d1 → grown d1 size2 roots2 d2 →
  grown d (size1 + size2) (roots1 ++ roots2) d2 ∧
  (0 < length d → same_nodes (length d) (length d + size1) d1 d2).
Proof.
  intros (A1 & A2 & A3 & A4) (B1 & B2 & B3 & B4). split.
  - unfold grown. split_and!.
    + lia.
    + by rewrite B2, A2, app_assoc.
    + intros m Hm Hne. rewrite B3 by lia. by apply A3.
    + intros m Hm. destruct (B4 m) as [-> ->]; [lia|]. by apply A4.
  - intros Hd m Hm. destruct (B4 m) as [-> ->]; [lia|].
    rewrite B3 by (unfold body; lia). done.
Qed.

Lemma eval_builds :
  (∀ e pg, page_ok pg →
     let n := length (document pg) in
     ∃ pg', eval e pg = Returned (root_expr e n) pg' ∧
       page_ok pg' ∧
       grown (document pg) (nodes_expr e) [root_expr e n] (document pg') ∧
       tree_expr e n body (document pg') ∧
       above n (document pg')) ∧
  (∀ args pg, page_ok pg →
     let n := length (document pg) in
     ∃ pg', eval_args args pg = Returned (values_args args n) pg' ∧
       page_ok pg' ∧
       grown (document pg) (nodes_args args) (child_elements (values_args args n))
             (document pg') ∧
       trees_args args n body (document pg') ∧
       above n (document pg')).
Proof.
  apply Expr_mutind.
  - (* h1, h2, p *)
    intros tag text pg [Hst Hok] n. pose proof Hok as (Hd & Hnd & Hlt).
    unfold eval, element_factory. destruct pg as [st d]. simpl in Hst, Hd, Hnd, Hlt, n.
    subst st. cbn [document contextStack with_document createNode].
    set (mk := {| mk_kind := ElementNode tag; mk_text := text |}).
    change (d ++ [_]) with (createNode mk d).2.
    unfold getCurrentContext. cbn [contextStack length]. simpl lookup.
    pose proof (create_append mk body d Hd) as H. cbv zeta in H.
    destruct H as (C1 & C2 & C3 & C4 & C5 & C6 & C7).
    eexists. split; [reflexivity|]. cbn [document contextStack with_document].
    assert (grown d 1 [n] (appendChild body n (createNode mk d).2)) as Hg.
    { unfold grown, n. split_and!; try done; lia. }
    split; [|split; [exact Hg|split; [done|]]].
    + split; [done|]. simpl.
      eapply grown_ok; [exact Hok|exact Hg|apply NoDup_singleton|].
      intros r ->%list_elem_of_singleton. simpl. lia.
    + apply above_appendChild; [apply above_createNode, above_length|].
      unfold body, n in *. lia.
  - (* div *)
    intros args IH pg [Hst Hok] n. pose proof Hok as (Hd & Hnd & Hlt).
    cbn [eval]. fold eval_args.
    destruct (IH pg (conj Hst Hok)) as (pg1 & Hrun & [Hst1 Hok1] & Hg & Ht & Ha).
    cbv zeta in Hrun. fold n in Hrun, Hg, Ht, Ha. rewrite Hrun.
    pose proof Hok1 as (Hd1 & Hnd1 & Hlt1).
    pose proof Hg as (G1 & G2 & G3 & G4).
    pose proof (div_spec n (childNodes body (document pg)) (values_args args n) pg1
                  Hst1 Hd1 G2 Hnd1) as H. cbv zeta in H.
    destruct H as (pg2 & Hdiv & D1 & D2 & D3 & D4 & D5 & D6 & D7 & D8 & D9 & D10 & D11).
    { intros c Hc. pose proof (arg_roots_range args n c Hc) as Hr.
      split; [lia|]. split; [unfold body; lia|]. split; [by eapply trees_args_roots|lia]. }
    { unfold body, n. lia. } { lia. } { done. }
    rewrite G1 in *. fold n in G1, D2, D3, D4, D5, D6, D7, D8, D9, D10, Hdiv.
    exists pg2. split; [exact Hdiv|].
    assert (grown (document pg) (nodes_expr (ExprDiv args)) [n + nodes_args args]
                  (document pg2)) as Hg2.
    { unfold grown. fold n. simpl. split_and!.
      - rewrite D2, child_strings_values. lia.
      - done.
      - intros m Hm Hne. rewrite D8 by (done || lia). by apply G3.
      - intros m Hm. split.
        + rewrite D9; [by apply G4|lia|].
          intros Hin. apply arg_roots_range in Hin. lia.
        + rewrite D10 by lia. by apply G4. }
    split; [|split; [exact Hg2|split; [|exact D11]]].
    + split; [done|]. eapply grown_ok; [exact Hok|exact Hg2|apply NoDup_singleton|].
      intros r ->%list_elem_of_singleton. fold n. simpl. lia.
    + simpl. refine (conj D4 (conj D5 (conj D6 _))).
      apply (trees_to_tree args n _ _ body (document pg1)); [| |done|done].
      * intros m Hm. split; [apply D8; unfold body; lia|apply D10; lia].
      * intros m Hm Hnot. apply D9; [lia|done].
  - (* no arguments *)
    intros pg Hpg n. exists pg. split; [done|]. split; [done|].
    split; [|split; [done|apply above_length]].
    unfold grown. simpl. rewrite app_nil_r. split_and!; try done; lia.
  - (* a string *)
    intros s rest IH pg Hpg n. cbn [eval_args].
    destruct (IH pg Hpg) as (pg1 & Hrun & Hpg1 & Hg & Ht & Ha). cbv zeta in Hrun.
    rewrite Hrun. exists pg1. done.
  - (* an expression *)
    intros e IHe rest IHr pg Hpg n. pose proof Hpg as [_ (Hd & _)].
    cbn [eval_args]. fold eval.
    destruct (IHe pg Hpg) as (pg1 & Hrun1 & Hpg1 & Hg1 & Ht1 & Ha1). cbv zeta in Hrun1.
    fold n in Hrun1, Hg1, Ht1, Ha1. rewrite Hrun1.
    destruct (IHr pg1 Hpg1) as (pg2 & Hrun2 & Hpg2 & Hg2 & Ht2 & Ha2). cbv zeta in Hrun2.
    pose proof Hg1 as (L1 & _). pose proof Hg2 as (L2 & _ & K2 & _).
    assert (above n (document pg2)) as Ha.
    { apply (above_then n (document pg1)); [done|done|lia|].
      intros m Hm. apply K2; unfold body; lia. }
    rewrite L1 in Hrun2, Hg2, Ht2. fold n in Hrun2, Hg2, Ht2.
    rewrite Hrun2. exists pg2. split; [done|]. split; [done|].
    destruct (grown_then _ _ _ _ _ _ _ Hg1 Hg2) as [Hg Hsame]. split; [exact Hg|].
    split; [|exact Ha]. simpl. split; [|done].
    apply (tree_expr_same e n body (document pg1)); [by apply Hsame|done].
Qed.


(** X13: between two calls of [simplest.ts] the context stack holds the
    body only, and an expression of [h1], [h2], [p] and [div] calls with
    string and expression arguments evaluates to the tree that it spells out.
    The call returns its element, which is the last child of the body; a [div]
    has as children, in the order of its arguments, a text node for each
    string and the element of each expression, which is built in the same way
    under it; every node that was in the document before keeps its parent,
    kind and text, and, the body apart, its children. *)
Theorem eval_builds_tree e pg :
  page_ok pg →
  let d := document pg in
  let n := length d in
  ∃ pg', eval e pg = Returned (root_expr e n) pg' ∧
    page_ok pg' ∧
    length (document pg') = n + nodes_expr e ∧
    childNodes body (document pg') = childNodes body d ++ [root_expr e n] ∧
    tree_expr e n body (document pg') ∧
    (∀ m, m < n → m ≠ body → childNodes m (document pg') = childNodes m d) ∧
    (∀ m, m < n →
       parentNode m (document pg') = parentNode m d ∧
       node_markup m (document pg') = node_markup m d).
Proof.
  intros Hpg d n.
  destruct (proj1 eval_builds e pg Hpg)
    as (pg' & Hrun & Hpg' & (G1 & G2 & G3 & G4) & Ht & _).
  exists pg'. done.
Qed.

Lemma initial_page_ok : page_ok initial_page.
Proof. split; [done|apply body_ok_empty_document]. Qed.

Lemma eval_builds_tree_witness :
  ∃ pg', eval page_expr initial_page = Returned (root_expr page_expr 1) pg' ∧
    page_ok pg' ∧
    length (document pg') = 1 + nodes_expr page_expr ∧
    childNodes body (document pg') = [] ++ [root_expr page_expr 1] ∧
    tree_expr page_expr 1 body (document pg') ∧
    (∀ m, m < 1 → m ≠ body →
       childNodes m (document pg') = childNodes m (document initial_page)) ∧
    (∀ m, m < 1 →
       parentNode m (document pg') = parentNode m (document initial_page) ∧
       node_markup m (document pg') = node_markup m (document initial_page)).
Proof. apply (eval_builds_tree page_expr initial_page initial_page_ok). Defined.

Lemma tree_args_roots args n t parent d c :
  tree_args args n t parent d → c ∈ child_elements (values_args args n) →
  parentNode c d = Some parent.
Proof.
  revert n t. induction args as [|s rest IH|e rest IH]; intros n t T Hc;
    cbn [values_args tree_args] in *.
  - by apply elem_of_nil in Hc.
  - rewrite child_elements_cons_string in Hc. destruct T as [_ T].
    exact (IH _ _ T Hc).
  - rewrite child_elements_cons_element in Hc. destruct T as [T1 T2].
    apply elem_of_cons in Hc as [->|Hc].
    + by apply tree_expr_parent.
    + exact (IH _ _ T2 Hc).
Qed.

(** X14: the arguments of a [div] call are evaluated before [div] is
    entered, and each of them that is a call appends its element to the body:
    when the last argument has been evaluated, the elements of the arguments
    are the last children of the body, in the order of the arguments, each with
    its subtree; [div] then moves them from the body under its own element. *)
Theorem arguments_are_appended_to_body_first args pg :
  page_ok pg →
  let d := document pg in
  let n := length d in
  let children := values_args args n in
  ∃ pg1, eval_args args pg = Returned children pg1 ∧
    page_ok pg1 ∧
    childNodes body (document pg1) = childNodes body d ++ child_elements children ∧
    trees_args args n body (document pg1) ∧
    ∃ pg2, eval (ExprDiv args) pg = Returned (length (document pg1)) pg2 ∧
      childNodes body (document pg2) = childNodes body d ++ [length (document pg1)] ∧
      childNodes (length (document pg1)) (document pg2)
        = child_nodes children (S (length (document pg1))) ∧
      ∀ c, c ∈ child_elements children →
        parentNode c (document pg1) = Some body ∧
        parentNode c (document pg2) = Some (length (document pg1)).
Proof.
  intros Hpg d n children.
  destruct (proj2 eval_builds args pg Hpg) as (pg1 & Hrun & Hpg1 & Hg & Ht & _).
  cbv zeta in Hrun. fold n in Hrun, Hg, Ht. fold children in Hrun, Hg.
  pose proof Hg as (G1 & G2 & G3 & G4).
  exists pg1. split; [done|]. split; [done|]. split; [done|]. split; [done|].
  destruct (proj1 eval_builds (ExprDiv args) pg Hpg)
    as (pg2 & Hrun2 & _ & (_ & B & _) & T & _).
  cbv zeta in Hrun2.
  fold n in Hrun2, B, T. cbn [root_expr] in Hrun2, B. rewrite <- G1 in Hrun2, B.
  exists pg2. split; [done|]. split; [done|].
  cbn [tree_expr] in T. cbv zeta in T. destruct T as (_ & _ & T3 & T4).
  rewrite <- G1 in T3, T4. split; [done|].
  intros c Hc. split; [by eapply trees_args_roots|]. by eapply tree_args_roots.
Qed.

Lemma arguments_are_appended_to_body_first_witness :
  ∃ pg1, eval_args (AndExpr (ExprElement "h1" "Title") NoArgs) initial_page
           = Returned [DivElement 1] pg1 ∧
    page_ok pg1 ∧
    childNodes body (document pg1) = [] ++ [1] ∧
    trees_args (AndExpr (ExprElement "h1" "Title") NoArgs) 1 body (document pg1) ∧
    ∃ pg2, eval (ExprDiv (AndExpr (ExprElement "h1" "Title") NoArgs)) initial_page
             = Returned (length (document pg1)) pg2 ∧
      childNodes body (document pg2) = [] ++ [length (document pg1)] ∧
      childNodes (length (document pg1)) (document pg2)
        = child_nodes [DivElement 1] (S (length (document pg1))) ∧
      ∀ c, c ∈ child_elements [DivElement 1] →
        parentNode c (document pg1) = Some body ∧
        parentNode c (document pg2) = Some (length (document pg1)).
Proof.
  apply (arguments_are_appended_to_body_first
           (AndExpr (ExprElement "h1" "Title") NoArgs) initial_page initial_page_ok).
Defined.

End PageTree.

Section LegacyReady.

Lemma append_detached p c d :
  parentNode c d = None → p < length d → c < length d →
  let d' := appendChild p c d in
  length d' = length d ∧
  childNodes p d' = childNodes p d ++ [c] ∧
  (∀ m, m ≠ p → childNodes m d' = childNodes m d) ∧
  parentNode c d' = Some p ∧
  (∀ m, m ≠ c → parentNode m d' = parentNode m d) ∧
  (∀ m, node_markup m d' = node_markup m d).
Proof.
  intros Hc Hp Hlt d'. unfold d'. split_and!.
  - apply length_appendChild.
  - rewrite childNodes_appendChild_detached by done. by rewrite decide_True.
  - intros m Hm. rewrite childNodes_appendChild_detached by done. by rewrite decide_False.
  - rewrite parentNode_appendChild by done. by rewrite decide_True.
  - intros m Hm. rewrite parentNode_appendChild by done. by rewrite decide_False.
  - intros m. apply node_markup_appendChild.
Qed.

Lemma grown_at_nothing ctx d : grown_at ctx d 0 [] d.
Proof. unfold grown_at. rewrite app_nil_r. split_and!; try done; lia. Qed.

Lemma grown_at_then ctx d d1 d2 size1 size2 roots1 roots2 :
  ctx < length d →
  grown_at ctx d size1 roots1 d1 → grown_at ctx d1 size2 roots2 d2 →
  grown_at ctx d (size1 + size2) (roots1 ++ roots2) d2 ∧
  same_nodes (length d) (length d + size1) d1 d2.
Proof.
  intros Hctx (A1 & A2 & A3 & A4) (B1 & B2 & B3 & B4). split.
  - unfold grown_at. split_and!.
    + lia.
    + by rewrite B2, A2, app_assoc.
    + intros m Hm Hne. rewrite B3 by lia. by apply A3.
    + intros m Hm. destruct (B4 m) as [-> ->]; [lia|]. by apply A4.
  - intros m Hm. destruct (B4 m) as [-> ->]; [lia|]. rewrite B3 by lia. done.
Qed.

Lemma Legacy_call_div children lg :
  Legacy_call (CallDiv children) lg =
  let el := length (lg_document lg) in
  let d1 := (createNode {| mk_kind := ElementNode "div"; mk_text := "" |}
               (lg_document lg)).2 in
  let lg1 := lg_with_document (λ _, d1) lg in
  match children with
  | NoChildren => and_return el (add_when_ready el lg1)
  | AndChild _ _ =>
    match Legacy_children el children (lg_with_container (Some el) lg1) with
    | Returned _ lg2 =>
      and_return el (add_when_ready el (lg_with_container (lg_currentContainer lg) lg2))
    | Thrown msg lg2 => Thrown msg lg2
    end
  end.
Proof. by destruct children. Qed.

Lemma final_and_return {S A B} (a : A) (o : Outcome S B) : final (and_return a o) = final o.
Proof. by destruct o. Qed.

(** [addToDOM()] on a ready page, for an element that does not hold the
    current container. *)
Lemma add_when_ready_ready el lg :
  lg_isReady lg = true → el < length (lg_document lg) →
  Node_contains el (getCurrentContainer lg) (lg_document lg) = false →
  add_when_ready el lg
  = Returned () (lg_with_document (appendChild (getCurrentContainer lg) el) lg).
Proof.
  intros Hr Hel Hn. unfold add_when_ready, addToDOM. rewrite Hr.
  by rewrite Node_appendChild_ok.
Qed.

Lemma add_when_ready_new mk lg :
  lg_isReady lg = true → getCurrentContainer lg < length (lg_document lg) →
  let lg1 := lg_with_document (λ _, (createNode mk (lg_document lg)).2) lg in
  add_when_ready (length (lg_document lg)) lg1
  = Returned () (lg_with_document (appendChild (getCurrentContainer lg1)
                                     (length (lg_document lg))) lg1).
Proof.
  intros Hr Hctx lg1. apply add_when_ready_ready; [done| |].
  - unfold lg1. cbn [lg_document lg_with_document]. rewrite length_createNode. lia.
  - unfold lg1, Node_contains. cbn [lg_document lg_with_document].
    apply descends_leaf.
    + rewrite childNodes_createNode. by apply childNodes_out_of_range.
    + change (getCurrentContainer (lg_with_document _ lg)) with (getCurrentContainer lg).
      lia.
Qed.

Lemma above_add_when_ready k el lg :
  above k (lg_document lg) → k ≤ el →
  above k (lg_document (final (add_when_ready el lg))).
Proof.
  intros Ha Hk. unfold add_when_ready, addToDOM. destruct (lg_isReady lg); [|done].
  pose proof (above_Node_appendChild k (getCurrentContainer lg) el (lg_document lg) Ha
                ltac:(done)) as H.
  by destruct (Node_appendChild (getCurrentContainer lg) el (lg_document lg)).
Qed.

Lemma length_add_when_ready el lg :
  length (lg_document (final (add_when_ready el lg))) = length (lg_document lg).
Proof.
  unfold add_when_ready, addToDOM. destruct (lg_isReady lg); [|done].
  pose proof (final_Node_appendChild (getCurrentContainer lg) el (lg_document lg)) as H.
  by destruct (Node_appendChild (getCurrentContainer lg) el (lg_document lg)).
Qed.

(** What a program builds holds only what it builds: the children of the
    nodes from [k] on stay nodes from [k] on. *)
Lemma Legacy_above :
  (∀ c lg k, plain_call c → k ≤ length (lg_document lg) → above k (lg_document lg) →
     k ≤ length (lg_document (final (Legacy_call c lg))) ∧
     above k (lg_document (final (Legacy_call c lg)))) ∧
  (∀ cs el lg k, plain_children cs → k ≤ el → k ≤ length (lg_document lg) →
     above k (lg_document lg) →
     k ≤ length (lg_document (final (Legacy_children el cs lg))) ∧
     above k (lg_document (final (Legacy_children el cs lg)))) ∧
  (∀ ch el lg k, plain_child ch → k ≤ el → k ≤ length (lg_document lg) →
     above k (lg_document lg) →
     k ≤ length (lg_document (final (Legacy_child el ch lg))) ∧
     above k (lg_document (final (Legacy_child el ch lg)))) ∧
  (∀ b lg k, plain_body b → k ≤ length (lg_document lg) → above k (lg_document lg) →
     k ≤ length (lg_document (final (Legacy_body b lg))) ∧
     above k (lg_document (final (Legacy_body b lg)))).
Proof.
  apply Call_mutind.
  - intros tag text lg k _ Hk Ha. cbn [Legacy_call createNode]. rewrite final_and_return.
    split.
    + rewrite length_add_when_ready. simpl. rewrite length_app. lia.
    + apply above_add_when_ready; [|done]. by apply (above_createNode k _ (lg_document lg)).
  - intros children IH lg k Hp Hk Ha. rewrite Legacy_call_div. cbv zeta.
    pose proof (length_createNode {| mk_kind := ElementNode "div"; mk_text := "" |}
                  (lg_document lg)) as Hlen.
    destruct children as [|child rest].
    + rewrite final_and_return. split.
      * rewrite length_add_when_ready. simpl. rewrite length_app. lia.
      * apply above_add_when_ready; [|done]. by apply above_createNode.
    + match goal with |- context [Legacy_children ?el _ ?lg2] =>
        destruct (IH el lg2 k Hp Hk) as [Hk3 Ha3];
          [simpl; rewrite length_app; lia|by apply above_createNode|];
        destruct (Legacy_children el _ lg2) as [[] lg3|msg lg3]
      end; simpl in Hk3, Ha3; [|done].
      rewrite final_and_return. split.
      * by rewrite length_add_when_ready.
      * by apply above_add_when_ready.
  - intros msg lg k Hp. done.
  - intros el lg k _ Hel Hk Ha. done.
  - intros child IHc rest IHr el lg k [Hp1 Hp2] Hel Hk Ha. simpl.
    destruct (IHc el lg k Hp1 Hel Hk Ha) as [Hk1 Ha1].
    destruct (Legacy_child el child lg) as [[] lg1|msg lg1]; [|done].
    by apply IHr.
  - intros s el lg k _ Hel Hk Ha. simpl. rewrite length_appendChild, length_app. split; [lia|].
    apply above_appendChild;
      [by apply (above_createNode k {| mk_kind := TextNode; mk_text := s |})|].
    intros _. rewrite length_app. simpl. lia.
  - intros n el lg k Hp. done.
  - intros body IH el lg k Hp Hel Hk Ha. simpl. by apply IH.
  - intros el lg k _ Hel Hk Ha. done.
  - intros lg k _ Hk Ha. done.
  - intros c IHc rest IHr lg k [Hp1 Hp2] Hk Ha. simpl.
    destruct (IHc lg k Hp1 Hk Ha) as [Hk1 Ha1].
    destruct (Legacy_call c lg) as [r lg1|msg lg1]; [|done].
    by apply IHr.
  - intros block _ rest _ lg k Hp. destruct Hp.
Qed.

Lemma legacy_ok_grown ctx lg lg' size roots :
  legacy_ok lg → lg_currentContainer lg' = lg_currentContainer lg →
  grown_at ctx (lg_document lg) size roots (lg_document lg') → legacy_ok lg'.
Proof.
  unfold legacy_ok, getCurrentContainer. intros [H1 H2] -> (L & _). lia.
Qed.

Lemma Legacy_builds :
  (∀ c lg, plain_call c → lg_isReady lg = true → legacy_ok lg →
     ∃ lg', Legacy_call c lg = Returned (length (lg_document lg)) lg' ∧
       settings_kept lg lg' ∧
       grown_at (getCurrentContainer lg) (lg_document lg) (size_call c)
                [length (lg_document lg)] (lg_document lg') ∧
       tree_call c (length (lg_document lg)) (getCurrentContainer lg) (lg_document lg')) ∧
  (∀ cs el lg, plain_children cs → lg_isReady lg = true → legacy_ok lg →
     lg_currentContainer lg = Some el →
     ∃ lg', Legacy_children el cs lg = Returned () lg' ∧
       settings_kept lg lg' ∧
       grown_at el (lg_document lg) (size_children cs)
                (roots_children cs (length (lg_document lg))) (lg_document lg') ∧
       tree_children cs (length (lg_document lg)) el (lg_document lg')) ∧
  (∀ ch el lg, plain_child ch → lg_isReady lg = true → legacy_ok lg →
     lg_currentContainer lg = Some el →
     ∃ lg', Legacy_child el ch lg = Returned () lg' ∧
       settings_kept lg lg' ∧
       grown_at el (lg_document lg) (size_child ch)
                (roots_child ch (length (lg_document lg))) (lg_document lg') ∧
       tree_child ch (length (lg_document lg)) el (lg_document lg')) ∧
  (∀ b lg, plain_body b → lg_isReady lg = true → legacy_ok lg →
     ∃ lg', Legacy_body b lg = Returned () lg' ∧
       settings_kept lg lg' ∧
       grown_at (getCurrentContainer lg) (lg_document lg) (size_body b)
                (roots_body b (length (lg_document lg))) (lg_document lg') ∧
       tree_body b (length (lg_document lg)) (getCurrentContainer lg) (lg_document lg')).
Proof.
  apply Call_mutind.
  - (* an element factory *)
    intros tag text lg _ Hr [Hd Hctx]. cbn [Legacy_call createNode].
    pose proof (add_when_ready_new {| mk_kind := ElementNode tag; mk_text := text |}
                  lg Hr Hctx) as Hadd.
    cbv zeta in Hadd. cbn [createNode snd] in Hadd. rewrite Hadd.
    pose proof (create_append {| mk_kind := ElementNode tag; mk_text := text |}
                  (getCurrentContainer lg) (lg_document lg) Hctx) as H.
    cbv zeta in H. destruct H as (C1 & C2 & C3 & C4 & C5 & C6 & C7).
    eexists. split; [reflexivity|]. split; [done|]. unfold grown_at. simpl.
    change (lg_document lg ++ [_])
      with (createNode {| mk_kind := ElementNode tag; mk_text := text |}
              (lg_document lg)).2.
    change (getCurrentContainer (lg_with_document _ lg)) with (getCurrentContainer lg).
    split; [split_and!; try done; lia|done].
  - (* div *)
    intros children IH lg Hp Hr [Hd Hctx]. simpl in Hp.
    pose proof (length_createNode {| mk_kind := ElementNode "div"; mk_text := "" |}
                  (lg_document lg)) as Hlen.
    rewrite Legacy_call_div. cbv zeta.
    set (el := length (lg_document lg)).
    set (d1 := (createNode {| mk_kind := ElementNode "div"; mk_text := "" |}
                  (lg_document lg)).2) in *.
    set (lg1 := lg_with_document (λ _, d1) lg).
    destruct children as [|child rest].
    + pose proof (create_append {| mk_kind := ElementNode "div"; mk_text := "" |}
                    (getCurrentContainer lg) (lg_document lg) Hctx) as H.
      cbv zeta in H. destruct H as (C1 & C2 & C3 & C4 & C5 & C6 & C7).
      subst lg1 d1 el.
      pose proof (add_when_ready_new {| mk_kind := ElementNode "div"; mk_text := "" |}
                    lg Hr Hctx) as Hadd.
      cbv zeta in Hadd. rewrite Hadd.
      eexists. split; [reflexivity|]. split; [done|]. unfold grown_at. simpl.
      change (lg_document lg ++ [_])
        with (createNode {| mk_kind := ElementNode "div"; mk_text := "" |}
                (lg_document lg)).2.
      change (getCurrentContainer (lg_with_document _ lg)) with (getCurrentContainer lg).
      split; [split_and!; try done; lia|done].
    + set (lg2 := lg_with_container (Some el) lg1).
      assert (legacy_ok lg2) as Hok2.
      { unfold legacy_ok, getCurrentContainer. simpl. fold d1. unfold el in *. lia. }
      destruct (IH el lg2 Hp Hr Hok2 eq_refl) as (lg3 & Hrun & (K1 & K2 & K3) & Hg & Ht).
      rewrite Hrun.
      destruct (proj1 (proj2 Legacy_above) (AndChild child rest) el lg2 el Hp)
        as [Hk3 Ha3]; [done|simpl; fold d1; lia|apply above_createNode, above_length|].
      rewrite Hrun in Hk3, Ha3. cbn [final] in Hk3, Ha3.
      rewrite (add_when_ready_ready el (lg_with_container (lg_currentContainer lg) lg3));
        [|simpl; rewrite K1; exact Hr
         |simpl; rewrite (proj1 Hg); change (lg_document lg2) with d1; lia|].
      2:{ apply (Node_contains_above el); [exact Ha3|done|].
          change (getCurrentContainer (lg_with_container _ lg3))
            with (getCurrentContainer lg). unfold el. lia. }
      eexists. split; [reflexivity|].
      split; [by split_and!|]. simpl.
      change (getCurrentContainer (lg_with_container _ lg3)) with (getCurrentContainer lg).
      change (lg_document lg2) with d1 in Hg, Ht.
      destruct Hg as (G1 & G2 & G3 & G4).
      assert (parentNode el d1 = None) as Hfresh.
      { unfold d1. rewrite parentNode_createNode. by apply parentNode_out_of_range. }
      assert (parentNode el (lg_document lg3) = None) as Hdet.
      { destruct (G4 el) as [-> _]; [unfold el; lia|done]. }
      pose proof (append_detached (getCurrentContainer lg) el (lg_document lg3) Hdet
                    ltac:(lia) ltac:(unfold el; lia)) as H.
      cbv zeta in H. destruct H as (A1 & A2 & A3 & A4 & A5 & A6).
      assert (getCurrentContainer lg ≠ el) as Hne by (unfold el; lia).
      split.
      * unfold grown_at. split_and!.
        -- rewrite A1, G1, Hlen. simpl. lia.
        -- rewrite A2, G3 by (unfold el in *; lia). unfold d1.
           by rewrite childNodes_createNode.
        -- intros m Hm Hmc. rewrite A3 by done.
           destruct (decide (m = el)) as [->|Hmel]; [unfold el in Hm; lia|].
           rewrite G3 by (unfold el in *; lia). unfold d1. by rewrite childNodes_createNode.
        -- intros m Hm. rewrite A5 by (unfold el; lia). rewrite A6.
           destruct (G4 m) as [-> ->]; [lia|]. unfold d1.
           rewrite parentNode_createNode. by rewrite node_markup_createNode_old.
      * cbn [tree_call]. refine (conj _ (conj _ (conj _ _))).
        -- rewrite A6. destruct (G4 el) as [_ ->]; [unfold el; lia|].
           apply node_markup_createNode_new.
        -- done.
        -- rewrite A3 by done. rewrite G2. unfold d1 at 1. rewrite childNodes_createNode.
           rewrite childNodes_out_of_range by (unfold el; lia). simpl.
           by rewrite Hlen.
        -- rewrite Hlen in Ht.
           apply (proj1 (proj2 (tree_same_nodes (lg_document lg3)
                    (appendChild (getCurrentContainer lg) el (lg_document lg3))))
                    (AndChild child rest) (S el) el);
             [|exact Ht].
           intros m Hm. rewrite A3, A5, A6 by (unfold el in *; lia). done.
  - (* throw *)
    intros msg lg Hp. done.
  - (* no children *)
    intros el lg _ Hr Hok Hctx. simpl. eexists. split; [reflexivity|].
    split; [done|]. split; [apply grown_at_nothing|done].
  - (* children.forEach *)
    intros child IHc rest IHr el lg [Hp1 Hp2] Hr Hok Hctx. simpl.
    destruct (IHc el lg Hp1 Hr Hok Hctx) as (lg1 & Hrun1 & (K1 & K2 & K3) & Hg1 & Ht1).
    rewrite Hrun1.
    pose proof (legacy_ok_grown _ _ _ _ _ Hok K3 Hg1) as Hok1.
    pose proof Hg1 as (L1 & _).
    destruct (IHr el lg1 Hp2 ltac:(congruence) Hok1 ltac:(congruence))
      as (lg2 & Hrun2 & (K4 & K5 & K6) & Hg2 & Ht2).
    rewrite Hrun2. exists lg2. split; [done|].
    split; [unfold settings_kept; split_and!; congruence|].
    assert (el < length (lg_document lg)) as Hel.
    { destruct Hok as [_ H]. unfold getCurrentContainer in H. by rewrite Hctx in H. }
    rewrite L1 in Hg2, Ht2.
    destruct (grown_at_then el _ _ _ _ _ _ _ Hel Hg1 Hg2) as [Hg Hsame].
    split; [exact Hg|]. split; [|exact Ht2].
    by apply (proj1 (proj2 (proj2 (tree_same_nodes (lg_document lg1) (lg_document lg2))))).
  - (* a string *)
    intros s el lg _ Hr Hok Hctx. simpl.
    assert (el < length (lg_document lg)) as Hel.
    { destruct Hok as [_ H]. unfold getCurrentContainer in H. by rewrite Hctx in H. }
    pose proof (create_append {| mk_kind := TextNode; mk_text := s |}
                  el (lg_document lg) Hel) as H.
    cbv zeta in H. destruct H as (C1 & C2 & C3 & C4 & C5 & C6 & C7).
    eexists. split; [reflexivity|]. split; [done|]. unfold grown_at. simpl.
    change (lg_document lg ++ [_])
      with (createNode {| mk_kind := TextNode; mk_text := s |} (lg_document lg)).2.
    split; [split_and!; try done; lia|done].
  - (* an element *)
    intros n el lg Hp. done.
  - (* a function *)
    intros body IH el lg Hp Hr Hok Hctx. simpl.
    replace el with (getCurrentContainer lg)
      by (unfold getCurrentContainer; by rewrite Hctx).
    by apply IH.
  - (* anything else *)
    intros el lg _ Hr Hok Hctx. simpl. eexists. split; [reflexivity|].
    split; [done|]. split; [apply grown_at_nothing|done].
  - (* the end of a function body *)
    intros lg _ Hr Hok. simpl. eexists. split; [reflexivity|].
    split; [done|]. split; [apply grown_at_nothing|done].
  - (* a function body, statement by statement *)
    intros c IHc rest IHr lg [Hp1 Hp2] Hr Hok. simpl.
    destruct (IHc lg Hp1 Hr Hok) as (lg1 & Hrun1 & (K1 & K2 & K3) & Hg1 & Ht1).
    rewrite Hrun1.
    pose proof (legacy_ok_grown _ _ _ _ _ Hok K3 Hg1) as Hok1.
    pose proof Hg1 as (L1 & _).
    destruct (IHr lg1 Hp2 ltac:(congruence) Hok1)
      as (lg2 & Hrun2 & (K4 & K5 & K6) & Hg2 & Ht2).
    rewrite Hrun2. exists lg2. split; [done|].
    split; [unfold settings_kept; split_and!; congruence|].
    assert (getCurrentContainer lg1 = getCurrentContainer lg) as Hsame1
      by (unfold getCurrentContainer; by rewrite K3).
    rewrite Hsame1, L1 in Hg2, Ht2.
    destruct Hok as [_ Hctx].
    destruct (grown_at_then _ _ _ _ _ _ _ _ Hctx Hg1 Hg2) as [Hg Hsame].
    split; [exact Hg|]. split; [|exact Ht2].
    by apply (proj1 (tree_same_nodes (lg_document lg1) (lg_document lg2))).
  - (* try *)
    intros block _ rest _ lg Hp. destruct Hp.
Qed.

(** X15: once the page is ready, a program of element factory calls and
    [div] calls with string and function arguments returns under
    [simplest.js] and builds the tree that it spells out, the same tree as
    under the engine of [simplest-v2.js].  The call returns the node it has
    created and appended as the last child of the current container; a [div]
    has as children, in the order of its arguments, a text node for each
    string and the nodes created by the statements of each function; the
    current container and the queue are those of before, and every node that
    was in the document before keeps its parent, kind and text, and, the
    container apart, its children. *)
Theorem Legacy_call_builds_tree c lg :
  plain_call c → lg_isReady lg = true → legacy_ok lg →
  let d := lg_document lg in
  let ctx := getCurrentContainer lg in
  ∃ lg', Legacy_call c lg = Returned (length d) lg' ∧
    lg_currentContainer lg' = lg_currentContainer lg ∧
    lg_elementQueue lg' = lg_elementQueue lg ∧
    length (lg_document lg') = length d + size_call c ∧
    childNodes ctx (lg_document lg') = childNodes ctx d ++ [length d] ∧
    tree_call c (length d) ctx (lg_document lg') ∧
    (∀ m, m < length d → m ≠ ctx → childNodes m (lg_document lg') = childNodes m d) ∧
    (∀ m, m < length d →
       parentNode m (lg_document lg') = parentNode m d ∧
       node_markup m (lg_document lg') = node_markup m d).
Proof.
  intros Hp Hr Hok d ctx.
  destruct (proj1 Legacy_builds c lg Hp Hr Hok) as (lg' & Hrun & (K1 & K2 & K3) & Hg & Ht).
  destruct Hg as (G1 & G2 & G3 & G4).
  exists lg'. split_and!; done.
Qed.

Lemma Legacy_call_builds_tree_witness :
  ∃ lg', Legacy_call page_program (Legacy_new true) = Returned 1 lg' ∧
    lg_currentContainer lg' = None ∧
    lg_elementQueue lg' = [] ∧
    length (lg_document lg') = 1 + size_call page_program ∧
    childNodes 0 (lg_document lg') = [] ++ [1] ∧
    tree_call page_program 1 0 (lg_document lg') ∧
    (∀ m, m < 1 → m ≠ 0 → childNodes m (lg_document lg') = childNodes m empty_document) ∧
    (∀ m, m < 1 →
       parentNode m (lg_document lg') = parentNode m empty_document ∧
       node_markup m (lg_document lg') = node_markup m empty_document).
Proof.
  apply (Legacy_call_builds_tree page_program (Legacy_new true)).
  - repeat split.
  - reflexivity.
  - split; vm_compute; lia.
Defined.

End LegacyReady.

Section LegacyLoading.

(** A program's nodes are read off its own nodes only. *)
Lemma flat_same_nodes d d' :
  (∀ c n parent, same_nodes n (n + size_call c) d d' →
     flat_call c n parent d → flat_call c n parent d') ∧
  (∀ cs n el parent, same_nodes n (n + size_children cs) d d' →
     flat_children cs n el parent d → flat_children cs n el parent d') ∧
  (∀ ch n el parent, same_nodes n (n + size_child ch) d d' →
     flat_child ch n el parent d → flat_child ch n el parent d') ∧
  (∀ b n parent, same_nodes n (n + size_body b) d d' →
     flat_body b n parent d → flat_body b n parent d').
Proof.
  apply Call_mutind.
  - intros tag text n parent Hs (H1 & H2 & H3). simpl in *.
    destruct (Hs n) as (E1 & E2 & E3); [lia|]. by rewrite E1, E2, E3.
  - intros children IH n parent Hs (H1 & H2 & H3 & H4). simpl in *.
    destruct (Hs n) as (E1 & E2 & E3); [lia|]. rewrite E1, E2, E3.
    split_and!; try done. apply IH; [|done].
    eapply same_nodes_weaken; [| |exact Hs]; lia.
  - done.
  - done.
  - intros child IHc rest IHr n el parent Hs [H1 H2]. simpl in *. split.
    + apply IHc; [|done]. eapply same_nodes_weaken; [| |exact Hs]; lia.
    + apply IHr; [|done]. eapply same_nodes_weaken; [| |exact Hs]; lia.
  - intros s n el parent Hs (H1 & H2 & H3). simpl in *.
    destruct (Hs n) as (E1 & E2 & E3); [lia|]. by rewrite E1, E2, E3.
  - done.
  - intros body IH n el parent Hs H. simpl in *. by apply IH.
  - done.
  - done.
  - intros c IHc rest IHr n parent Hs [H1 H2]. simpl in *. split.
    + apply IHc; [|done]. eapply same_nodes_weaken; [| |exact Hs]; lia.
    + apply IHr; [|done]. eapply same_nodes_weaken; [| |exact Hs]; lia.
  - intros block IHb rest IHr n parent Hs [H1 H2]. simpl in *. split.
    + apply IHb; [|done]. eapply same_nodes_weaken; [| |exact Hs]; lia.
    + apply IHr; [|done]. eapply same_nodes_weaken; [| |exact Hs]; lia.
Qed.

Lemma same_nodes_then lo n1 n2 d d1 d2 :
  n1 ≤ n2 → same_nodes lo n1 d d1 → same_nodes lo n2 d1 d2 → same_nodes lo n1 d d2.
Proof.
  intros Hn H1 H2 m Hm. destruct (H1 m Hm) as (A1 & A2 & A3).
  destruct (H2 m) as (B1 & B2 & B3); [lia|]. by rewrite B1, B2, B3.
Qed.

Lemma same_nodes_grown el d d' size :
  length d' = length d + size → el < length d →
  same_nodes 0 (length d) d d' → grown_at el d size [] d'.
Proof.
  intros Hlen Hel Hs. unfold grown_at. rewrite app_nil_r. split_and!.
  - done.
  - by destruct (Hs el) as (-> & _); [lia|].
  - intros m Hm _. by destruct (Hs m) as (-> & _); [lia|].
  - intros m Hm. by destruct (Hs m) as (_ & -> & ->); [lia|].
Qed.

Lemma add_when_loading el lg :
  lg_isReady lg = false →
  add_when_ready el lg =
  Returned () {| lg_isReady := false; lg_elementQueue := lg_elementQueue lg ++ [el];
                 lg_currentContainer := lg_currentContainer lg;
                 lg_document := lg_document lg |}.
Proof. intros H. unfold add_when_ready. by rewrite H. Qed.

(** While the page is loading, a program creates its nodes, gives each
    [div] its text nodes and queues its elements; no node of before
    changes. *)
Lemma Legacy_queues :
  (∀ c lg, plain_call c → lg_isReady lg = false →
     ∃ lg', Legacy_call c lg = Returned (length (lg_document lg)) lg' ∧
       lg_isReady lg' = false ∧
       lg_currentContainer lg' = lg_currentContainer lg ∧
       lg_elementQueue lg' =
         lg_elementQueue lg ++ queued_call c (length (lg_document lg)) ∧
       length (lg_document lg') = length (lg_document lg) + size_call c ∧
       same_nodes 0 (length (lg_document lg)) (lg_document lg) (lg_document lg') ∧
       flat_call c (length (lg_document lg)) None (lg_document lg')) ∧
  (∀ cs el lg, plain_children cs → lg_isReady lg = false →
     el < length (lg_document lg) →
     ∃ lg', Legacy_children el cs lg = Returned () lg' ∧
       lg_isReady lg' = false ∧
       lg_currentContainer lg' = lg_currentContainer lg ∧
       lg_elementQueue lg' =
         lg_elementQueue lg ++ queued_children cs (length (lg_document lg)) ∧
       grown_at el (lg_document lg) (size_children cs)
                (texts_children cs (length (lg_document lg))) (lg_document lg') ∧
       flat_children cs (length (lg_document lg)) el None (lg_document lg')) ∧
  (∀ ch el lg, plain_child ch → lg_isReady lg = false →
     el < length (lg_document lg) →
     ∃ lg', Legacy_child el ch lg = Returned () lg' ∧
       lg_isReady lg' = false ∧
       lg_currentContainer lg' = lg_currentContainer lg ∧
       lg_elementQueue lg' =
         lg_elementQueue lg ++ queued_child ch (length (lg_document lg)) ∧
       grown_at el (lg_document lg) (size_child ch)
                (texts_child ch (length (lg_document lg))) (lg_document lg') ∧
       flat_child ch (length (lg_document lg)) el None (lg_document lg')) ∧
  (∀ b lg, plain_body b → lg_isReady lg = false →
     ∃ lg', Legacy_body b lg = Returned () lg' ∧
       lg_isReady lg' = false ∧
       lg_currentContainer lg' = lg_currentContainer lg ∧
       lg_elementQueue lg' =
         lg_elementQueue lg ++ queued_body b (length (lg_document lg)) ∧
       length (lg_document lg') = length (lg_document lg) + size_body b ∧
       same_nodes 0 (length (lg_document lg)) (lg_document lg) (lg_document lg') ∧
       flat_body b (length (lg_document lg)) None (lg_document lg')).
Proof.
  apply Call_mutind.
  - (* an element factory *)
    intros tag text lg _ Hr. simpl.
    rewrite add_when_loading by done.
    eexists. split; [reflexivity|]. simpl.
    change (lg_document lg ++ [_])
      with (createNode {| mk_kind := ElementNode tag; mk_text := text |}
              (lg_document lg)).2.
    split_and!; try done.
    + rewrite length_createNode. lia.
    + intros m Hm. rewrite childNodes_createNode, parentNode_createNode.
      by rewrite node_markup_createNode_old by lia.
    + apply node_markup_createNode_new.
    + rewrite parentNode_createNode. by apply parentNode_out_of_range.
    + rewrite childNodes_createNode. by apply childNodes_out_of_range.
  - (* div *)
    intros children IH lg Hp Hr. simpl in Hp.
    pose proof (length_createNode {| mk_kind := ElementNode "div"; mk_text := "" |}
                  (lg_document lg)) as Hlen.
    rewrite Legacy_call_div. cbv zeta.
    set (el := length (lg_document lg)).
    set (d1 := (createNode {| mk_kind := ElementNode "div"; mk_text := "" |}
                  (lg_document lg)).2) in *.
    set (lg1 := lg_with_document (λ _, d1) lg).
    assert (parentNode el d1 = None) as Hfresh.
    { unfold d1. rewrite parentNode_createNode. by apply parentNode_out_of_range. }
    assert (childNodes el d1 = []) as Hnone.
    { unfold d1. rewrite childNodes_createNode. by apply childNodes_out_of_range. }
    assert (node_markup el d1 = Some {| mk_kind := ElementNode "div"; mk_text := "" |})
      as Hdiv by apply node_markup_createNode_new.
    assert (same_nodes 0 el (lg_document lg) d1) as Hold.
    { intros m Hm. unfold d1. rewrite childNodes_createNode, parentNode_createNode.
      by rewrite node_markup_createNode_old by (unfold el in Hm; lia). }
    destruct children as [|child rest].
    + rewrite add_when_loading by done.
      eexists. split; [reflexivity|]. simpl.
      split_and!; try done. fold el. lia.
    + set (lg2 := lg_with_container (Some el) lg1).
      destruct (IH el lg2 Hp Hr ltac:(simpl; fold d1; unfold el; lia))
        as (lg3 & Hrun & K1 & K2 & K3 & Hg & Hf).
      rewrite Hrun. rewrite add_when_loading by done.
      eexists. split; [reflexivity|].
      change (lg_document lg2) with d1 in K3, Hg, Hf. rewrite Hlen in K3, Hg, Hf.
      change (lg_elementQueue lg2) with (lg_elementQueue lg) in K3.
      destruct Hg as (G1 & G2 & G3 & G4).
      cbn [lg_isReady lg_currentContainer lg_elementQueue lg_document lg_with_container].
      refine (conj _ (conj _ (conj _ (conj _ (conj _ _))))).
      * done.
      * done.
      * rewrite K3. cbn [queued_call]. by rewrite app_assoc.
      * rewrite G1, Hlen. cbn [size_call]. lia.
      * intros m Hm. destruct (Hold m) as (<- & <- & <-); [fold el; lia|].
        destruct (G4 m) as [-> ->]; [unfold el in *; lia|].
        by rewrite G3 by (unfold el in *; lia).
      * cbn [flat_call]. destruct (G4 el) as [-> ->]; [unfold el; lia|].
        refine (conj _ (conj _ (conj _ _))); try done.
        by rewrite G2, Hnone.
  - (* throw *)
    intros msg lg Hp. done.
  - (* no children *)
    intros el lg _ Hr Hel. simpl. eexists. split; [reflexivity|].
    rewrite app_nil_r. split_and!; try done. apply grown_at_nothing.
  - (* children.forEach *)
    intros child IHc rest IHr el lg [Hp1 Hp2] Hr Hel. simpl.
    destruct (IHc el lg Hp1 Hr Hel) as (lg1 & Hrun1 & K1 & K2 & K3 & Hg1 & Hf1).
    rewrite Hrun1.
    pose proof Hg1 as (L1 & _).
    destruct (IHr el lg1 Hp2 K1 ltac:(lia)) as (lg2 & Hrun2 & K4 & K5 & K6 & Hg2 & Hf2).
    rewrite Hrun2. exists lg2. split; [done|].
    rewrite L1 in K6, Hg2, Hf2.
    destruct (grown_at_then el _ _ _ _ _ _ _ Hel Hg1 Hg2) as [Hg Hsame].
    refine (conj _ (conj _ (conj _ (conj _ (conj _ _))))); try done.
    + congruence.
    + rewrite K6, K3. by rewrite app_assoc.
    + by apply (proj1 (proj2 (proj2 (flat_same_nodes (lg_document lg1) (lg_document lg2))))).
  - (* a string *)
    intros s el lg _ Hr Hel. simpl.
    pose proof (create_append {| mk_kind := TextNode; mk_text := s |}
                  el (lg_document lg) Hel) as H.
    cbv zeta in H. destruct H as (C1 & C2 & C3 & C4 & C5 & C6 & C7).
    eexists. split; [reflexivity|]. unfold grown_at. simpl.
    change (lg_document lg ++ [_])
      with (createNode {| mk_kind := TextNode; mk_text := s |} (lg_document lg)).2.
    rewrite app_nil_r. split_and!; try done; lia.
  - (* an element *)
    intros n el lg Hp. done.
  - (* a function *)
    intros body IH el lg Hp Hr Hel. simpl.
    destruct (IH lg Hp Hr) as (lg1 & Hrun & K1 & K2 & K3 & L & Hs & Hf).
    exists lg1. split_and!; try done. by apply same_nodes_grown.
  - (* anything else *)
    intros el lg _ Hr Hel. simpl. eexists. split; [reflexivity|].
    rewrite app_nil_r. split_and!; try done. apply grown_at_nothing.
  - (* the end of a function body *)
    intros lg _ Hr. simpl. eexists. split; [reflexivity|].
    rewrite app_nil_r. split_and!; try done; lia.
  - (* a function body, statement by statement *)
    intros c IHc rest IHr lg [Hp1 Hp2] Hr. simpl.
    destruct (IHc lg Hp1 Hr) as (lg1 & Hrun1 & K1 & K2 & K3 & L1 & Hs1 & Hf1).
    rewrite Hrun1.
    destruct (IHr lg1 Hp2 K1) as (lg2 & Hrun2 & K4 & K5 & K6 & L2 & Hs2 & Hf2).
    rewrite Hrun2. exists lg2. split; [done|].
    rewrite L1 in K6, L2, Hs2, Hf2.
    refine (conj _ (conj _ (conj _ (conj _ (conj _ _))))); try done.
    + congruence.
    + rewrite K6, K3. by rewrite app_assoc.
    + lia.
    + eapply same_nodes_then; [|exact Hs1|exact Hs2]. lia.
    + split; [|done].
      apply (proj1 (flat_same_nodes (lg_document lg1) (lg_document lg2))); [|done].
      eapply same_nodes_weaken; [| |exact Hs2]; lia.
  - (* try *)
    intros block _ rest _ lg Hp. destruct Hp.
Qed.

Lemma queued_range :
  (∀ c n m, m ∈ queued_call c n → n ≤ m < n + size_call c) ∧
  (∀ cs n m, m ∈ queued_children cs n → n ≤ m < n + size_children cs) ∧
  (∀ ch n m, m ∈ queued_child ch n → n ≤ m < n + size_child ch) ∧
  (∀ b n m, m ∈ queued_body b n → n ≤ m < n + size_body b).
Proof.
  apply Call_mutind; cbn [queued_call queued_children queued_child queued_body
                          size_call size_children size_child size_body].
  - intros _ _ n m ->%list_elem_of_singleton. lia.
  - intros children IH n m [H| ->%list_elem_of_singleton]%elem_of_app; [|lia].
    apply IH in H. lia.
  - intros _ n m H. by apply elem_of_nil in H.
  - intros n m H. by apply elem_of_nil in H.
  - intros child IHc rest IHr n m [H|H]%elem_of_app.
    + apply IHc in H. lia.
    + apply IHr in H. lia.
  - intros _ n m H. by apply elem_of_nil in H.
  - intros _ n m H. by apply elem_of_nil in H.
  - intros body IH n m H. by apply IH.
  - intros n m H. by apply elem_of_nil in H.
  - intros n m H. by apply elem_of_nil in H.
  - intros c IHc rest IHr n m [H|H]%elem_of_app.
    + apply IHc in H. lia.
    + apply IHr in H. lia.
  - intros block IHb rest IHr n m [H|H]%elem_of_app.
    + apply IHb in H. lia.
    + apply IHr in H. lia.
Qed.

(** No element is queued twice. *)
Lemma queued_NoDup :
  (∀ c n, NoDup (queued_call c n)) ∧
  (∀ cs n, NoDup (queued_children cs n)) ∧
  (∀ ch n, NoDup (queued_child ch n)) ∧
  (∀ b n, NoDup (queued_body b n)).
Proof.
  apply Call_mutind; cbn [queued_call queued_children queued_child queued_body].
  - intros _ _ n. apply NoDup_singleton.
  - intros children IH n. apply NoDup_app. split_and!.
    + apply IH.
    + intros m H ->%list_elem_of_singleton. apply (proj1 (proj2 queued_range)) in H. lia.
    + apply NoDup_singleton.
  - intros _ n. apply NoDup_nil_2.
  - intros n. apply NoDup_nil_2.
  - intros child IHc rest IHr n. apply NoDup_app. split_and!.
    + apply IHc.
    + intros m H1 H2. apply (proj1 (proj2 (proj2 queued_range))) in H1.
      apply (proj1 (proj2 queued_range)) in H2. lia.
    + apply IHr.
  - intros _ n. apply NoDup_nil_2.
  - intros _ n. apply NoDup_nil_2.
  - intros body IH n. apply IH.
  - intros n. apply NoDup_nil_2.
  - intros n. apply NoDup_nil_2.
  - intros c IHc rest IHr n. apply NoDup_app. split_and!.
    + apply IHc.
    + intros m H1 H2. apply (proj1 queued_range) in H1.
      apply (proj2 (proj2 (proj2 queued_range))) in H2. lia.
    + apply IHr.
  - intros block IHb rest IHr n. apply NoDup_app. split_and!.
    + apply IHb.
    + intros m H1 H2. apply (proj2 (proj2 (proj2 queued_range))) in H1.
      apply (proj2 (proj2 (proj2 queued_range))) in H2. lia.
    + apply IHr.
Qed.

(** Every queued element has the parent of the elements. *)
Lemma flat_queued_parent parent d :
  (∀ c n, flat_call c n parent d → ∀ m, m ∈ queued_call c n → parentNode m d = parent) ∧
  (∀ cs n el, flat_children cs n el parent d →
     ∀ m, m ∈ queued_children cs n → parentNode m d = parent) ∧
  (∀ ch n el, flat_child ch n el parent d →
     ∀ m, m ∈ queued_child ch n → parentNode m d = parent) ∧
  (∀ b n, flat_body b n parent d → ∀ m, m ∈ queued_body b n → parentNode m d = parent).
Proof.
  apply Call_mutind;
    cbn [queued_call queued_children queued_child queued_body
         flat_call flat_children flat_child flat_body].
  - intros _ _ n (_ & H & _) m ->%list_elem_of_singleton. done.
  - intros children IH n (_ & H & _ & Hf) m [Hm| ->%list_elem_of_singleton]%elem_of_app;
      [|done]. by eapply IH.
  - intros _ n _ m H. by apply elem_of_nil in H.
  - intros n el _ m H. by apply elem_of_nil in H.
  - intros child IHc rest IHr n el [H1 H2] m [Hm|Hm]%elem_of_app.
    + by eapply IHc.
    + by eapply IHr.
  - intros _ n el _ m H. by apply elem_of_nil in H.
  - intros _ n el _ m H. by apply elem_of_nil in H.
  - intros body IH n el H m Hm. by eapply IH.
  - intros n el _ m H. by apply elem_of_nil in H.
  - intros n _ m H. by apply elem_of_nil in H.
  - intros c IHc rest IHr n [H1 H2] m [Hm|Hm]%elem_of_app.
    + by eapply IHc.
    + by eapply IHr.
  - intros block IHb rest IHr n [H1 H2] m [Hm|Hm]%elem_of_app.
    + by eapply IHb.
    + by eapply IHr.
Qed.

Lemma reparented_sub lo hi q lo' hi' q' p d d' :
  lo ≤ lo' → hi' ≤ hi → (∀ m, lo' ≤ m < hi' → (m ∈ q ↔ m ∈ q')) →
  reparented lo hi q p d d' → reparented lo' hi' q' p d d'.
Proof.
  intros H1 H2 Hq H m Hm. destruct (H m) as (A1 & A2 & A3 & A4); [lia|].
  split_and!; try done.
  - intros Hin. apply A3. by apply Hq.
  - intros Hin. apply A4. intros Hin'. apply Hin. by apply Hq.
Qed.

(** When the queued elements of a program are given a parent and nothing
    else changes, its elements have that parent, and every [div] still has
    its text nodes only. *)
Lemma flat_reparent p d d' :
  (∀ c n, reparented n (n + size_call c) (queued_call c n) p d d' →
     flat_call c n None d → flat_call c n (Some p) d') ∧
  (∀ cs n el, reparented n (n + size_children cs) (queued_children cs n) p d d' →
     flat_children cs n el None d → flat_children cs n el (Some p) d') ∧
  (∀ ch n el, reparented n (n + size_child ch) (queued_child ch n) p d d' →
     flat_child ch n el None d → flat_child ch n el (Some p) d') ∧
  (∀ b n, reparented n (n + size_body b) (queued_body b n) p d d' →
     flat_body b n None d → flat_body b n (Some p) d').
Proof.
  apply Call_mutind;
    cbn [queued_call queued_children queued_child queued_body
         size_call size_children size_child size_body
         flat_call flat_children flat_child flat_body].
  - intros tag text n Hs (H1 & H2 & H3).
    destruct (Hs n) as (E1 & E2 & E3 & _); [lia|]. rewrite E1, E2.
    split_and!; try done. apply E3. by apply list_elem_of_singleton.
  - intros children IH n Hs (H1 & H2 & H3 & H4).
    destruct (Hs n) as (E1 & E2 & E3 & _); [lia|]. rewrite E1, E2.
    refine (conj _ (conj _ (conj _ _))); try done.
    + apply E3. apply elem_of_app. right. by apply list_elem_of_singleton.
    + apply IH; [|done]. eapply reparented_sub; [| | |exact Hs]; [lia|lia|].
      intros m Hm. rewrite elem_of_app, list_elem_of_singleton. split; [|tauto].
      intros [H|H]; [done|lia].
  - done.
  - done.
  - intros child IHc rest IHr n el Hs [H1 H2]. split.
    + apply IHc; [|done]. eapply reparented_sub; [| | |exact Hs]; [lia|lia|].
      intros m Hm. rewrite elem_of_app. split; [|tauto].
      intros [H|H]; [done|]. apply (proj1 (proj2 queued_range)) in H. lia.
    + apply IHr; [|done]. eapply reparented_sub; [| | |exact Hs]; [lia|lia|].
      intros m Hm. rewrite elem_of_app. split; [|tauto].
      intros [H|H]; [|done]. apply (proj1 (proj2 (proj2 queued_range))) in H. lia.
  - intros s n el Hs (H1 & H2 & H3).
    destruct (Hs n) as (E1 & E2 & _ & E4); [lia|]. rewrite E1, E2, E4; [done|].
    apply not_elem_of_nil.
  - done.
  - intros body IH n el Hs H. by apply IH.
  - done.
  - done.
  - intros c IHc rest IHr n Hs [H1 H2]. split.
    + apply IHc; [|done]. eapply reparented_sub; [| | |exact Hs]; [lia|lia|].
      intros m Hm. rewrite elem_of_app. split; [|tauto].
      intros [H|H]; [done|]. apply (proj2 (proj2 (proj2 queued_range))) in H. lia.
    + apply IHr; [|done]. eapply reparented_sub; [| | |exact Hs]; [lia|lia|].
      intros m Hm. rewrite elem_of_app. split; [|tauto].
      intros [H|H]; [|done]. apply (proj1 queued_range) in H. lia.
  - intros block IHb rest IHr n Hs [H1 H2]. split.
    + apply IHb; [|done]. eapply reparented_sub; [| | |exact Hs]; [lia|lia|].
      intros m Hm. rewrite elem_of_app. split; [|tauto].
      intros [H|H]; [done|]. apply (proj2 (proj2 (proj2 queued_range))) in H. lia.
    + apply IHr; [|done]. eapply reparented_sub; [| | |exact Hs]; [lia|lia|].
      intros m Hm. rewrite elem_of_app. split; [|tauto].
      intros [H|H]; [|done]. apply (proj2 (proj2 (proj2 queued_range))) in H. lia.
Qed.

Lemma descends_same_elsewhere b d d' :
  (∀ m, m ≠ b → childNodes m d' = childNodes m d) →
  ∀ fuel a, descends fuel a b d' = true → descends fuel a b d = true.
Proof.
  intros Hsame. induction fuel as [|fuel IH]; intros a; simpl.
  - by rewrite !orb_false_r.
  - destruct (decide (b = a)) as [->|Hne]; [by rewrite bool_decide_eq_true_2|].
    rewrite bool_decide_eq_false_2 by done. simpl.
    intros Hex. apply existsb_exists in Hex as (x & Hx & Hd).
    rewrite Hsame in Hx by done. apply existsb_exists. exists x. split; [done|].
    by apply IH.
Qed.

(** The queued closures all append to the container that is current when
    the page has loaded; none of them throws when no queued element holds
    that container. *)
Lemma flush_documents q lg :
  let p := getCurrentContainer lg in
  NoDup q → p < length (lg_document lg) →
  (∀ el, el ∈ q → el < length (lg_document lg) ∧ el ≠ p ∧
                  parentNode el (lg_document lg) = None ∧
                  ¬ holds el p (lg_document lg)) →
  Legacy_run_queue q lg =
  Returned () (lg_with_document (λ d, foldl (λ d el, appendChild p el d) d q) lg).
Proof.
  revert lg. induction q as [|el q IH]; intros lg p Hnd Hp Hq.
  - by destruct lg.
  - apply NoDup_cons in Hnd as [Hel Hnd].
    destruct (Hq el) as (Q1 & Q2 & Q3 & Q4); [apply list_elem_of_here|].
    pose proof (append_detached p el (lg_document lg) Q3 Hp Q1) as H. cbv zeta in H.
    destruct H as (A1 & A2 & A3 & A4 & A5 & A6).
    cbn [Legacy_run_queue]. unfold addToDOM. fold p.
    rewrite Node_appendChild_ok by (done || by apply not_holds_contains).
    rewrite IH.
    + by destruct lg.
    + done.
    + change (getCurrentContainer (lg_with_document _ lg)) with p.
      cbn [lg_document lg_with_document]. lia.
    + intros x Hx. destruct (Hq x) as (X1 & X2 & X3 & X4); [by apply list_elem_of_further|].
      change (getCurrentContainer (lg_with_document _ lg)) with p.
      cbn [lg_document lg_with_document]. split_and!; [lia|done| |].
      * rewrite A5; [done|]. by intros ->.
      * intros [fuel Hd]. apply X4. exists fuel.
        by apply (descends_same_elsewhere p _ (appendChild p el (lg_document lg))).
Qed.

Lemma append_all p q d :
  NoDup q → p < length d →
  (∀ el, el ∈ q → el < length d ∧ el ≠ p ∧ parentNode el d = None) →
  let d' := foldl (λ d el, appendChild p el d) d q in
  length d' = length d ∧
  childNodes p d' = childNodes p d ++ q ∧
  (∀ m, m ≠ p → childNodes m d' = childNodes m d) ∧
  (∀ el, el ∈ q → parentNode el d' = Some p) ∧
  (∀ m, m ∉ q → parentNode m d' = parentNode m d) ∧
  (∀ m, node_markup m d' = node_markup m d).
Proof.
  revert d. induction q as [|el q IH]; intros d Hnd Hp Hq d'.
  - unfold d'. simpl. rewrite app_nil_r. split_and!; try done.
    intros el H. by apply elem_of_nil in H.
  - apply NoDup_cons in Hnd as [Hel Hnd].
    destruct (Hq el) as (Q1 & Q2 & Q3); [apply list_elem_of_here|].
    pose proof (append_detached p el d Q3 Hp Q1) as H. cbv zeta in H.
    destruct H as (A1 & A2 & A3 & A4 & A5 & A6).
    destruct (IH (appendChild p el d) Hnd) as (B1 & B2 & B3 & B4 & B5 & B6).
    { lia. }
    { intros x Hx. destruct (Hq x) as (X1 & X2 & X3); [by apply list_elem_of_further|].
      split_and!; [lia|done|]. rewrite A5; [done|]. intros ->. done. }
    unfold d'. cbn [foldl]. split_and!.
    + lia.
    + rewrite B2, A2. by rewrite <- app_assoc.
    + intros m Hm. rewrite B3 by done. by apply A3.
    + intros x [->|Hx]%elem_of_cons.
      * rewrite B5 by done. done.
      * by apply B4.
    + intros m Hm. apply not_elem_of_cons in Hm as [Hm1 Hm2].
      rewrite B5 by done. by apply A5.
    + intros m. by rewrite B6.
Qed.

(** X16: while the page is loading, the same program returns under
    [simplest.js], changes no node of before and only queues its elements,
    every [div] after the elements of its function arguments.  When the page
    has loaded, with no container current and no element queued earlier that
    holds the body, the queued elements all become children of the body, in
    the order of the queue: a [div] keeps the text
    nodes of its string arguments and nothing else, and the elements that its
    function arguments created stand before it in the body. *)
Theorem queued_elements_land_in_body c lg :
  plain_call c → lg_isReady lg = false → lg_currentContainer lg = None →
  0 < length (lg_document lg) → waiting lg →
  let d := lg_document lg in
  let n := length d in
  ∃ lg1, Legacy_call c lg = Returned n lg1 ∧
    lg_elementQueue lg1 = lg_elementQueue lg ++ queued_call c n ∧
    same_nodes 0 n d (lg_document lg1) ∧
    let lg2 := Legacy_loaded lg1 in
    lg_isReady lg2 = true ∧
    lg_elementQueue lg2 = [] ∧
    length (lg_document lg2) = n + size_call c ∧
    childNodes body (lg_document lg2) =
      childNodes body d ++ lg_elementQueue lg ++ queued_call c n ∧
    flat_call c n (Some body) (lg_document lg2).
Proof.
  intros Hp Hr Hc Hd [Hnd Hw]. cbv zeta.
  destruct (proj1 Legacy_queues c lg Hp Hr) as (lg1 & Hrun & K1 & K2 & K3 & L & Hs & Hf).
  exists lg1. split; [done|]. split; [done|]. split; [done|].
  assert (above (length (lg_document lg)) (lg_document lg1)) as Habove.
  { destruct (proj1 Legacy_above c lg (length (lg_document lg)) Hp) as [_ H];
      [done|apply above_length|]. by rewrite Hrun in H. }
  assert (NoDup (lg_elementQueue lg1)) as Hnd1.
  { rewrite K3. apply NoDup_app. split_and!.
    - done.
    - intros m H1 H2. apply Hw in H1 as (H1 & _).
      apply (proj1 queued_range) in H2. lia.
    - apply queued_NoDup. }
  assert (∀ el, el ∈ lg_elementQueue lg1 →
            el < length (lg_document lg1) ∧ el ≠ body ∧
            parentNode el (lg_document lg1) = None ∧
            ¬ holds el body (lg_document lg1)) as Hq1.
  { intros el. rewrite K3. intros [H|H]%elem_of_app.
    - destruct (Hw el H) as (W1 & W2 & W3 & W4).
      split_and!; [lia|done| |].
      + by destruct (Hs el) as (_ & -> & _); [lia|].
      + intros [fuel Hf']. apply W4. exists fuel.
        apply (descends_unchanged (length (lg_document lg)) body _ (lg_document lg1));
          [|done|done|done].
        intros m Hm _. by destruct (Hs m) as (-> & _); [lia|].
    - pose proof (proj1 queued_range _ _ _ H) as Hrange.
      split_and!; [lia|unfold body; lia| |].
      + by apply (proj1 (flat_queued_parent None (lg_document lg1)) c
                    (length (lg_document lg))).
      + intros [fuel Hf'].
        rewrite (descends_above (length (lg_document lg))) in Hf'; [done|done|lia|done]. }
  unfold Legacy_loaded. rewrite flush_documents.
  2:{ done. }
  2:{ unfold getCurrentContainer. simpl. rewrite K2, Hc. simpl. unfold body. lia. }
  2:{ unfold getCurrentContainer. simpl. rewrite K2, Hc. exact Hq1. }
  cbn [lg_isReady lg_elementQueue lg_document lg_currentContainer lg_with_document].
  unfold getCurrentContainer. cbn [lg_currentContainer]. rewrite K2, Hc. cbn [default].
  destruct (append_all body (lg_elementQueue lg1) (lg_document lg1))
    as (B1 & B2 & B3 & B4 & B5 & B6).
  { done. }
  { unfold body. lia. }
  { intros el Hel. destruct (Hq1 el Hel) as (? & ? & ? & _). done. }
  split_and!.
  - done.
  - done.
  - lia.
  - rewrite B2, K3. by destruct (Hs body) as (-> & _); [unfold body; lia|].
  - apply (proj1 (flat_reparent body (lg_document lg1) _)); [|done].
    intros m Hm. split_and!.
    + apply B3. unfold body. lia.
    + apply B6.
    + intros H. apply B4. rewrite K3. apply elem_of_app. by right.
    + intros H. apply B5. rewrite K3. intros [H1|H1]%elem_of_app; [|done].
      apply Hw in H1 as (H1 & _). lia.
Qed.

Lemma queued_elements_land_in_body_witness :
  ∃ lg1, Legacy_call page_program (Legacy_new false) = Returned 1 lg1 ∧
    lg_elementQueue lg1 = [] ++ queued_call page_program 1 ∧
    same_nodes 0 1 empty_document (lg_document lg1) ∧
    let lg2 := Legacy_loaded lg1 in
    lg_isReady lg2 = true ∧
    lg_elementQueue lg2 = [] ∧
    length (lg_document lg2) = 1 + size_call page_program ∧
    childNodes body (lg_document lg2) =
      childNodes body empty_document ++ [] ++ queued_call page_program 1 ∧
    flat_call page_program 1 (Some body) (lg_document lg2).
Proof.
  apply (queued_elements_land_in_body page_program (Legacy_new false)).
  - repeat split.
  - reflexivity.
  - reflexivity.
  - simpl. lia.
  - split; [constructor|]. intros el H. by apply elem_of_nil in H.
Defined.

End LegacyLoading.

Section LegacyStranded.

Lemma strands_container_then {A B} (lg : Legacy) (o1 : Outcome Legacy A)
    (o2 : Outcome Legacy B) :
  strands_container lg o1 → strands_container (final o1) o2 → strands_container lg o2.
Proof.
  intros (R1 & L1 & C1) (R2 & L2 & C2). split_and!; [congruence|lia|].
  destruct C2 as [C2|(el & C2 & Hel)].
  - destruct C1 as [C1|(el & C1 & Hel)].
    + left. congruence.
    + right. exists el. split; [congruence|lia].
  - right. exists el. split; [done|lia].
Qed.

Lemma strands_container_same {A} (lg lg' : Legacy) (o : Outcome Legacy A) :
  final o = lg' → lg_isReady lg' = lg_isReady lg →
  length (lg_document lg) ≤ length (lg_document lg') →
  lg_currentContainer lg' = lg_currentContainer lg →
  strands_container lg o.
Proof. intros H R L C. unfold strands_container. rewrite H. split_and!; [done|done|by left]. Qed.

Lemma add_when_ready_settings el lg :
  lg_isReady (final (add_when_ready el lg)) = lg_isReady lg ∧
  length (lg_document (final (add_when_ready el lg))) = length (lg_document lg) ∧
  lg_currentContainer (final (add_when_ready el lg)) = lg_currentContainer lg.
Proof.
  split; [|split; [apply length_add_when_ready|]];
    unfold add_when_ready, addToDOM; destruct (lg_isReady lg) eqn:Hr; simpl; try done;
    by destruct (Node_appendChild (getCurrentContainer lg) el (lg_document lg)).
Qed.

Lemma strands_container_add {A} (lg lg1 : Legacy) (r : A) el :
  lg_isReady lg1 = lg_isReady lg →
  length (lg_document lg) ≤ length (lg_document lg1) →
  lg_currentContainer lg1 = lg_currentContainer lg →
  strands_container lg (and_return r (add_when_ready el lg1)).
Proof.
  intros H1 H2 H3. destruct (add_when_ready_settings el lg1) as (R & L & C).
  eapply strands_container_same; [apply final_and_return|congruence|lia|congruence].
Qed.

Lemma Legacy_strands :
  (∀ c lg, strands_container lg (Legacy_call c lg)) ∧
  (∀ cs el lg, strands_container lg (Legacy_children el cs lg)) ∧
  (∀ ch el lg, strands_container lg (Legacy_child el ch lg)) ∧
  (∀ b lg, strands_container lg (Legacy_body b lg)).
Proof.
  apply Call_mutind.
  - intros tag text lg. cbn [Legacy_call createNode].
    apply strands_container_add; simpl; try done. rewrite length_app. lia.
  - intros children IH lg. rewrite Legacy_call_div. cbv zeta.
    destruct children as [|child rest].
    + apply strands_container_add; simpl; try done. rewrite length_app. lia.
    + match goal with |- context [Legacy_children ?el _ ?lg2] =>
        specialize (IH el lg2); destruct (Legacy_children el _ lg2) as [[] lg3|msg lg3]
      end; destruct IH as (R3 & L3 & C3); simpl in R3, L3, C3;
        rewrite length_app in L3; simpl in L3.
      * apply strands_container_add; simpl; try done. lia.
      * unfold strands_container. simpl. split_and!; [done|lia|]. right.
        destruct C3 as [C3|(el & C3 & Hel)].
        -- eexists. split; [exact C3|]. lia.
        -- exists el. split; [done|]. rewrite length_app in Hel. simpl in Hel. lia.
  - intros msg lg. by eapply strands_container_same.
  - intros el lg. by eapply strands_container_same.
  - intros child IHc rest IHr el lg. simpl. specialize (IHc el lg).
    destruct (Legacy_child el child lg) as [[] lg1|msg lg1]; [|done].
    eapply strands_container_then; [exact IHc|apply IHr].
  - intros s el lg. eapply strands_container_same; try done. simpl.
    rewrite length_appendChild, length_app. simpl. lia.
  - intros n el lg. simpl. case_decide; [|by eapply strands_container_same].
    pose proof (final_Node_appendChild el n (lg_document lg)) as Hl.
    destruct (Node_appendChild el n (lg_document lg));
      eapply strands_container_same; try done. simpl in *. lia.
  - intros body IH el lg. simpl. apply IH.
  - intros el lg. by eapply strands_container_same.
  - intros lg. by eapply strands_container_same.
  - intros c IHc rest IHr lg. simpl. specialize (IHc lg).
    destruct (Legacy_call c lg) as [r lg1|msg lg1]; [|done].
    eapply strands_container_then; [exact IHc|apply IHr].
  - intros block IHb rest IHr lg. simpl. specialize (IHb lg).
    destruct (Legacy_body block lg) as [[] lg1|msg lg1];
      (eapply strands_container_then; [exact IHb|apply IHr]).
Qed.

(** X17: when a child of the [div] of [simplest.js] throws, the current
    container stays a node that the failed call created.  [withContainer]
    puts the previous container back only after its function has returned:
    the exception leaves [div], and after it the current container is a node
    created during the call; once the page is ready the next element made is
    appended to that node, not to the container of before. *)
Theorem throw_strands_container children lg msg lg' :
  Legacy_div_children children lg = Thrown msg lg' →
  Legacy_call (CallDiv children) lg = Thrown msg lg' ∧
  ∃ el, lg_currentContainer lg' = Some el ∧
    length (lg_document lg) ≤ el < length (lg_document lg') ∧
    (lg_isReady lg = true → ∀ tag text,
       ∃ lg'', Legacy_call (CallElement tag text) lg'
                 = Returned (length (lg_document lg')) lg'' ∧
               parentNode (length (lg_document lg')) (lg_document lg'') = Some el).
Proof.
  intros Hdiv. unfold Legacy_div_children in Hdiv. cbn [createNode] in Hdiv.
  rewrite Legacy_call_div. cbv zeta. cbn [createNode snd].
  destruct children as [|child rest]; [done|].
  match type of Hdiv with Legacy_children ?el _ ?lg2 = _ =>
    pose proof (proj1 (proj2 Legacy_strands) (AndChild child rest) el lg2) as (R & L & C)
  end.
  rewrite Hdiv in R, L, C |- *. split; [done|].
  simpl in R, L, C. rewrite length_app in L. simpl in L.
  assert (∃ el, lg_currentContainer lg' = Some el ∧
                length (lg_document lg) ≤ el < length (lg_document lg')) as (el & C1 & Hel).
  { destruct C as [C|(el & C & Hel)].
    - eexists. split; [exact C|]. lia.
    - exists el. split; [done|]. rewrite length_app in Hel. simpl in Hel. lia. }
  exists el. split; [done|]. split; [done|]. intros Hr tag text.
  assert (getCurrentContainer lg' = el) as Hctx
    by (unfold getCurrentContainer; by rewrite C1).
  cbn [Legacy_call createNode].
  pose proof (add_when_ready_new {| mk_kind := ElementNode tag; mk_text := text |} lg'
                ltac:(congruence) ltac:(lia)) as Hadd.
  cbv zeta in Hadd. cbn [createNode snd] in Hadd. rewrite Hadd.
  eexists. split; [reflexivity|]. cbn [lg_document lg_with_document].
  change (getCurrentContainer (lg_with_document _ lg')) with (getCurrentContainer lg').
  rewrite Hctx.
  rewrite parentNode_appendChild by (rewrite length_app; simpl; lia).
  by rewrite decide_True.
Qed.

Lemma throw_strands_container_witness :
  let lg' := final (Legacy_div_children throwing_child (Legacy_new true)) in
  Legacy_call (CallDiv throwing_child) (Legacy_new true) = Thrown "boom" lg' ∧
  ∃ el, lg_currentContainer lg' = Some el ∧
    length (lg_document (Legacy_new true)) ≤ el < length (lg_document lg') ∧
    (lg_isReady (Legacy_new true) = true → ∀ tag text,
       ∃ lg'', Legacy_call (CallElement tag text) lg'
                 = Returned (length (lg_document lg')) lg'' ∧
               parentNode (length (lg_document lg')) (lg_document lg'') = Some el).
Proof.
  apply (throw_strands_container throwing_child (Legacy_new true) "boom"). reflexivity.
Defined.

(** [div({}, document.body)] of [simplest.js] on a ready page: the body goes
    under the new element, [withContainer] puts the container back, and
    [addToDOM] throws because the element holds the body.  This exception
    leaves no container behind. *)
Example Legacy_div_of_body_throws :
  let o := Legacy_call (CallDiv (AndChild (ChildElement body) NoChildren)) (Legacy_new true) in
  returns (Legacy_div_children (AndChild (ChildElement body) NoChildren) (Legacy_new true))
    = true ∧
  returns o = false ∧ lg_currentContainer (final o) = None.
Proof. by vm_compute. Qed.

End LegacyStranded.
